(** * Static router-tree resolver of [contract_coverage.py]

    A shallow embedding of
    [packages/backend-rust/scripts/contract_coverage.py]: the text scanner,
    the argument splitter, the path composer, the module resolver, the
    router tree walker and the coverage arithmetic, with the properties the
    specification states about them; then the extractors that work by
    regular expressions and the report of [main], with properties read off
    the code.

    A Python [str] is modelled as the list of its characters, each
    character as its Unicode code point. *)

From Stdlib Require Import Ascii String ZArith.
From Stdlib Require Import Floats.SpecFloat.
From stdpp Require Import base list gmap strings sorting.

Local Open Scope Z_scope.

(** ** Strings *)

(** A character, as its code point. *)
Abbreviation char := N.

Abbreviation str := (list char).

(** The code point of a character of a literal of the source, from its
    bits, lowest first. *)
Fixpoint code_of_bits (bits : list bool) : char :=
  match bits with
  | [] => 0%N
  | b :: bits' =>
    match code_of_bits bits' with
    | N0 => if b then Npos 1 else N0
    | Npos p => Npos (if b then p~1 else p~0)
    end
  end.

Definition code (a : ascii) : char :=
  let '(Ascii b0 b1 b2 b3 b4 b5 b6 b7) := a in
  code_of_bits [b0; b1; b2; b3; b4; b5; b6; b7].

(** The string of a literal of the source. *)
Definition lit (s : string) : str := code <$> list_ascii_of_string s.

Definition dquote : char := 34%N.
Definition bslash : char := 92%N.
Definition lparen : char := 40%N.
Definition rparen : char := 41%N.
Definition comma : char := 44%N.
Definition slash : char := 47%N.

Definition chr_eqb (a b : char) : bool := bool_decide (a = b).

(** Python slice [s[a:b]] for non-negative [a], [b]. *)
Definition slice (s : str) (a b : nat) : str := take (b - a)%nat (drop a s).

(** [s.startswith(p)] *)
Fixpoint startswith (s p : str) : bool :=
  match p, s with
  | [], _ => true
  | c :: p', d :: s' => chr_eqb d c && startswith s' p'
  | _ :: _, [] => false
  end.

(** [s.endswith(p)] *)
Definition endswith (s p : str) : bool := startswith (reverse s) (reverse p).

(** [s.rstrip(c)] for a one-character argument: drop every trailing [c]. *)
Fixpoint rstrip (s : str) (c : char) : str :=
  match s with
  | [] => []
  | d :: s' =>
    match rstrip s' c with
    | [] => if chr_eqb d c then [] else [d]
    | r => d :: r
    end
  end.

(** [s.lstrip(c)]-style dropping of leading characters satisfying [f]. *)
Fixpoint lstrip_if (f : char → bool) (s : str) : str :=
  match s with
  | [] => []
  | d :: s' => if f d then lstrip_if f s' else s
  end.

(** The characters for which [str.isspace()] holds: what [str.strip()]
    removes and what [\s] matches on a [str].  They are U+0009 to U+000D,
    U+001C to U+0020, U+0085, U+00A0, U+1680, U+2000 to U+200A, U+2028,
    U+2029, U+202F, U+205F and U+3000. *)
Definition is_space (c : char) : bool :=
  ((9 <=? c) && (c <=? 13) || (28 <=? c) && (c <=? 32)
   || (c =? 133) || (c =? 160) || (c =? 5760)
   || (8192 <=? c) && (c <=? 8202)
   || (c =? 8232) || (c =? 8233) || (c =? 8239) || (c =? 8287)
   || (c =? 12288))%N.

(** What a call raises or returns.  [OutOfFuel] is not a Python outcome: it
    marks a model run that was cut before the loop or recursion ended. *)
Inductive outcome (A : Type) : Type :=
  | Returns (a : A)
  | Raises
  | OutOfFuel.
Arguments Returns {A} a.
Arguments Raises {A}.
Arguments OutOfFuel {A}.

Definition obind {A B} (m : outcome A) (k : A → outcome B) : outcome B :=
  match m with
  | Returns a => k a
  | Raises => Raises
  | OutOfFuel => OutOfFuel
  end.


(** ** [_unescape_rust_string] and [_extract_string_literal] *)

Definition newline : char := 10%N.

(** [s.replace(ab, by)] for a two-character [ab]: occurrences are replaced
    from left to right without overlap. *)
Fixpoint replace_pair (a b : char) (by_ : str) (s : str) : str :=
  match s with
  | c :: s' =>
    match s' with
    | d :: s'' =>
      if chr_eqb c a && chr_eqb d b then by_ ++ replace_pair a b by_ s''
      else c :: replace_pair a b by_ s'
    | [] => s
    end
  | [] => s
  end.

Definition _unescape_rust_string (raw : str) : str :=
  replace_pair bslash dquote [dquote] (replace_pair bslash bslash [bslash] raw).

(** The group of the pattern: escaped characters (a backslash and any
    character but a newline) and characters other than quote and backslash,
    up to the closing quote.  Returns the text of the group. *)
Fixpoint literal_body (s acc : str) : option str :=
  match s with
  | [] => None
  | c :: s' =>
    if chr_eqb c dquote then Some acc
    else if chr_eqb c bslash then
      match s' with
      | d :: s'' =>
        if chr_eqb d newline then None else literal_body s'' (acc ++ [c; d])
      | [] => None
      end
    else literal_body s' (acc ++ [c])
  end.

(** [re.match] of optional whitespace, a quote, the group and a quote at the
    start of [expr]. *)
Definition _extract_string_literal (expr : str) : option str :=
  match lstrip_if is_space expr with
  | c :: s =>
    if chr_eqb c dquote then _unescape_rust_string <$> literal_body s [] else None
  | [] => None
  end.

(** ** [_split_top_level_comma] *)

Module Split.

(** The body of [for i, ch in enumerate(args)]: [rest] is what remains to be
    enumerated, [i] the index of its head in [args]. *)
Fixpoint scan (args rest : str) (i : nat) (depth : Z) (in_str esc : bool)
  : option (str * str) :=
  match rest with
  | [] => None
  | ch :: rest' =>
    if in_str then
      if esc then scan args rest' (S i) depth in_str false
      else if chr_eqb ch bslash then scan args rest' (S i) depth in_str true
      else if chr_eqb ch dquote then scan args rest' (S i) depth false esc
      else scan args rest' (S i) depth in_str esc
    else if chr_eqb ch dquote then scan args rest' (S i) depth true esc
    else if chr_eqb ch lparen then scan args rest' (S i) (depth + 1) in_str esc
    else if chr_eqb ch rparen then
      scan args rest' (S i) (Z.max 0 (depth - 1)) in_str esc
    else if chr_eqb ch comma && (depth =? 0) then
      Some (take i args, drop (S i) args)
    else scan args rest' (S i) depth in_str esc
  end.

End Split.

Definition _split_top_level_comma (args : str) : option (str * str) :=
  Split.scan args args 0 0 false false.

(** *** What the specification calls a top-level comma

    The lexical context of a position is the context reached by reading the
    text before it from left to right: whether one is inside a double-quoted
    literal (a backslash inside a literal makes the next character literal),
    and how many parentheses are open.  A closing parenthesis with none open
    leaves the depth at zero. *)

Record lex := Lex { lex_depth : Z; lex_in_str : bool; lex_esc : bool }.

Definition lex_init : lex := Lex 0 false false.

Definition lex_step (st : lex) (ch : char) : lex :=
  match st with
  | Lex d true true => Lex d true false
  | Lex d true false =>
    if chr_eqb ch bslash then Lex d true true
    else if chr_eqb ch dquote then Lex d false false
    else st
  | Lex d false e =>
    if chr_eqb ch dquote then Lex d true e
    else if chr_eqb ch lparen then Lex (d + 1) false e
    else if chr_eqb ch rparen then Lex (Z.max 0 (d - 1)) false e
    else st
  end.

Definition lex_after (s : str) : lex := foldl lex_step lex_init s.

Definition top_level (st : lex) : bool :=
  negb (lex_in_str st) && (lex_depth st =? 0).

(** Position [i] of [args] holds a comma at depth zero outside any literal. *)
Definition top_level_comma_at (args : str) (i : nat) : Prop :=
  args !! i = Some comma ∧ top_level (lex_after (take i args)) = true.

Global Instance top_level_comma_at_dec args i : Decision (top_level_comma_at args i).
Proof. unfold top_level_comma_at. apply _. Defined.

(** ** [_extract_two_arg_calls] *)

Module Calls.

(** [text.find(needle, i)] where [s] is [text[idx:]]: the lowest index at or
    after [idx] where [needle] occurs. *)
Fixpoint find_from (needle s : str) (idx : nat) : option nat :=
  if startswith s needle then Some idx
  else match s with
       | [] => None
       | _ :: s' => find_from needle s' (S idx)
       end.

(** [text.find(needle, i)]; [None] stands for [-1]. *)
Definition find (text needle : str) (i : nat) : option nat :=
  if decide (i ≤ length text)%nat then find_from needle (drop i text) i
  else None.

(** The inner [while j < len(text) and depth > 0]: [rest] is [text[j:]].
    Returns the loop variables [j] and [depth] at exit. *)
Fixpoint args_end (rest : str) (j : nat) (depth : Z) (in_str esc : bool)
  : nat * Z :=
  match rest with
  | [] => (j, depth)
  | ch :: rest' =>
    if negb (depth >? 0) then (j, depth)
    else if in_str then
      if esc then args_end rest' (S j) depth in_str false
      else if chr_eqb ch bslash then args_end rest' (S j) depth in_str true
      else if chr_eqb ch dquote then args_end rest' (S j) depth false esc
      else args_end rest' (S j) depth in_str esc
    else
      if chr_eqb ch dquote then args_end rest' (S j) depth true esc
      else if chr_eqb ch lparen then args_end rest' (S j) (depth + 1) in_str esc
      else if chr_eqb ch rparen then args_end rest' (S j) (depth - 1) in_str esc
      else args_end rest' (S j) depth in_str esc
  end.

(** The outer [while True].  Indices are natural numbers: [j - 1] is
    negative in Python only when [needle] and [text] are both empty, where the
    slice is empty either way. *)
Fixpoint loop (fuel : nat) (text needle : str) (i : nat) (calls : list (str * str))
  : outcome (list (str * str)) :=
  match fuel with
  | O => OutOfFuel
  | S fuel' =>
    match find text needle i with
    | None => Returns calls
    | Some idx =>
      let start := (idx + length needle)%nat in
      let j := fst (args_end (drop start text) start 1 false false) in
      let args := slice text start (j - 1) in
      let calls :=
        match _split_top_level_comma args with
        | Some parts => calls ++ [parts]
        | None => calls
        end in
      loop fuel' text needle j calls
    end
  end.

End Calls.

Definition _extract_two_arg_calls (text needle : str) : outcome (list (str * str)) :=
  Calls.loop (S (S (length text))) text needle 0 [].

(** The argument list opened at [start] is still open at the end of [text]. *)
Definition unbalanced_from (text : str) (start : nat) : Prop :=
  snd (Calls.args_end (drop start text) start 1 false false) > 0.

(** ** [_join_paths] *)

Definition _join_paths (prefix path : str) : str :=
  if bool_decide (prefix = lit "") then
    if bool_decide (path = lit "") then lit "/"
    else
      let path := if negb (startswith path (lit "/")) then lit "/" ++ path else path in
      if bool_decide (path ≠ lit "/") && endswith path (lit "/") then rstrip path slash
      else path
  else
    let prefix :=
      if negb (startswith prefix (lit "/")) then lit "/" ++ prefix else prefix in
    let prefix :=
      if bool_decide (prefix ≠ lit "/") && endswith prefix (lit "/")
      then slice prefix 0 (length prefix - 1)
      else prefix in
    if bool_decide (path = lit "/") then prefix
    else
      let path := if negb (startswith path (lit "/")) then lit "/" ++ path else path in
      if bool_decide (prefix = lit "/") then path
      else prefix ++ path.

(** *** Normal forms of the two arguments

    [nl path] is [path] with its leading slash; [np prefix] is [prefix] as the
    non-empty-prefix branch rewrites it: leading slash added, one trailing
    slash removed unless the prefix is the root. *)
Definition nl (path : str) : str :=
  if startswith path (lit "/") then path else lit "/" ++ path.

Definition np (prefix : str) : str :=
  let p := nl prefix in
  if bool_decide (p ≠ lit "/") && endswith p (lit "/")
  then slice p 0 (length p - 1) else p.

(** Concatenation of canonical paths, with the root as unit. *)
Definition glue (a b : str) : str :=
  if bool_decide (b = lit "/") then a
  else if bool_decide (a = lit "/") then b
  else a ++ b.

(** Canonical form: a leading slash, and no trailing slash except for the
    root. *)
Definition canonical (s : str) : bool :=
  startswith s (lit "/") &&
  (bool_decide (s = lit "/") || negb (endswith s (lit "/"))).

(** A leaf path as route declarations write it: non-empty, with no trailing
    slash unless it is the root. *)
Definition leaf_ok (path : str) : bool :=
  bool_decide (path ≠ []) &&
  (bool_decide (path = lit "/") || negb (endswith path (lit "/"))).


(** ** The data model *)

Module Endpoint.
Record t : Type := Build { method : str; path : str }.

Global Instance eq_dec : EqDecision t.
Proof. solve_decision. Defined.

Global Instance countable : Countable t :=
  inj_countable' (λ e, (method e, path e)) (λ p, Build p.1 p.2)
                 (λ e, match e with Build _ _ => eq_refl end).
End Endpoint.

Module NestCall.
Record t : Type := Build { prefix : str; module : str }.
End NestCall.

Module ParsedRouterFile.
Record t : Type := Build { endpoints : gset Endpoint.t; nests : list NestCall.t }.
End ParsedRouterFile.

(** ** [_resolve_module_file] *)

Definition colon : char := 58%N.

Definition strip (s : str) : str :=
  reverse (lstrip_if is_space (reverse (lstrip_if is_space s))).

(** [s.split("::")], with [cur] the piece being read. *)
Fixpoint split_colons (s cur : str) : list str :=
  match s with
  | [] => [cur]
  | c :: s' =>
    match s' with
    | c' :: s'' =>
      if chr_eqb c colon && chr_eqb c' colon then cur :: split_colons s'' []
      else split_colons s' (cur ++ [c])
    | [] => [cur ++ [c]]
    end
  end.

(** [[part for part in module.split("::") if part]] *)
Definition module_parts (module : str) : list str :=
  filter (λ part, part ≠ []) (split_colons module []).

(** [while parts and parts[0] == "super"] *)
Fixpoint strip_super {Path} (parent : Path → Path) (parts : list str) (base_dir : Path)
  : list str * Path :=
  match parts with
  | part :: parts' =>
    if bool_decide (part = lit "super") then strip_super parent parts' (parent base_dir)
    else (parts, base_dir)
  | [] => (parts, base_dir)
  end.

(** [while parts and parts[0] in {"self"}] *)
Fixpoint strip_self (parts : list str) : list str :=
  match parts with
  | part :: parts' =>
    if bool_decide (part = lit "self") then strip_self parts' else parts
  | [] => parts
  end.

Section resolver.
(** [pathlib] is taken as given: [parent] is [p.parent], [joinpath p segs]
    is [p.joinpath] applied to the segments [segs], and [path_exists] is [p.exists()] on the disk as
    it is during the run. *)
Context {Path : Type} `{EqDecision Path}.
Variable parent : Path → Path.
Variable joinpath : Path → list str → Path.
Variable path_exists : Path → bool.

(** The local [add_candidates(root)], for non-empty [parts]. *)
Definition add_candidates (parts : list str) (root : Path) : list Path :=
  [ joinpath root (take (length parts - 1)%nat parts
                   ++ [default [] (last parts) ++ lit ".rs"]);
    joinpath root (parts ++ [lit "mod.rs"]) ].

(** The function from the [super] loop on, given [parts] and [base_dir]. *)
Definition resolve_parts (routes_root base_dir : Path) (parts : list str)
  : option Path :=
  let '(parts, base_dir) := strip_super parent parts base_dir in
  let parts := strip_self parts in
  if bool_decide (parts = []) then None
  else
    let candidates :=
      add_candidates parts base_dir ++
      (if bool_decide (base_dir ≠ routes_root)
       then add_candidates parts routes_root else []) in
    snd <$> list_find (λ candidate, path_exists candidate = true) candidates.

Definition _resolve_module_file (routes_root current_file : Path) (module : str)
  : option Path :=
  let module := strip module in
  if bool_decide (module = []) then None
  else
    let base_dir := parent current_file in
    let parts := module_parts module in
    if bool_decide (take 2 parts = [lit "crate"; lit "routes"]) then
      resolve_parts routes_root routes_root (drop 2 parts)
    else if bool_decide (head parts = Some (lit "crate")) then None
    else resolve_parts routes_root base_dir parts.
End resolver.

(** ** The router tree walker: [_extract_rust_endpoints] *)

Section walker.
Context {Path : Type} `{Countable Path}.
Variable parent : Path → Path.
Variable joinpath : Path → list str → Path.
Variable path_exists : Path → bool.
Variable routes_root : Path.

(** [_extract_endpoints_from_file(path)] and, for [mod.rs],
    [_extract_health_prefixes(mod_text)] read a file and match regular
    expressions on its text; what they return is taken as given. *)
Variable _extract_endpoints_from_file : Path → ParsedRouterFile.t.
Variable health_prefixes : list str.

(** [mod_rs = routes_root / "mod.rs"] *)
Definition mod_rs : Path := joinpath routes_root [lit "mod.rs"].

(** The two objects the closures [parse_file] and [walk] share. *)
Record walk_state : Type := WalkState {
  cache : gmap Path ParsedRouterFile.t;
  stack : list Path
}.

(** [parse_file(path)].  The object put in the cache is the one the
    health-check delegations are then appended to, so the cache holds the
    extended list. *)
Definition parse_file (path : Path) (st : walk_state)
  : ParsedRouterFile.t * walk_state :=
  match cache st !! path with
  | Some parsed => (parsed, st)
  | None =>
    let parsed := _extract_endpoints_from_file path in
    let parsed :=
      if bool_decide (path = mod_rs) then
        ParsedRouterFile.Build
          (ParsedRouterFile.endpoints parsed)
          (ParsedRouterFile.nests parsed ++
           ((λ prefix, NestCall.Build prefix (lit "health")) <$> health_prefixes))
      else parsed in
    (parsed, WalkState (<[path := parsed]> (cache st)) (stack st))
  end.

(** [stack.pop()]: raises on an empty list. *)
Definition stack_pop (st : walk_state) : outcome walk_state :=
  match stack st with
  | [] => Raises
  | _ => Returns (WalkState (cache st) (take (length (stack st) - 1)%nat (stack st)))
  end.

(** [for nest in parsed.nests], with [rec] the recursive call.  The local
    [endpoints] and the shared state are threaded through. *)
Fixpoint walk_nests
    (rec : Path → str → walk_state → outcome (gset Endpoint.t * walk_state))
    (path : Path) (prefix : str) (nests : list NestCall.t)
    (endpoints : gset Endpoint.t) (st : walk_state)
  : outcome (gset Endpoint.t * walk_state) :=
  match nests with
  | [] => Returns (endpoints, st)
  | nest :: nests' =>
    let child_prefix := _join_paths prefix (NestCall.prefix nest) in
    match _resolve_module_file parent joinpath path_exists
            routes_root path (NestCall.module nest) with
    | None => walk_nests rec path prefix nests' endpoints st
    | Some nested_file =>
      obind (rec nested_file child_prefix st) (λ '(found, st),
        walk_nests rec path prefix nests' (endpoints ∪ found) st)
    end
  end.

(** [walk(path, prefix)] *)
Fixpoint walk (fuel : nat) (path : Path) (prefix : str) (st : walk_state)
  : outcome (gset Endpoint.t * walk_state) :=
  match fuel with
  | O => OutOfFuel
  | S fuel' =>
    if bool_decide (path ∈ stack st) then Returns (∅, st)
    else
      let st := WalkState (cache st) (stack st ++ [path]) in
      let '(parsed, st) := parse_file path st in
      let endpoints : gset Endpoint.t :=
        set_map (λ ep, Endpoint.Build (Endpoint.method ep)
                         (_join_paths prefix (Endpoint.path ep)))
                (ParsedRouterFile.endpoints parsed) in
      obind (walk_nests (walk fuel') path prefix
               (ParsedRouterFile.nests parsed) endpoints st)
        (λ '(endpoints, st),
          obind (stack_pop st) (λ st, Returns (endpoints, st)))
  end.

(** [_extract_rust_endpoints]: [walk(mod_rs, "")] with a fresh cache and
    stack. *)
Definition _extract_rust_endpoints (fuel : nat) : outcome (gset Endpoint.t) :=
  obind (walk fuel mod_rs (lit "") (WalkState ∅ []))
        (λ '(endpoints, _), Returns endpoints).

(** What [parse_file] returns for [path] on a cache miss. *)
Definition parsed_of (path : Path) : ParsedRouterFile.t :=
  fst (parse_file path (WalkState ∅ [])).

(** The outcome of a walk without the cache. *)
Definition forget (o : outcome (gset Endpoint.t * walk_state))
  : outcome (gset Endpoint.t * list Path) :=
  obind o (λ '(endpoints, st), Returns (endpoints, stack st)).

(** Every cache entry is what a cache miss would compute. *)
Definition cache_ok (c : gmap Path ParsedRouterFile.t) : Prop :=
  ∀ path parsed, c !! path = Some parsed → parsed = parsed_of path.
End walker.

(** *** The walk without the cache

    The same walk over a function [parse] from files to parse results, with
    the stack as its only state. *)

Section walker_uncached.
Context {Path : Type} `{EqDecision Path}.
Variable parent : Path → Path.
Variable joinpath : Path → list str → Path.
Variable path_exists : Path → bool.
Variable routes_root : Path.
Variable parse : Path → ParsedRouterFile.t.

Definition list_pop (stack : list Path) : outcome (list Path) :=
  match stack with
  | [] => Raises
  | _ => Returns (take (length stack - 1)%nat stack)
  end.

Fixpoint walk_nests_uncached
    (rec : Path → str → list Path → outcome (gset Endpoint.t * list Path))
    (path : Path) (prefix : str) (nests : list NestCall.t)
    (endpoints : gset Endpoint.t) (stack : list Path)
  : outcome (gset Endpoint.t * list Path) :=
  match nests with
  | [] => Returns (endpoints, stack)
  | nest :: nests' =>
    let child_prefix := _join_paths prefix (NestCall.prefix nest) in
    match _resolve_module_file parent joinpath path_exists
            routes_root path (NestCall.module nest) with
    | None => walk_nests_uncached rec path prefix nests' endpoints stack
    | Some nested_file =>
      obind (rec nested_file child_prefix stack) (λ '(found, stack),
        walk_nests_uncached rec path prefix nests' (endpoints ∪ found) stack)
    end
  end.

Fixpoint walk_uncached (fuel : nat) (path : Path) (prefix : str) (stack : list Path)
  : outcome (gset Endpoint.t * list Path) :=
  match fuel with
  | O => OutOfFuel
  | S fuel' =>
    if bool_decide (path ∈ stack) then Returns (∅, stack)
    else
      let stack := stack ++ [path] in
      let parsed := parse path in
      let endpoints : gset Endpoint.t :=
        set_map (λ ep, Endpoint.Build (Endpoint.method ep)
                         (_join_paths prefix (Endpoint.path ep)))
                (ParsedRouterFile.endpoints parsed) in
      obind (walk_nests_uncached (walk_uncached fuel') path prefix
               (ParsedRouterFile.nests parsed) endpoints stack)
        (λ '(endpoints, stack),
          obind (list_pop stack) (λ stack, Returns (endpoints, stack)))
  end.

(** An endpoint reached from [path] along delegation edges that resolve to a
    file, never entering a file that is already being visited. *)
Inductive reaches : Path → str → list Path → Endpoint.t → Prop :=
  | reaches_here path prefix stack ep :
      path ∉ stack →
      ep ∈ ParsedRouterFile.endpoints (parse path) →
      reaches path prefix stack
        (Endpoint.Build (Endpoint.method ep) (_join_paths prefix (Endpoint.path ep)))
  | reaches_nest path prefix stack nest nested_file ep :
      path ∉ stack →
      nest ∈ ParsedRouterFile.nests (parse path) →
      _resolve_module_file parent joinpath path_exists
        routes_root path (NestCall.module nest) = Some nested_file →
      reaches nested_file (_join_paths prefix (NestCall.prefix nest))
              (stack ++ [path]) ep →
      reaches path prefix stack ep.
End walker_uncached.

(** ** Coverage arithmetic: [_percent] and its use in [main] *)

(** Python floats are IEEE 754 binary64. *)
Definition float_of_int (n : Z) : spec_float := binary_normalize 53 1024 n 0 false.
Definition float_div : spec_float → spec_float → spec_float := SFdiv 53 1024.
Definition float_mul : spec_float → spec_float → spec_float := SFmul 53 1024.

(** The literal [100.0]. *)
Definition f100 : spec_float := S754_finite false 7036874417766400 (-46).

(** [numerator / denominator] on integers is the correctly rounded quotient;
    both are lengths of sets, far below [2^53], where each converts to a float
    exactly. *)
Definition _percent (numerator denominator : Z) : spec_float :=
  if denominator =? 0 then f100
  else float_mul (float_div (float_of_int numerator) (float_of_int denominator)) f100.

(** [coverage = _percent(len(contract & rust), len(contract))] *)
Definition coverage (contract rust : gset Endpoint.t) : spec_float :=
  _percent (Z.of_nat (size (contract ∩ rust))) (Z.of_nat (size contract)).

(** ** The texts of the worked examples *)

Definition quoted (s : str) : str := dquote :: s ++ [dquote].

(** The call [.route(<quote>/a,b)<quote>, handler(x, y))]. *)
Definition route_call_text : str :=
  lit ".route(" ++ quoted (lit "/a,b)") ++ lit ", handler(x, y))".

(** The floats [50.0] and the contract and router sets of the coverage
    example. *)
Definition f50 : spec_float := S754_finite false 7036874417766400 (-47).

Definition contract_example : gset Endpoint.t :=
  {[ Endpoint.Build (lit "GET") (lit "/a");
     Endpoint.Build (lit "POST") (lit "/b") ]}.

Definition router_example : gset Endpoint.t :=
  {[ Endpoint.Build (lit "GET") (lit "/a");
     Endpoint.Build (lit "GET") (lit "/c") ]}.

(** ** A concrete [pathlib]: absolute paths as lists of plain components *)

Module PurePath.
Definition t : Type := list str.
Definition parent (p : t) : t := take (length p - 1)%nat p.
Definition joinpath (p : t) (segments : list str) : t := p ++ segments.
End PurePath.

(** ** A small router tree with a cycle and a dangling delegation

    [mod.rs] delegates to [a] and to a module [ghost] that has no file, and
    registers the health-check prefix [/health]; [a.rs] delegates to [b];
    [b.rs] delegates back to [a]. *)

Module Demo.
Definition routes_root : PurePath.t := [lit "routes"].
Definition mod_rs : PurePath.t := [lit "routes"; lit "mod.rs"].
Definition a_rs : PurePath.t := [lit "routes"; lit "a.rs"].
Definition b_rs : PurePath.t := [lit "routes"; lit "b.rs"].
Definition health_rs : PurePath.t := [lit "routes"; lit "health.rs"].
Definition files : list PurePath.t := [mod_rs; a_rs; b_rs; health_rs].

Definition path_exists (p : PurePath.t) : bool := bool_decide (p ∈ files).

Definition ep (m p : string) : Endpoint.t := Endpoint.Build (lit m) (lit p).
Definition nest (p m : string) : NestCall.t := NestCall.Build (lit p) (lit m).

Definition extract (p : PurePath.t) : ParsedRouterFile.t :=
  if bool_decide (p = mod_rs) then
    ParsedRouterFile.Build {[ ep "GET" "/about" ]}
      [nest "/a" "a"; nest "/ghost" "ghost"]
  else if bool_decide (p = a_rs) then
    ParsedRouterFile.Build {[ ep "GET" "/x" ]} [nest "/b" "b"]
  else if bool_decide (p = b_rs) then
    ParsedRouterFile.Build {[ ep "POST" "/y" ]} [nest "/a" "crate::routes::a"]
  else if bool_decide (p = health_rs) then
    ParsedRouterFile.Build {[ ep "GET" "/" ]} []
  else ParsedRouterFile.Build ∅ [].

(** The same tree with the dangling delegation of [mod.rs] removed. *)
Definition extract_pruned (p : PurePath.t) : ParsedRouterFile.t :=
  if bool_decide (p = mod_rs) then
    ParsedRouterFile.Build {[ ep "GET" "/about" ]} [nest "/a" "a"]
  else extract p.

Definition health_prefixes : list str := [lit "/health"].

Definition resolve : PurePath.t → str → option PurePath.t :=
  _resolve_module_file PurePath.parent PurePath.joinpath path_exists routes_root.

Definition parsed_of (extract : PurePath.t → ParsedRouterFile.t) :=
  parsed_of PurePath.joinpath routes_root extract health_prefixes.

Definition walk (extract : PurePath.t → ParsedRouterFile.t) :=
  walk PurePath.parent PurePath.joinpath path_exists routes_root
       extract health_prefixes.

Definition fresh : walk_state (Path := PurePath.t) := WalkState ∅ [].
End Demo.

(** ** A routes tree with a subdirectory

    [a.rs] exists both under the routes root and in [sub], the directory of
    the current file [sub/c.rs]. *)

Module Nested.
Definition sub_a_rs : PurePath.t := [lit "routes"; lit "sub"; lit "a.rs"].
Definition sub_c_rs : PurePath.t := [lit "routes"; lit "sub"; lit "c.rs"].
Definition files : list PurePath.t := [Demo.a_rs; sub_a_rs; sub_c_rs].

Definition path_exists (p : PurePath.t) : bool := bool_decide (p ∈ files).

Definition resolve : PurePath.t → str → option PurePath.t :=
  _resolve_module_file PurePath.parent PurePath.joinpath path_exists
    Demo.routes_root.
End Nested.

(** ** The rest of the script *)

(** *** What [_unescape_rust_string] decodes

    A Rust string literal writes a backslash as two backslashes and a quote
    as backslash-quote. *)
Fixpoint rust_escape (s : str) : str :=
  match s with
  | [] => []
  | c :: s' =>
    if chr_eqb c bslash || chr_eqb c dquote then bslash :: c :: rust_escape s'
    else c :: rust_escape s'
  end.

(** *** Well-nested argument text

    [nested w st] reads [w] from the lexical context [st] and fails at a
    closing parenthesis that closes nothing.  Text is well nested when it
    reads without failure and ends outside any literal with every parenthesis
    closed. *)
Fixpoint nested (w : str) (st : lex) : option lex :=
  match w with
  | [] => Some st
  | ch :: w' =>
    if negb (lex_in_str st) && chr_eqb ch rparen && (lex_depth st =? 0) then None
    else nested w' (lex_step st ch)
  end.

Definition well_nested (w : str) : bool :=
  match nested w lex_init with
  | Some st => top_level st
  | None => false
  end.

(** *** [_format_ep] and [_iter_sorted] *)

Definition space : char := 32%N.

Definition _format_ep (ep : Endpoint.t) : str :=
  Endpoint.method ep ++ [space] ++ Endpoint.path ep.

(** Python's [<=] on [str]: lexicographic on code points. *)
Fixpoint str_leb (a b : str) : bool :=
  match a, b with
  | [], _ => true
  | _ :: _, [] => false
  | c :: a', d :: b' =>
    if (c <? d)%N then true
    else if chr_eqb c d then str_leb a' b'
    else false
  end.

(** The order of the sort keys [(e.path, e.method)]: tuples compare by their
    first components, and by the second when the first are equal. *)
Definition key_le (e1 e2 : Endpoint.t) : Prop :=
  (if bool_decide (Endpoint.path e1 = Endpoint.path e2)
   then str_leb (Endpoint.method e1) (Endpoint.method e2)
   else str_leb (Endpoint.path e1) (Endpoint.path e2)) = true.

Global Instance key_le_dec e1 e2 : Decision (key_le e1 e2).
Proof. unfold key_le. apply _. Defined.

(** [sorted(eps, key=...)] on the elements of a set.  No two endpoints of a
    set have the same key, so the ascending list is unique and any sorting
    algorithm returns it. *)
Definition _iter_sorted (eps : gset Endpoint.t) : list Endpoint.t :=
  merge_sort key_le (elements eps).

(** *** [main]

    The command line ([--fail-under], [--show-missing]) and the two endpoint
    sets are taken as given; the report is kept as the values printed, not as
    formatted text. *)
Record report : Type := Report {
  report_contract : nat;
  report_rust : nat;
  report_covered : nat;
  report_missing : nat;
  report_coverage : spec_float;
  report_missing_lines : list str;
  report_exit : Z
}.

Definition main (fail_under : option spec_float) (show_missing : bool)
    (contract rust : gset Endpoint.t) : report :=
  let covered := contract ∩ rust in
  let missing := contract ∖ rust in
  let coverage := _percent (Z.of_nat (size covered)) (Z.of_nat (size contract)) in
  {| report_contract := size contract;
     report_rust := size rust;
     report_covered := size covered;
     report_missing := size missing;
     report_coverage := coverage;
     report_missing_lines :=
       if show_missing && negb (bool_decide (missing = ∅))
       then _format_ep <$> _iter_sorted missing else [];
     report_exit :=
       match fail_under with
       | Some threshold => if SFltb coverage threshold then 1 else 0
       | None => 0
       end |}.

(** The floats [0.0] and [1.0]. *)
Definition f0 : spec_float := S754_zero false.
Definition f1 : spec_float := S754_finite false 4503599627370496 (-52).

(** ** Regular expressions

    The part of Python's [re] the script uses: a backtracking matcher that
    tries alternatives from left to right and repetitions greedily, with one
    capturing group.  [rmatch r text i cap k] matches [r] at position [i] of
    [text] and hands the end position and the group to the continuation [k];
    a failing continuation makes the matcher backtrack. *)

Inductive regex : Type :=
  | Chr (f : char → bool)        (* one character of a class *)
  | Eps                           (* the empty pattern *)
  | Seq (r1 r2 : regex)           (* r1 r2 *)
  | Alt (r1 r2 : regex)           (* r1|r2 *)
  | Star (r : regex)              (* r*, greedy *)
  | Group (r : regex)             (* (r), group 1 *)
  | NotBehind (f : char → bool). (* (?<![...]) *)

(** The span of group 1, when it took part in the match. *)
Abbreviation capture := (option (nat * nat)).

(** The loop of a greedy repetition: one more round of [body] that moves
    forward, then the loop again; when that fails, the rest of the pattern. *)
Fixpoint star_loop
    (body : nat → capture → (nat → capture → option (nat * capture)) → option (nat * capture))
    (k : nat → capture → option (nat * capture))
    (fuel i : nat) (cap : capture) {struct fuel} : option (nat * capture) :=
  match fuel with
  | O => k i cap
  | S fuel' =>
    match body i cap (λ j c, if (i <? j)%nat then star_loop body k fuel' j c else None) with
    | Some res => Some res
    | None => k i cap
    end
  end.

Fixpoint rmatch (r : regex) (text : str) (i : nat) (cap : capture)
    (k : nat → capture → option (nat * capture)) {struct r}
  : option (nat * capture) :=
  match r with
  | Chr f =>
    match text !! i with
    | Some c => if f c then k (S i) cap else None
    | None => None
    end
  | Eps => k i cap
  | Seq r1 r2 => rmatch r1 text i cap (λ j c, rmatch r2 text j c k)
  | Alt r1 r2 =>
    match rmatch r1 text i cap k with
    | Some res => Some res
    | None => rmatch r2 text i cap k
    end
  | Star r1 => star_loop (rmatch r1 text) k (S (length text - i)) i cap
  | Group r1 => rmatch r1 text i cap (λ j _, k j (Some (i, j)))
  | NotBehind f =>
    match i with
    | O => k i cap
    | S i' =>
      match text !! i' with
      | Some c => if f c then None else k i cap
      | None => k i cap
      end
    end
  end.

(** What a match is, apart from the order in which the matcher looks for
    one: [matches text r i cap j cap'] when [r] matches [text] from [i] to
    [j], turning the group [cap] into [cap']. *)
Inductive matches (text : str) : regex → nat → capture → nat → capture → Prop :=
  | matches_chr f i cap c :
      text !! i = Some c → f c = true → matches text (Chr f) i cap (S i) cap
  | matches_eps i cap : matches text Eps i cap i cap
  | matches_seq r1 r2 i cap j cap' l cap'' :
      matches text r1 i cap j cap' → matches text r2 j cap' l cap'' →
      matches text (Seq r1 r2) i cap l cap''
  | matches_alt_l r1 r2 i cap j cap' :
      matches text r1 i cap j cap' → matches text (Alt r1 r2) i cap j cap'
  | matches_alt_r r1 r2 i cap j cap' :
      matches text r2 i cap j cap' → matches text (Alt r1 r2) i cap j cap'
  | matches_star_nil r i cap : matches text (Star r) i cap i cap
  | matches_star_cons r i cap j cap' l cap'' :
      matches text r i cap j cap' → matches text (Star r) j cap' l cap'' →
      matches text (Star r) i cap l cap''
  | matches_group r i cap j cap' :
      matches text r i cap j cap' → matches text (Group r) i cap j (Some (i, j))
  | matches_not_behind f i cap :
      (∀ c, text !! (i - 1)%nat = Some c → (0 < i)%nat → f c = false) →
      matches text (NotBehind f) i cap i cap.

(** A match of [r] that starts at [i]: its end and its group. *)
Definition match_at (r : regex) (text : str) (i : nat) : option (nat * capture) :=
  rmatch r text i None (λ j c, Some (j, c)).

(** [pattern.search(text, pos)]: the match at the first position from [i]
    on where there is one, as (start, end, group). *)
Fixpoint search_from (r : regex) (text : str) (i fuel : nat)
  : option (nat * nat * capture) :=
  match fuel with
  | O => None
  | S fuel' =>
    match match_at r text i with
    | Some (j, c) => Some (i, j, c)
    | None => search_from r text (S i) fuel'
    end
  end.

Definition re_search (r : regex) (text : str) : option (nat * nat * capture) :=
  search_from r text 0 (S (length text)).

(** [re.finditer]: the matches from left to right, each search starting
    where the last match ended (one further after an empty match). *)
Fixpoint finditer_from (r : regex) (text : str) (pos fuel : nat)
  : list (nat * nat * capture) :=
  match fuel with
  | O => []
  | S fuel' =>
    match search_from r text pos (S (length text) - pos) with
    | None => []
    | Some (s, e, c) =>
      (s, e, c) :: finditer_from r text (if (s <? e)%nat then e else S e) fuel'
    end
  end.

Definition re_finditer (r : regex) (text : str) : list (nat * nat * capture) :=
  finditer_from r text 0 (S (length text)).

(** [m.group(1)] *)
Definition group1 (text : str) (m : nat * nat * capture) : str :=
  match m.2 with
  | Some (a, b) => slice text a b
  | None => []
  end.

(** A literal string as a pattern. *)
Fixpoint lit_re (w : str) : regex :=
  match w with
  | [] => Eps
  | c :: w' => Seq (Chr (chr_eqb c)) (lit_re w')
  end.

(** [r1|r2|...|rn] *)
Fixpoint alts (rs : list regex) : regex :=
  match rs with
  | [] => Chr (λ _, false)
  | [r] => r
  | r :: rs' => Alt r (alts rs')
  end.

(** The character classes of the patterns. *)
Definition in_range (lo hi : N) (c : char) : bool :=
  ((lo <=? c) && (c <=? hi))%N.

(** [[A-Za-z_]] *)
Definition ident_start (c : char) : bool :=
  in_range 65 90 c || in_range 97 122 c || chr_eqb c 95%N.

(** [[A-Za-z0-9_]] *)
Definition ident_char (c : char) : bool :=
  ident_start c || in_range 48 57 c.

(** Spaces and an opening parenthesis. *)
Definition spaces_paren : regex := Seq (Star (Chr is_space)) (Chr (chr_eqb lparen)).

(** ** [_extract_methods] *)

Definition METHOD_NAMES : gmap str str :=
  list_to_map
    [ (lit "get", lit "GET"); (lit "post", lit "POST"); (lit "put", lit "PUT");
      (lit "patch", lit "PATCH"); (lit "delete", lit "DELETE");
      (lit "head", lit "HEAD"); (lit "options", lit "OPTIONS") ].

Definition method_keywords : list str :=
  [ lit "get"; lit "post"; lit "put"; lit "patch"; lit "delete"; lit "head";
    lit "options" ].

(** Not after an identifier character: a group holding one of the seven
    keywords, then spaces and an opening parenthesis. *)
Definition methods_re : regex :=
  Seq (NotBehind ident_char)
      (Seq (Group (alts (lit_re <$> method_keywords))) spaces_paren).

(** The loop over the matches: a keyword that is not a key of
    [METHOD_NAMES] would raise [KeyError]. *)
Fixpoint add_methods (text : str) (ms : list (nat * nat * capture))
    (methods : gset str) : outcome (gset str) :=
  match ms with
  | [] => Returns methods
  | m :: ms' =>
    match METHOD_NAMES !! group1 text m with
    | Some name => add_methods text ms' (methods ∪ {[ name ]})
    | None => Raises
    end
  end.

Definition _extract_methods (router_expr : str) : outcome (gset str) :=
  add_methods router_expr (re_finditer methods_re router_expr) ∅.

(** ** [_extract_router_module] *)

(** [[A-Za-z_][A-Za-z0-9_]*] *)
Definition ident_re : regex := Seq (Chr ident_start) (Star (Chr ident_char)).

(** Not after an identifier character: a group holding an identifier and
    any number of further ones, each after two colons; then two colons, the
    word router, spaces and an opening parenthesis. *)
Definition router_re : regex :=
  Seq (NotBehind ident_char)
      (Seq (Group (Seq ident_re (Star (Seq (lit_re (lit "::")) ident_re))))
           (Seq (lit_re (lit "::router")) spaces_paren)).

Definition _extract_router_module (router_expr : str) : option str :=
  group1 router_expr <$> re_search router_re router_expr.

(** ** [_extract_health_prefixes] *)

(** The body of a string literal: any number of items, each a backslash
    with any character but a newline, or one character that is neither a
    double quote nor a backslash. *)
Definition literal_body_re : regex :=
  Star (Alt (Seq (Chr (chr_eqb bslash)) (Chr (λ c, negb (chr_eqb c newline))))
            (Chr (λ c, negb (chr_eqb c dquote) && negb (chr_eqb c bslash)))).

(** The call of push on health_paths with a string literal, whose body is
    the group, converted by to_string; spaces are allowed after the opening
    parenthesis, after the literal and before the closing parenthesis. *)
Definition health_re : regex :=
  Seq (lit_re (lit "health_paths.push("))
  (Seq (Star (Chr is_space))
  (Seq (Chr (chr_eqb dquote))
  (Seq (Group literal_body_re)
  (Seq (Chr (chr_eqb dquote))
  (Seq (Star (Chr is_space))
  (Seq (lit_re (lit ".to_string()"))
  (Seq (Star (Chr is_space)) (Chr (chr_eqb rparen))))))))).

Definition _extract_health_prefixes (mod_text : str) : list str :=
  (λ m, _unescape_rust_string (group1 mod_text m)) <$> re_finditer health_re mod_text.

(** ** [_extract_endpoints_from_file] *)

(** The loop over the [.route(] calls. *)
Fixpoint add_routes (calls : list (str * str)) (endpoints : gset Endpoint.t)
  : outcome (gset Endpoint.t) :=
  match calls with
  | [] => Returns endpoints
  | (route_path, expr) :: calls' =>
    match _extract_string_literal route_path with
    | None => add_routes calls' endpoints
    | Some path_literal =>
      obind (_extract_methods expr) (λ methods,
        add_routes calls'
          (endpoints ∪ set_map (λ method, Endpoint.Build method path_literal) methods))
    end
  end.

(** The loop over the [.nest(] calls. *)
Fixpoint add_nests (calls : list (str * str)) (nests : list NestCall.t)
  : list NestCall.t :=
  match calls with
  | [] => nests
  | (nest_prefix, expr) :: calls' =>
    match _extract_string_literal nest_prefix with
    | None => add_nests calls' nests
    | Some prefix_literal =>
      match _extract_router_module expr with
      | None => add_nests calls' nests
      | Some module => add_nests calls' (nests ++ [NestCall.Build prefix_literal module])
      end
    end
  end.

(** [read_text path] is [path.read_text(encoding="utf-8")], [None] when it
    raises (no such file, or bytes that are not UTF-8). *)
Definition _extract_endpoints_from_file {Path : Type} (read_text : Path → option str)
    (path : Path) : outcome ParsedRouterFile.t :=
  match read_text path with
  | None => Raises
  | Some text =>
    obind (_extract_two_arg_calls text (lit ".route(")) (λ routes,
    obind (add_routes routes ∅) (λ endpoints,
    obind (_extract_two_arg_calls text (lit ".nest(")) (λ nest_calls,
    Returns (ParsedRouterFile.Build endpoints (add_nests nest_calls [])))))
  end.

(** A router file and its expected parse. *)
Definition router_text : str :=
  lit "Router::new().route(" ++ quoted (lit "/users") ++
  lit ", get(list).post (create)).nest(" ++ quoted (lit "/api") ++
  lit ", v1::api::router()).route(PATH, forget(x))".

(** ** Notions used to state what the patterns find *)

(** [kw] is called in [expr]: it stands there as a word of its own (not
    glued to an identifier character before it), followed by spaces and an
    opening parenthesis. *)
Definition call_of (kw expr : str) : Prop :=
  ∃ pre ws rest,
    expr = pre ++ kw ++ ws ++ lparen :: rest ∧
    Forall (λ c, is_space c = true) ws ∧
    ∀ c, last pre = Some c → ident_char c = false.

(** The same at a given position. *)
Definition call_at (kw expr : str) (i : nat) : Prop :=
  (∀ c, expr !! (i - 1)%nat = Some c → (0 < i)%nat → ident_char c = false) ∧
  ∃ ws rest,
    drop i expr = kw ++ ws ++ lparen :: rest ∧ Forall (λ c, is_space c = true) ws.

(** An identifier: a letter or underscore, then letters, digits and
    underscores. *)
Definition is_ident (s : str) : Prop :=
  ∃ c s', s = c :: s' ∧ ident_start c = true ∧ Forall (λ d, ident_char d = true) s'.

(** The segments joined by two colons. *)
Fixpoint join_colons (segs : list str) : str :=
  match segs with
  | [] => []
  | seg :: segs' =>
    match segs' with
    | [] => seg
    | _ :: _ => seg ++ lit "::" ++ join_colons segs'
    end
  end.

(** The pattern of [_extract_string_literal]: spaces, a quote, the body of
    the literal as the group, a quote. *)
Definition string_literal_re : regex :=
  Seq (Star (Chr is_space))
  (Seq (Chr (chr_eqb dquote))
  (Seq (Group literal_body_re) (Chr (chr_eqb dquote)))).

(** [_extract_string_literal] with [re.match] run by the matcher. *)
Definition extract_string_literal_re (expr : str) : option str :=
  (λ m, _unescape_rust_string (group1 expr (0%nat, m.1, m.2))) <$>
    match_at string_literal_re expr 0.

(** The texts the body of a literal can be: escaped characters (none of
    them a newline) and characters other than quote and backslash. *)
Inductive body : str → Prop :=
  | body_nil : body []
  | body_esc d b : d ≠ newline → body b → body (bslash :: d :: b)
  | body_chr c b : c ≠ dquote → c ≠ bslash → body b → body (c :: b).

(** [text] holds a statement that pushes the literal of body [b] on
    [health_paths]. *)
Definition health_push_of (b text : str) : Prop :=
  ∃ pre ws1 ws2 ws3 rest,
    text = pre ++ lit "health_paths.push(" ++ ws1 ++ quoted b ++ ws2 ++
           lit ".to_string()" ++ ws3 ++ rparen :: rest ∧
    Forall (λ c, is_space c = true) ws1 ∧
    Forall (λ c, is_space c = true) ws2 ∧
    Forall (λ c, is_space c = true) ws3.

(** What one [.nest(] call adds to the list of nests. *)
Definition nest_of (call : str * str) : option NestCall.t :=
  match _extract_string_literal call.1 with
  | None => None
  | Some prefix_literal =>
    match _extract_router_module call.2 with
    | None => None
    | Some module => Some (NestCall.Build prefix_literal module)
    end
  end.

(** A statement that registers a health prefix. *)
Definition health_text : str :=
  lit "health_paths.push( " ++ quoted (lit "/health") ++ lit " .to_string() );".

(** * Properties *)

(** ** Properties of the splitter *)

Section split_facts.

(** [code] gives the code point: the number the bits of the character
    spell. *)
Lemma code_spec (a : ascii) : code a = N_of_ascii a.
Proof. by destruct a as [[] [] [] [] [] [] [] []]. Qed.

Lemma chr_eqb_true a b : chr_eqb a b = true ↔ a = b.
Proof. unfold chr_eqb. apply bool_decide_eq_true. Qed.

Lemma chr_eqb_false a b : chr_eqb a b = false ↔ a ≠ b.
Proof. unfold chr_eqb. apply bool_decide_eq_false. Qed.

Lemma lex_after_snoc s ch : lex_after (s ++ [ch]) = lex_step (lex_after s) ch.
Proof. unfold lex_after. by rewrite foldl_app. Qed.

(** One iteration of the loop: either it returns at a top-level comma, or it
    moves to the lexical context after [ch]. *)
Lemma scan_cons args ch rest i d s e :
  Split.scan args (ch :: rest) i d s e =
  if chr_eqb ch comma && top_level (Lex d s e) then
    Some (take i args, drop (S i) args)
  else
    let st := lex_step (Lex d s e) ch in
    Split.scan args rest (S i) (lex_depth st) (lex_in_str st) (lex_esc st).
Proof.
  unfold top_level. simpl.
  destruct (chr_eqb ch comma) eqn:Hc.
  - apply chr_eqb_true in Hc. subst ch.
    destruct s, e; simpl; try reflexivity.
    all: by destruct (d =? 0).
  - destruct s, e; simpl; try reflexivity.
    all: repeat (case_match; simpl; try reflexivity).
Qed.

(** The loop invariant: the loop variables are the lexical context of the
    text already read, and no top-level comma was passed. *)
Lemma scan_spec (pre rest : str) :
  let args := pre ++ rest in
  let st := lex_after pre in
  (∀ j, (j < length pre)%nat → ¬ top_level_comma_at args j) →
  match Split.scan args rest (length pre) (lex_depth st) (lex_in_str st) (lex_esc st) with
  | Some (l, r) =>
    ∃ i, top_level_comma_at args i ∧
         (∀ j, (j < i)%nat → ¬ top_level_comma_at args j) ∧
         l = take i args ∧ r = drop (S i) args
  | None => ∀ i, ¬ top_level_comma_at args i
  end.
Proof.
  revert pre. induction rest as [|ch rest IH]; intros pre args st Hpre.
  - simpl. intros i Hc.
    destruct (decide (i < length pre)%nat) as [Hlt|Hge]; [by apply (Hpre i)|].
    destruct Hc as [Hi _]. subst args. rewrite app_nil_r in Hi.
    rewrite lookup_ge_None_2 in Hi; [done|lia].
  - rewrite scan_cons.
    assert (Hat : args !! length pre = Some ch).
    { subst args. by rewrite list_lookup_middle. }
    assert (Htk : take (length pre) args = pre).
    { subst args. by rewrite take_app_length. }
    replace (Lex (lex_depth st) (lex_in_str st) (lex_esc st)) with st
      by (by destruct st).
    destruct (chr_eqb ch comma && top_level st) eqn:Hret.
    + apply andb_true_iff in Hret as [Hc Htop]. apply chr_eqb_true in Hc.
      exists (length pre). split_and!; try done.
      split; [by rewrite Hat, Hc|]. by rewrite Htk.
    + specialize (IH (pre ++ [ch])).
      rewrite length_app, Nat.add_1_r, lex_after_snoc in IH. simpl in IH.
      replace ((pre ++ [ch]) ++ rest) with args in IH
        by (subst args; by rewrite <- app_assoc).
      apply IH. intros j Hj [Hj1 Hj2].
      destruct (decide (j = length pre)) as [->|Hne].
      * rewrite Hat in Hj1. rewrite Htk in Hj2. fold st in Hj2.
        injection Hj1 as ->. rewrite Hj2 in Hret.
        unfold chr_eqb in Hret. by rewrite bool_decide_eq_true_2 in Hret.
      * apply (Hpre j); [lia|done].
Qed.

End split_facts.

Lemma split_top_level_comma_cases (args : str) :
  match _split_top_level_comma args with
  | Some (l, r) =>
    ∃ i, top_level_comma_at args i ∧
         (∀ j, (j < i)%nat → ¬ top_level_comma_at args j) ∧
         l = take i args ∧ r = drop (S i) args
  | None => ∀ i, ¬ top_level_comma_at args i
  end.
Proof.
  apply (scan_spec [] args). simpl. intros j Hj. lia.
Qed.

Lemma top_level_comma_at_app_l (l r : str) j :
  (j < length l)%nat → top_level_comma_at (l ++ r) j ↔ top_level_comma_at l j.
Proof.
  intros Hj. unfold top_level_comma_at.
  by rewrite lookup_app_l, take_app_le by lia.
Qed.

(** Conversely, text with no top-level comma that ends at top level, followed
    by a comma, is split off whole. *)
Lemma split_top_level_comma_join (l r : str) :
  top_level (lex_after l) = true → (∀ j, ¬ top_level_comma_at l j) →
  _split_top_level_comma (l ++ comma :: r) = Some (l, r).
Proof.
  intros Htop Hnone.
  assert (Hat : top_level_comma_at (l ++ comma :: r) (length l)).
  { split; [by rewrite list_lookup_middle|by rewrite take_app_length]. }
  pose proof (split_top_level_comma_cases (l ++ comma :: r)) as Hs.
  destruct (_split_top_level_comma _) as [[l' r']|]; [|by destruct (Hs _ Hat)].
  destruct Hs as (i & Hi & Hfirst & -> & ->).
  assert (i = length l) as ->.
  { destruct (Nat.lt_trichotomy i (length l)) as [Hlt|[?|Hgt]]; [|done|].
    - by apply top_level_comma_at_app_l, Hnone in Hi.
    - by destruct (Hfirst _ Hgt). }
  rewrite take_app_length. f_equal. f_equal.
  replace (l ++ comma :: r) with ((l ++ [comma]) ++ r)
    by (by rewrite <- app_assoc).
  rewrite drop_app_length'; [done|]. rewrite length_app. simpl. lia.
Qed.

(** C1. [_split_top_level_comma] returns the text before and the text after
    the first comma at depth zero outside any string literal, and nothing when
    there is no such comma.  Scanning [.route("/a,b)", handler(x, y))] yields
    the quoted path ["/a,b)"], whose literal is [/a,b)], and the handler
    expression. *)
Theorem split_top_level_comma_first :
  (∀ args : str,
    match _split_top_level_comma args with
    | Some (before, after) =>
      ∃ i, top_level_comma_at args i ∧
           (∀ j, (j < i)%nat → ¬ top_level_comma_at args j) ∧
           before = take i args ∧ after = drop (S i) args
    | None => ∀ i, ¬ top_level_comma_at args i
    end) ∧
  _split_top_level_comma (quoted (lit "/a,b)") ++ lit ", handler(x, y)")
    = Some (quoted (lit "/a,b)"), lit " handler(x, y)") ∧
  _extract_two_arg_calls route_call_text (lit ".route(")
    = Returns [(quoted (lit "/a,b)"), lit " handler(x, y)")] ∧
  _extract_string_literal (quoted (lit "/a,b)")) = Some (lit "/a,b)").
Proof.
  split; [exact split_top_level_comma_cases|].
  split_and!; vm_compute; reflexivity.
Qed.

(** C9. When [_split_top_level_comma] returns [(left, right)], then
    [left + "," + right] is [args], the comma between them stands at depth
    zero outside a string literal, and [left] has no such comma: the split is
    at the first qualifying comma. *)
Theorem split_top_level_comma_rebuilds (args before after : str) :
  _split_top_level_comma args = Some (before, after) →
  before ++ comma :: after = args ∧
  top_level (lex_after before) = true ∧
  ∀ j, ¬ top_level_comma_at before j.
Proof.
  intros Hs. pose proof (split_top_level_comma_cases args) as H.
  rewrite Hs in H. destruct H as (i & [Hi Htop] & Hfirst & -> & ->).
  split; [by apply take_drop_middle|]. split; [exact Htop|].
  intros j [Hj1 Hj2].
  assert (Hlt : (j < i)%nat).
  { apply lookup_lt_Some in Hj1. rewrite length_take in Hj1. lia. }
  apply (Hfirst j Hlt). split.
  - by rewrite lookup_take_lt in Hj1.
  - rewrite take_take in Hj2. by replace (j `min` i)%nat with j in Hj2 by lia.
Qed.

Lemma split_top_level_comma_rebuilds_witness :
  lit "a(b,c)" ++ comma :: lit "d" = lit "a(b,c),d" ∧
  top_level (lex_after (lit "a(b,c)")) = true ∧
  ∀ j, ¬ top_level_comma_at (lit "a(b,c)") j.
Proof.
  apply (split_top_level_comma_rebuilds (lit "a(b,c),d")). reflexivity.
Defined.

(** ** Properties of the path composer *)

Section join_facts.

Implicit Types s t p l : str.

(** [hs]: has a leading slash; [ts]: has a trailing slash. *)
Local Abbreviation hs s := (startswith s (lit "/")).
Local Abbreviation ts s := (endswith s (lit "/")).

Lemma hs_nil : hs [] = false.
Proof. reflexivity. Qed.

Lemma hs_cons c s : hs (c :: s) = chr_eqb c slash.
Proof. destruct s; cbn; apply andb_true_r. Qed.

Lemma ts_nil : ts [] = false.
Proof. reflexivity. Qed.

Lemma ts_snoc s c : ts (s ++ [c]) = chr_eqb c slash.
Proof. unfold endswith. rewrite reverse_snoc. apply hs_cons. Qed.

Lemma snoc_case s : s = [] ∨ ∃ q c, s = q ++ [c].
Proof.
  destruct s as [|a s] using rev_ind; [by left|right; eauto].
Qed.

Lemma ts_app s t : t ≠ [] → ts (s ++ t) = ts t.
Proof.
  intros Ht. destruct (snoc_case t) as [->|(q & c & ->)]; [done|].
  by rewrite app_assoc, !ts_snoc.
Qed.

Lemma hs_app s t : s ≠ [] → hs (s ++ t) = hs s.
Proof. destruct s; [done|]. intros _. by rewrite <- app_comm_cons, !hs_cons. Qed.

Lemma drop_last_snoc s c : slice (s ++ [c]) 0 (length (s ++ [c]) - 1) = s.
Proof.
  unfold slice. rewrite drop_0, length_app. simpl.
  replace (length s + 1 - 1 - 0)%nat with (length s) by lia.
  by rewrite take_app_length.
Qed.



Lemma join_paths_nonempty p l :
  p ≠ [] →
  _join_paths p l =
    if bool_decide (l = lit "/") then np p
    else if bool_decide (np p = lit "/") then nl l
    else np p ++ nl l.
Proof.
  intros Hp. unfold _join_paths, np, nl.
  rewrite (bool_decide_eq_false_2 (p = lit "")) by done.
  by destruct (hs p), (hs l).
Qed.

Lemma join_paths_empty l :
  _join_paths [] l =
    if bool_decide (l = []) then lit "/"
    else if bool_decide (nl l ≠ lit "/") && ts (nl l) then rstrip (nl l) slash
    else nl l.
Proof.
  unfold _join_paths, nl. change (lit "") with (@nil char).
  rewrite (bool_decide_eq_true_2 ([] = [])) by done.
  by destruct (hs l).
Qed.

Lemma startswith_nil s : startswith s [] = true.
Proof. by destruct s. Qed.

Lemma ts_true_inv s : ts s = true → ∃ d, s = d ++ [slash].
Proof.
  destruct (snoc_case s) as [->|(q & c & ->)]; [done|].
  rewrite ts_snoc. intros ->%chr_eqb_true. eauto.
Qed.





Lemma hs_nl l : hs (nl l) = true.
Proof.
  unfold nl. destruct (hs l) eqn:E; [done|].
  change (lit "/" ++ l) with (slash :: l). by rewrite hs_cons.
Qed.

Lemma nl_hs l : hs l = true → nl l = l.
Proof. unfold nl. by intros ->. Qed.

Lemma ts_nl l : l ≠ [] → ts (nl l) = ts l.
Proof. intros Hl. unfold nl. destruct (hs l); [done|]. by apply ts_app. Qed.

Lemma nl_root_inv l : nl l = lit "/" → l = [] ∨ l = lit "/".
Proof.
  unfold nl. destruct (hs l) eqn:E; [by right|].
  destruct l; [by left|done].
Qed.


Lemma canonical_spec s :
  canonical s = true ↔ hs s = true ∧ (s = lit "/" ∨ ts s = false).
Proof.
  unfold canonical. rewrite andb_true_iff, orb_true_iff, bool_decide_eq_true,
    negb_true_iff. done.
Qed.


Lemma np_unfold p :
  np p = if bool_decide (nl p ≠ lit "/") && ts (nl p)
         then slice (nl p) 0 (length (nl p) - 1) else nl p.
Proof. reflexivity. Qed.


Lemma np_of_canonical a : canonical a = true → np a = a.
Proof.
  intros [Hh Ht]%canonical_spec. rewrite np_unfold, nl_hs by done.
  destruct Ht as [-> | ->]; [done|]. by rewrite andb_false_r.
Qed.

Lemma leaf_ok_spec l :
  leaf_ok l = true ↔ l ≠ [] ∧ (l = lit "/" ∨ ts l = false).
Proof.
  unfold leaf_ok. rewrite andb_true_iff, orb_true_iff, !bool_decide_eq_true,
    negb_true_iff. done.
Qed.

Lemma canonical_nonempty a : canonical a = true → a ≠ [].
Proof. by intros [Hh _]%canonical_spec ->. Qed.

Lemma canonical_leaf_ok a : canonical a = true → leaf_ok a = true.
Proof.
  intros Hc. apply leaf_ok_spec. split; [by apply canonical_nonempty|].
  by apply canonical_spec in Hc as [_ ?].
Qed.

Lemma canonical_nl l : leaf_ok l = true → canonical (nl l) = true.
Proof.
  intros [Hne Hl]%leaf_ok_spec. apply canonical_spec. split; [apply hs_nl|].
  destruct Hl as [-> | Ht]; [by left|]. right. by rewrite ts_nl.
Qed.

Lemma nl_root l : leaf_ok l = true → nl l = lit "/" → l = lit "/".
Proof.
  intros [Hne _]%leaf_ok_spec [?|?]%nl_root_inv; done.
Qed.

Lemma np_nil : np [] = lit "/".
Proof. reflexivity. Qed.

(** On a well-formed leaf, a join glues the normal forms of its arguments. *)
Lemma join_paths_glue p l :
  leaf_ok l = true → _join_paths p l = glue (np p) (nl l).
Proof.
  intros Hl. pose proof (canonical_nl l Hl) as Hc.
  unfold glue. destruct (decide (p = [])) as [->|Hp].
  - rewrite join_paths_empty, np_nil. apply leaf_ok_spec in Hl as [Hne Hl].
    rewrite (bool_decide_eq_false_2 (l = [])) by done.
    rewrite (bool_decide_eq_true_2 (lit "/" = lit "/")) by done.
    apply canonical_spec in Hc as [_ [Hr | Ht]].
    + rewrite Hr. reflexivity.
    + rewrite Ht, andb_false_r. by case_bool_decide.
  - rewrite join_paths_nonempty by done.
    destruct (decide (l = lit "/")) as [->|Hne].
    + reflexivity.
    + rewrite (bool_decide_eq_false_2 (l = lit "/")) by done.
      rewrite (bool_decide_eq_false_2 (nl l = lit "/")); [done|].
      intros Hr. by apply Hne, nl_root.
Qed.

Lemma glue_canonical a b :
  canonical a = true → canonical b = true → canonical (glue a b) = true.
Proof.
  intros Ha Hb. unfold glue. repeat case_bool_decide; try done.
  apply canonical_spec in Ha as [Hha _]. apply canonical_spec in Hb as [Hhb Hb].
  apply canonical_spec.
  assert (a ≠ []) by (by intros ->). assert (b ≠ []) by (by intros ->).
  rewrite hs_app, ts_app by done. split; [done|].
  destruct Hb as [?|?]; [done|by right].
Qed.



Lemma glue_root_l b : glue (lit "/") b = b.
Proof. unfold glue. by repeat case_bool_decide. Qed.

Lemma glue_root_r a : glue a (lit "/") = a.
Proof. unfold glue. by rewrite bool_decide_eq_true_2. Qed.





End join_facts.




Section join_head.

Implicit Types s p l : str.

Lemma rstrip_nil_slashes s : rstrip s slash = [] → Forall (λ c, c = slash) s.
Proof.
  induction s as [|d s IH]; simpl; [constructor|].
  destruct (rstrip s slash) eqn:E; [|done].
  destruct (chr_eqb d slash) eqn:Hd; [|done].
  intros _. constructor; [by apply chr_eqb_true|by apply IH].
Qed.

Lemma hs_rstrip s :
  rstrip s slash ≠ [] →
  startswith (rstrip s slash) (lit "/") = startswith s (lit "/").
Proof.
  destruct s as [|d s]; cbn [rstrip]; [done|].
  destruct (rstrip s slash) eqn:E.
  - destruct (chr_eqb d slash) eqn:Hd; [done|]. intros _.
    by rewrite !hs_cons.
  - intros _. by rewrite !hs_cons.
Qed.

Lemma hs_np p : startswith (np p) (lit "/") = true.
Proof.
  rewrite np_unfold.
  destruct (bool_decide (nl p ≠ lit "/")) eqn:Hr; cbn [andb]; [|apply hs_nl].
  apply bool_decide_eq_true in Hr.
  destruct (endswith (nl p) (lit "/")) eqn:Ht; [|apply hs_nl].
  destruct (ts_true_inv _ Ht) as (d & Hd).
  pose proof (hs_nl p) as Hh. rewrite Hd in Hh |- *.
  rewrite drop_last_snoc.
  assert (d ≠ []) by (intros ->; by apply Hr; rewrite Hd).
  by rewrite hs_app in Hh.
Qed.

(** Where the composed path starts with a slash: everywhere but for an empty
    prefix joined with two or more slashes, where the result is empty. *)
Lemma join_paths_head prefix path :
  (prefix = [] ∧ (2 ≤ length path)%nat ∧ Forall (λ c, c = slash) path ∧
   _join_paths prefix path = [])
  ∨ startswith (_join_paths prefix path) (lit "/") = true.
Proof.
  destruct (decide (prefix = [])) as [->|Hp].
  - rewrite join_paths_empty. case_bool_decide as Hl; [by right|].
    destruct (bool_decide (nl path ≠ lit "/") && endswith (nl path) (lit "/"))
      eqn:Hc; [|right; apply hs_nl].
    apply andb_true_iff in Hc as [Hr%bool_decide_eq_true Ht].
    destruct (decide (rstrip (nl path) slash = [])) as [Hs|Hs].
    + left. pose proof (rstrip_nil_slashes _ Hs) as Hall.
      assert (Hpath : Forall (λ c, c = slash) path).
      { unfold nl in Hall. destruct (startswith path (lit "/")); [done|].
        by inversion Hall. }
      split_and!; try done.
      destruct path as [|c [|??]]; simpl; [done| |lia].
      exfalso. apply Hr. by inversion Hpath as [|?? ->].
    + right. rewrite hs_rstrip by done. apply hs_nl.
  - right. rewrite join_paths_nonempty by done.
    repeat case_bool_decide; auto using hs_np, hs_nl.
    rewrite hs_app; [apply hs_np|].
    intros Hnil. pose proof (hs_np prefix) as Hh. by rewrite Hnil in Hh.
Qed.

End join_head.

(** C3. Three of the four instances hold as specified; on
    [("/api/", "/users/")] the composer returns [/api/users/], keeping the
    trailing slash that the empty-prefix branch strips. *)
Theorem join_paths_instances :
  _join_paths (lit "") (lit "/") = lit "/" ∧
  _join_paths (lit "") (lit "users") = lit "/users" ∧
  _join_paths (lit "/api") (lit "/") = lit "/api" ∧
  _join_paths (lit "/api/") (lit "/users/") = lit "/api/users/" ∧
  _join_paths (lit "/api/") (lit "/users/") ≠ lit "/api/users" ∧
  _join_paths (lit "") (lit "/users/") = lit "/users".
Proof. split_and!; by vm_compute. Qed.

(** C10. With an empty prefix and the path [//], [rstrip] removes every
    character and the composer returns the empty string, which does not begin
    with a slash. *)
Theorem join_paths_empty_result :
  _join_paths (lit "") (lit "//") = lit "" ∧
  startswith (_join_paths (lit "") (lit "//")) (lit "/") = false.
Proof. split; reflexivity. Qed.

(** ** Properties of the call scanner *)

Section calls_facts.

Implicit Types text needle rest s : str.

Lemma startswith_length s needle :
  startswith s needle = true → (length needle ≤ length s)%nat.
Proof.
  revert s. induction needle as [|c needle IH]; intros [|d s]; simpl;
    try done; try lia.
  intros [_ H]%andb_true_iff. apply IH in H. lia.
Qed.

Lemma find_from_bounds needle s idx0 idx :
  Calls.find_from needle s idx0 = Some idx →
  (idx0 ≤ idx)%nat ∧ (idx + length needle ≤ idx0 + length s)%nat.
Proof.
  revert idx0. induction s as [|d s IH]; intros idx0;
    cbn [Calls.find_from length].
  - destruct (startswith [] needle) eqn:E; [|done].
    intros [= <-]. apply startswith_length in E. simpl in E. lia.
  - destruct (startswith (d :: s) needle) eqn:E.
    + intros [= <-]. apply startswith_length in E. simpl in E. lia.
    + intros H%IH. lia.
Qed.

Lemma find_bounds text needle i idx :
  Calls.find text needle i = Some idx →
  (i ≤ idx)%nat ∧ (idx + length needle ≤ length text)%nat.
Proof.
  unfold Calls.find. case_decide as Hi; [|done].
  intros H%find_from_bounds. rewrite length_drop in H. lia.
Qed.

(** At the end of the text a non-empty token is no longer found. *)
Lemma find_at_end text needle :
  needle ≠ [] → Calls.find text needle (length text) = None.
Proof.
  intros Hn. destruct (Calls.find text needle (length text)) as [idx|] eqn:E;
    [|done].
  apply find_bounds in E. destruct needle; [done|]. simpl in E. lia.
Qed.

Lemma args_end_bounds rest j depth in_str esc :
  (j ≤ fst (Calls.args_end rest j depth in_str esc) ≤ j + length rest)%nat.
Proof.
  revert j depth in_str esc.
  induction rest as [|ch rest IH]; intros j depth in_str esc; simpl; [lia|].
  repeat case_match; simpl; try lia.
  all: match goal with
       | |- context [Calls.args_end _ (S ?k) ?d ?s ?e] =>
         specialize (IH (S k) d s e); lia
       end.
Qed.

(** The inner loop leaves with an open parenthesis only at the end of the
    text. *)
Lemma args_end_open rest j depth in_str esc :
  snd (Calls.args_end rest j depth in_str esc) > 0 →
  fst (Calls.args_end rest j depth in_str esc) = (j + length rest)%nat.
Proof.
  revert j depth in_str esc.
  induction rest as [|ch rest IH]; intros j depth in_str esc; simpl; [lia|].
  destruct (depth >? 0) eqn:Hd; simpl.
  - repeat case_match; intros Hopen%IH; rewrite Hopen; lia.
  - rewrite Z.gtb_ltb in Hd. apply Z.ltb_ge in Hd. lia.
Qed.

Lemma loop_returns text needle fuel i calls :
  needle ≠ [] → (i ≤ length text)%nat → (length text - i < fuel)%nat →
  ∃ found, Calls.loop fuel text needle i calls = Returns found.
Proof.
  intros Hn. revert i calls.
  induction fuel as [|fuel IH]; intros i calls Hi Hfuel; [lia|].
  simpl. destruct (Calls.find text needle i) as [idx|] eqn:Hf; [|eauto].
  apply find_bounds in Hf.
  assert (0 < length needle)%nat by (destruct needle; [done|simpl; lia]).
  set (start := (idx + length needle)%nat).
  pose proof (args_end_bounds (drop start text) start 1 false false) as Hj.
  rewrite length_drop in Hj. apply IH; subst start; lia.
Qed.

End calls_facts.

(** What the loop does at an occurrence whose argument list never closes:
    the argument text is the rest of the input without its last character, and
    the scan ends there. *)
Lemma loop_unterminated text needle fuel i idx calls :
  needle ≠ [] →
  Calls.find text needle i = Some idx →
  unbalanced_from text (idx + length needle) →
  Calls.loop (S (S fuel)) text needle i calls =
  Returns (calls ++
           match _split_top_level_comma
                   (slice text (idx + length needle) (length text - 1)) with
           | Some parts => [parts]
           | None => []
           end).
Proof.
  intros Hn Hf Hopen.
  cbn [Calls.loop]. rewrite Hf. cbv zeta.
  apply args_end_open in Hopen. rewrite Hopen, length_drop.
  pose proof (find_bounds _ _ _ _ Hf) as Hb.
  replace (idx + length needle + (length text - (idx + length needle)))%nat
    with (length text) by lia.
  rewrite find_at_end by done.
  destruct (_split_top_level_comma _); [done|by rewrite app_nil_r].
Qed.

Lemma top_level_comma_at_take (s : str) n k :
  top_level_comma_at (take n s) k → top_level_comma_at s k.
Proof.
  intros [Hk Htop].
  assert (k < n)%nat.
  { apply lookup_lt_Some in Hk. rewrite length_take in Hk. lia. }
  split.
  - by rewrite lookup_take_lt in Hk.
  - rewrite take_take in Htop. by replace (k `min` n)%nat with k in Htop by lia.
Qed.

(** C5. For a non-empty call token the scanner raises no error and returns,
    and an occurrence whose argument list is still open at the end of the
    text ends the scan.  But the occurrence is not skipped: the argument text
    is cut as if the last character read were the closing parenthesis, so the
    rest of the input less its last character is split, and [.route(a,bc]
    gives the pair [(a, b)].  Where the list is closed the cut is right:
    [.route(a,bc)] gives [(a, bc)]. *)
Theorem extract_two_arg_calls_unterminated :
  (∀ text needle : str, needle ≠ [] →
     ∃ found, _extract_two_arg_calls text needle = Returns found) ∧
  (∀ (text needle : str) (idx : nat), needle ≠ [] →
     Calls.find text needle 0 = Some idx →
     unbalanced_from text (idx + length needle) →
     _extract_two_arg_calls text needle =
     Returns (match _split_top_level_comma
                      (slice text (idx + length needle) (length text - 1)) with
              | Some parts => [parts]
              | None => []
              end)) ∧
  Calls.find (lit ".route(a,bc") (lit ".route(") 0 = Some 0%nat ∧
  unbalanced_from (lit ".route(a,bc") (0 + length (lit ".route(")) ∧
  _extract_two_arg_calls (lit ".route(a,bc") (lit ".route(")
    = Returns [(lit "a", lit "b")] ∧
  _extract_two_arg_calls (lit ".route(a,bc)") (lit ".route(")
    = Returns [(lit "a", lit "bc")].
Proof.
  split.
  { intros text needle Hn. apply loop_returns; [done|lia..]. }
  split.
  { intros text needle idx Hn Hf Hopen. unfold _extract_two_arg_calls.
    by rewrite (loop_unterminated _ _ _ _ _ _ Hn Hf Hopen). }
  split_and!; by vm_compute.
Qed.

(** ** Properties of the module resolver *)

Section resolver_facts.
Context {Path : Type} `{EqDecision Path}.
Variable parent : Path → Path.
Variable joinpath : Path → list str → Path.
Variable path_exists : Path → bool.

Local Abbreviation resolve :=
  (_resolve_module_file parent joinpath path_exists).

(** Only files that exist are returned. *)
Lemma resolve_parts_exists routes_root base_dir parts found :
  resolve_parts parent joinpath path_exists routes_root base_dir parts
    = Some found →
  path_exists found = true.
Proof.
  unfold resolve_parts. destruct (strip_super _ _ _) as [parts' base'].
  case_bool_decide; [done|].
  destruct (list_find _ _) as [[k c]|] eqn:Hfind; [|done].
  intros [= <-]. by apply list_find_Some in Hfind as (_ & ? & _).
Qed.

Lemma resolve_module_file_exists routes_root current_file module found :
  resolve routes_root current_file module = Some found →
  path_exists found = true.
Proof.
  unfold _resolve_module_file.
  repeat case_bool_decide; try done; apply resolve_parts_exists.
Qed.

(** A reference without [super] or [self] in front, resolved under
    [crate::routes], has its two candidates under the routes root only. *)
Lemma resolve_parts_at_root routes_root parts :
  strip_super parent parts routes_root = (parts, routes_root) →
  strip_self parts = parts → parts ≠ [] →
  resolve_parts parent joinpath path_exists routes_root routes_root parts
  = snd <$> list_find (λ candidate, path_exists candidate = true)
              (add_candidates joinpath parts routes_root).
Proof.
  intros Hsuper Hself Hne. unfold resolve_parts. rewrite Hsuper, Hself.
  rewrite (bool_decide_eq_false_2 (parts = [])) by done.
  rewrite (bool_decide_eq_false_2 (routes_root ≠ routes_root)) by auto.
  by rewrite app_nil_r.
Qed.
End resolver_facts.

(** C7. When the first segment of a module reference is [crate]: if the
    second is [routes], both are dropped and the rest is resolved from the
    routes root, whatever the current file; otherwise the reference is
    unresolved, whatever is on disk.  In particular segments after
    [crate::routes] that begin with neither [super] nor [self] name the file
    [<last>.rs] under the routes root when it exists, else [<last>/mod.rs]
    under the routes root when that exists, else nothing. *)
Theorem resolve_module_file_crate {Path : Type} `{EqDecision Path}
    (parent : Path → Path) (joinpath : Path → list str → Path)
    (path_exists : Path → bool) (routes_root current_file : Path)
    (module : str) :
  let parts := module_parts (strip module) in
  head parts = Some (lit "crate") →
  (* the rest of the algorithm, from the routes root *)
  _resolve_module_file parent joinpath path_exists routes_root current_file module
  = (if bool_decide (parts !! 1%nat = Some (lit "routes"))
     then resolve_parts parent joinpath path_exists routes_root routes_root
            (drop 2 parts)
     else None) ∧
  (* under [crate::routes] the current file plays no part *)
  (parts !! 1%nat = Some (lit "routes") →
   ∀ other_file,
     _resolve_module_file parent joinpath path_exists routes_root current_file module
     = _resolve_module_file parent joinpath path_exists routes_root other_file module) ∧
  (* plain segments are looked up under the routes root *)
  (∀ seg rest,
     parts = lit "crate" :: lit "routes" :: seg :: rest →
     seg ≠ lit "super" → seg ≠ lit "self" →
     let segs := seg :: rest in
     let file :=
       joinpath routes_root
         (take (length segs - 1)%nat segs ++ [default [] (last segs) ++ lit ".rs"]) in
     let dir := joinpath routes_root (segs ++ [lit "mod.rs"]) in
     _resolve_module_file parent joinpath path_exists routes_root current_file module
     = if path_exists file then Some file
       else if path_exists dir then Some dir
       else None) ∧
  (* elsewhere in the crate nothing is looked up *)
  (parts !! 1%nat ≠ Some (lit "routes") →
   ∀ disk : Path → bool,
     _resolve_module_file parent joinpath disk routes_root current_file module = None).
Proof.
  intros parts Hhead.
  assert (Hne : strip module ≠ []).
  { intros Hnil. subst parts. by rewrite Hnil in Hhead. }
  assert (Hmain : ∀ disk file,
    _resolve_module_file parent joinpath disk routes_root file module
    = if bool_decide (parts !! 1%nat = Some (lit "routes"))
      then resolve_parts parent joinpath disk routes_root routes_root (drop 2 parts)
      else None).
  { intros disk file. unfold _resolve_module_file. fold parts.
    rewrite (bool_decide_eq_false_2 (strip module = [])) by done.
    destruct parts as [|p0 [|p1 rest]] eqn:Hparts; simpl in Hhead; [done|..];
      injection Hhead as ->.
    - by rewrite bool_decide_eq_false_2, bool_decide_eq_true_2.
    - cbn [take lookup list_lookup drop].
      destruct (decide (p1 = lit "routes")) as [->|Hp1].
      + by rewrite !bool_decide_eq_true_2.
      + rewrite (bool_decide_eq_false_2 (_ = [lit "crate"; lit "routes"]))
          by congruence.
        rewrite (bool_decide_eq_true_2 (head _ = Some _)) by done.
        by rewrite bool_decide_eq_false_2 by congruence. }
  split; [apply Hmain|]. split; [|split].
  - intros _ other_file. by rewrite !Hmain.
  - intros seg rest Hparts Hsuper Hself segs file dir.
    rewrite Hmain, Hparts. cbn [lookup list_lookup drop].
    rewrite bool_decide_eq_true_2 by done.
    unfold resolve_parts. cbn [strip_super strip_self].
    rewrite (bool_decide_eq_false_2 (seg = lit "super")) by done.
    cbn [strip_self].
    rewrite (bool_decide_eq_false_2 (seg = lit "self")) by done.
    rewrite (bool_decide_eq_false_2 (seg :: rest = [])) by done.
    rewrite (bool_decide_eq_false_2 (routes_root ≠ routes_root)) by auto.
    rewrite app_nil_r. unfold add_candidates. fold segs. fold file. fold dir.
    cbn [list_find]. destruct (path_exists file) eqn:Hfile.
    + by rewrite decide_True by done.
    + rewrite decide_False by done. cbn.
      destruct (path_exists dir) eqn:Hdir.
      * by rewrite decide_True by done.
      * by rewrite decide_False by done.
  - intros Hp1 disk. rewrite Hmain. by rewrite bool_decide_eq_false_2.
Qed.

Lemma resolve_module_file_crate_witness :
  head (module_parts (strip (lit "crate::routes::a"))) = Some (lit "crate") ∧
  PurePath.parent Nested.sub_c_rs ≠ Demo.routes_root ∧
  Nested.resolve Nested.sub_c_rs (lit "crate::routes::a") = Some Demo.a_rs ∧
  Nested.resolve Nested.sub_c_rs (lit "a") = Some Nested.sub_a_rs ∧
  Nested.resolve Nested.sub_c_rs (lit "crate::models::a") = None.
Proof.
  pose proof (resolve_module_file_crate PurePath.parent PurePath.joinpath
                Nested.path_exists Demo.routes_root Nested.sub_c_rs
                (lit "crate::routes::a") eq_refl) as (_ & _ & Hplain & _).
  pose proof (resolve_module_file_crate PurePath.parent PurePath.joinpath
                Nested.path_exists Demo.routes_root Nested.sub_c_rs
                (lit "crate::models::a") eq_refl) as (_ & _ & _ & Hnone).
  split; [reflexivity|]. split; [done|]. split.
  { unfold Nested.resolve.
    rewrite (Hplain (lit "a") [] eq_refl ltac:(done) ltac:(done)). reflexivity. }
  split; [reflexivity|]. apply Hnone. done.
Defined.

(** The resolver on the example tree: a reference under [crate::routes]
    resolves from the routes root, one under another part of the crate does
    not resolve, and neither does a module without a file. *)
Example resolve_examples :
  Demo.resolve Demo.b_rs (lit "crate::routes::a") = Some Demo.a_rs ∧
  Demo.resolve Demo.b_rs (lit "crate::models::a") = None ∧
  Demo.resolve Demo.a_rs (lit "b") = Some Demo.b_rs ∧
  Demo.resolve Demo.mod_rs (lit "ghost") = None.
Proof. split_and!; reflexivity. Qed.

(** ** Properties of the router tree walker *)

Section walker_uncached_facts.
Context {Path : Type} `{EqDecision Path}.
Variable parent : Path → Path.
Variable joinpath : Path → list str → Path.
Variable path_exists : Path → bool.
Variable routes_root : Path.

Local Abbreviation resolve :=
  (_resolve_module_file parent joinpath path_exists routes_root).
Local Abbreviation nests_loop :=
  (walk_nests_uncached parent joinpath path_exists routes_root).

Implicit Types rec : Path → str → list Path → outcome (gset Endpoint.t * list Path).

(** The loop depends on the recursive call only through its results. *)
Lemma walk_nests_ext rec rec' path prefix nests endpoints stack :
  (∀ file child_prefix st, rec file child_prefix st = rec' file child_prefix st) →
  nests_loop rec path prefix nests endpoints stack
  = nests_loop rec' path prefix nests endpoints stack.
Proof.
  intros Hext. revert endpoints stack.
  induction nests as [|nest nests IH]; intros endpoints stack; simpl; [done|].
  destruct (resolve path (NestCall.module nest)) as [file|]; [|apply IH].
  rewrite Hext. destruct (rec' _ _ _) as [[found st]| |]; simpl; auto.
Qed.

(** An edge whose module does not resolve is passed over: the loop behaves
    as if the edge were not in the list. *)
Lemma walk_nests_skip rec path prefix before edge after endpoints stack :
  resolve path (NestCall.module edge) = None →
  nests_loop rec path prefix (before ++ edge :: after) endpoints stack
  = nests_loop rec path prefix (before ++ after) endpoints stack.
Proof.
  intros Hnone. revert endpoints stack.
  induction before as [|nest before IH]; intros endpoints stack; simpl.
  - by rewrite Hnone.
  - destruct (resolve path (NestCall.module nest)) as [file|]; [|apply IH].
    destruct (rec _ _ _) as [[found st]| |]; simpl; auto.
Qed.

(** When every recursive call returns, restores the stack and finds the
    endpoints described by [R], so does the loop. *)
Lemma walk_nests_returns rec (R : Path → str → Endpoint.t → Prop)
    path prefix stack nests endpoints :
  (∀ nest file,
     nest ∈ nests → resolve path (NestCall.module nest) = Some file →
     ∃ found,
       rec file (_join_paths prefix (NestCall.prefix nest)) stack
         = Returns (found, stack) ∧
       ∀ e, e ∈ found ↔ R file (_join_paths prefix (NestCall.prefix nest)) e) →
  ∃ result,
    nests_loop rec path prefix nests endpoints stack = Returns (result, stack) ∧
    ∀ e, e ∈ result ↔
         e ∈ endpoints ∨
         ∃ nest file,
           nest ∈ nests ∧ resolve path (NestCall.module nest) = Some file ∧
           R file (_join_paths prefix (NestCall.prefix nest)) e.
Proof.
  revert endpoints.
  induction nests as [|nest nests IH]; intros endpoints Hrec; simpl.
  - eexists. split; [done|]. intros e. split; [auto|].
    intros [?|(nest & file & Hin & _)]; [done|]. by apply elem_of_nil in Hin.
  - destruct (resolve path (NestCall.module nest)) as [file|] eqn:Hres.
    + destruct (Hrec nest file) as (found & -> & Hfound);
        [by left|done|]. simpl.
      destruct (IH (endpoints ∪ found)) as (result & -> & Hresult).
      { intros n f Hn. apply Hrec. by right. }
      eexists. split; [done|]. intros e. rewrite Hresult, elem_of_union, Hfound.
      split.
      * intros [[?|?]|(n & f & Hn & ?)]; [by left|right..].
        -- exists nest, file. split_and!; [by left|done..].
        -- exists n, f. split; [by right|done].
      * intros [?|(n & f & [->|Hn]%elem_of_cons & Hf & Hr)]; [by left; left|..].
        -- rewrite Hres in Hf. injection Hf as <-. by left; right.
        -- right. by exists n, f.
    + destruct (IH endpoints) as (result & -> & Hresult).
      { intros n f Hn. apply Hrec. by right. }
      eexists. split; [done|]. intros e. rewrite Hresult.
      split; (intros [?|(n & f & Hn & Hf & Hr)]; [by left|right]).
      * exists n, f. split; [by right|done].
      * apply elem_of_cons in Hn as [->|Hn]; [congruence|]. by exists n, f.
Qed.

Lemma list_pop_snoc (stack : list Path) path :
  list_pop (stack ++ [path]) = Returns stack.
Proof.
  unfold list_pop. destruct (stack ++ [path]) eqn:E.
  - by destruct stack.
  - rewrite <- E, length_app. simpl.
    replace (length stack + 1 - 1)%nat with (length stack) by lia.
    by rewrite take_app_length.
Qed.

(** Deleting an unresolvable edge from one file changes no walk. *)
Lemma walk_uncached_skip (parse parse' : Path → ParsedRouterFile.t)
    file before after edge :
  resolve file (NestCall.module edge) = None →
  ParsedRouterFile.nests (parse file) = before ++ edge :: after →
  ParsedRouterFile.nests (parse' file) = before ++ after →
  ParsedRouterFile.endpoints (parse' file) = ParsedRouterFile.endpoints (parse file) →
  (∀ p, p ≠ file → parse' p = parse p) →
  ∀ fuel path prefix stack,
    walk_uncached parent joinpath path_exists routes_root parse
      fuel path prefix stack
    = walk_uncached parent joinpath path_exists routes_root parse'
        fuel path prefix stack.
Proof.
  intros Hnone Hnests Hnests' Heps Hother fuel.
  induction fuel as [|fuel IH]; intros path prefix stack; [done|].
  cbn [walk_uncached]. case_bool_decide; [done|].
  rewrite (walk_nests_ext _ _ _ _ _ _ _ IH).
  destruct (decide (path = file)) as [->|Hne].
  - by rewrite Hnests, Hnests', Heps, walk_nests_skip.
  - by rewrite Hother.
Qed.

Variable parse : Path → ParsedRouterFile.t.

Local Abbreviation walk_from :=
  (walk_uncached parent joinpath path_exists routes_root parse).
Local Abbreviation reach :=
  (reaches parent joinpath path_exists routes_root parse).

Lemma reaches_not_on_stack path prefix stack e :
  reach path prefix stack e → path ∉ stack.
Proof. by intros [| ]. Qed.

(** [univ] lists every path that exists. *)
Variable univ : list Path.
Hypothesis univ_complete : ∀ p, path_exists p = true → p ∈ univ.

(** With more fuel than there are files off the stack, the walk returns,
    leaves the stack as it found it, and finds what [reaches] describes. *)
Lemma walk_reaches fuel path prefix stack :
  NoDup stack → (∀ p, p ∈ stack → p ∈ univ) → path ∈ univ →
  (length univ - length stack < fuel)%nat →
  ∃ endpoints,
    walk_from fuel path prefix stack = Returns (endpoints, stack) ∧
    ∀ e, e ∈ endpoints ↔ reach path prefix stack e.
Proof.
  revert path prefix stack.
  induction fuel as [|fuel IH]; intros path prefix stack Hnd Hsub Hpath Hfuel;
    [lia|].
  cbn [walk_uncached]. case_bool_decide as Hin.
  { exists ∅. split; [done|]. intros e. split; [set_solver|].
    by intros Hr%reaches_not_on_stack. }
  assert (Hnd' : NoDup (stack ++ [path])).
  { apply NoDup_app. split_and!; [done| |apply NoDup_singleton].
    intros x Hx ->%list_elem_of_singleton. done. }
  assert (Hsub' : ∀ p, p ∈ stack ++ [path] → p ∈ univ).
  { intros p [?| ->%list_elem_of_singleton]%elem_of_app; auto. }
  assert (Hlen : (length (stack ++ [path]) ≤ length univ)%nat).
  { apply submseteq_length, NoDup_submseteq; done. }
  rewrite length_app in Hlen. simpl in Hlen.
  destruct (walk_nests_returns (walk_from fuel)
              (λ file child_prefix e, reach file child_prefix (stack ++ [path]) e)
              path prefix (stack ++ [path])
              (ParsedRouterFile.nests (parse path))
              (set_map (λ ep, Endpoint.Build (Endpoint.method ep)
                                (_join_paths prefix (Endpoint.path ep)))
                       (ParsedRouterFile.endpoints (parse path))))
    as (result & -> & Hresult).
  { intros nest file _ Hfile. apply IH; try done.
    - eapply univ_complete, resolve_module_file_exists, Hfile.
    - rewrite length_app. simpl. lia. }
  cbn [obind]. rewrite list_pop_snoc. cbn [obind].
  eexists. split; [done|]. intros e. rewrite Hresult. split.
  - intros [(ep & -> & Hep)%elem_of_map|(nest & file & Hn & Hf & Hr)].
    + by constructor.
    + by eapply reaches_nest.
  - intros Hr. inversion Hr as [????? Hep|?????? Hnot Hn Hf Hrec]; subst.
    + left. apply elem_of_map. eauto.
    + right. eauto.
Qed.
End walker_uncached_facts.

(** *** The cache is transparent *)

Section walker_cache.
Context {Path : Type} `{Countable Path}.
Variable parent : Path → Path.
Variable joinpath : Path → list str → Path.
Variable path_exists : Path → bool.
Variable routes_root : Path.
Variable extract : Path → ParsedRouterFile.t.
Variable health_prefixes : list str.

Local Abbreviation parsed :=
  (parsed_of joinpath routes_root extract health_prefixes).
Local Abbreviation ok :=
  (cache_ok joinpath routes_root extract health_prefixes).
Local Abbreviation walk_c :=
  (walk parent joinpath path_exists routes_root extract health_prefixes).
Local Abbreviation walk_u :=
  (walk_uncached parent joinpath path_exists routes_root parsed).

Lemma cache_ok_empty : ok ∅.
Proof. intros path p Hp. by rewrite lookup_empty in Hp. Qed.

(** [parse_file] returns [parsed_of path] whether it hits the cache or not,
    and keeps the cache sound and the stack as it was. *)
Lemma parse_file_ok path (st : walk_state) :
  ok (cache st) →
  ∃ c, parse_file joinpath routes_root extract health_prefixes path st
       = (parsed path, WalkState c (stack st)) ∧ ok c.
Proof.
  intros Hok. unfold parse_file.
  destruct (cache st !! path) as [p|] eqn:Hp.
  - exists (cache st). rewrite (Hok _ _ Hp). by destruct st.
  - eexists. split; [reflexivity|].
    intros q r. rewrite lookup_insert. case_decide as Hq; [|apply Hok].
    subst q. by intros [= <-].
Qed.

Lemma walk_nests_refines rec rec_u path prefix nests endpoints (st : walk_state) :
  (∀ file child_prefix st0,
     ok (cache st0) →
     forget (rec file child_prefix st0) = rec_u file child_prefix (stack st0) ∧
     ∀ found st1, rec file child_prefix st0 = Returns (found, st1) →
                  ok (cache st1)) →
  ok (cache st) →
  forget (walk_nests parent joinpath path_exists routes_root
            rec path prefix nests endpoints st)
  = walk_nests_uncached parent joinpath path_exists routes_root
      rec_u path prefix nests endpoints (stack st) ∧
  ∀ found st1,
    walk_nests parent joinpath path_exists routes_root
      rec path prefix nests endpoints st = Returns (found, st1) →
    ok (cache st1).
Proof.
  intros Hrec. revert endpoints st.
  induction nests as [|nest nests IH]; intros endpoints st Hok; simpl.
  - split; [done|]. by intros found st1 [= _ <-].
  - destruct (_resolve_module_file _ _ _ _ _ _) as [file|]; [|by apply IH].
    destruct (Hrec file (_join_paths prefix (NestCall.prefix nest)) st Hok)
      as [Hf Hc].
    destruct (rec file _ st) as [[found st1]| |]; simpl in Hf |- *;
      rewrite <- Hf; simpl; [|done..].
    apply IH. by eapply Hc.
Qed.

(** The cached walk and the walk over [parsed_of] have the same outcome. *)
Lemma walk_refines fuel path prefix (st : walk_state) :
  ok (cache st) →
  forget (walk_c fuel path prefix st) = walk_u fuel path prefix (stack st) ∧
  ∀ found st1, walk_c fuel path prefix st = Returns (found, st1) → ok (cache st1).
Proof.
  revert path prefix st.
  induction fuel as [|fuel IH]; intros path prefix st Hok; [done|].
  cbn [walk walk_uncached]. case_bool_decide as Hin.
  { split; [done|]. by intros found st1 [= _ <-]. }
  destruct (parse_file_ok path (WalkState (cache st) (stack st ++ [path])) Hok)
    as (c & -> & Hc). cbn [stack] in *.
  destruct (walk_nests_refines (walk_c fuel) (walk_u fuel) path prefix
              (ParsedRouterFile.nests (parsed path))
              (set_map (λ ep, Endpoint.Build (Endpoint.method ep)
                                (_join_paths prefix (Endpoint.path ep)))
                       (ParsedRouterFile.endpoints (parsed path)))
              (WalkState c (stack st ++ [path])) IH Hc) as [Hf Hc'].
  cbn [stack] in Hf. rewrite <- Hf.
  destruct (walk_nests _ _ _ _ _ _ _ _ _ _) as [[found st1]| |]; simpl;
    [|done..].
  specialize (Hc' found st1 eq_refl).
  unfold stack_pop, list_pop. destruct (stack st1); simpl; [done|].
  split; [done|]. by intros found' st2 [= _ <-].
Qed.
End walker_cache.

Section walker_returns.
Context {Path : Type} `{Countable Path}.
Variable parent : Path → Path.
Variable joinpath : Path → list str → Path.
Variable path_exists : Path → bool.
Variable routes_root : Path.
Variable extract : Path → ParsedRouterFile.t.
Variable health_prefixes : list str.
Variable files : list Path.
Hypothesis files_complete : ∀ p, path_exists p = true → p ∈ files.

(** From a fresh cache and stack the walk returns, with the stack empty
    again, the endpoints that [reaches] describes. *)
Lemma walk_returns_reaches start prefix fuel :
  (length files + 1 < fuel)%nat →
  ∃ endpoints c,
    walk parent joinpath path_exists routes_root extract health_prefixes
         fuel start prefix (WalkState ∅ [])
      = Returns (endpoints, WalkState c []) ∧
    ∀ e, e ∈ endpoints ↔
         reaches parent joinpath path_exists routes_root
                 (parsed_of joinpath routes_root extract health_prefixes)
                 start prefix [] e.
Proof.
  intros Hfuel.
  destruct (walk_reaches parent joinpath path_exists routes_root
              (parsed_of joinpath routes_root extract health_prefixes)
              (start :: files)
              (λ p Hp, list_elem_of_further _ _ _ (files_complete p Hp))
              fuel start prefix [])
    as (endpoints & Hwalk & Hreach).
  { apply NoDup_nil_2. }
  { intros p Hp. by apply elem_of_nil in Hp. }
  { by left. }
  { simpl. lia. }
  destruct (walk_refines parent joinpath path_exists routes_root
              extract health_prefixes fuel start prefix (WalkState ∅ []))
    as [Hf _]; [apply cache_ok_empty|].
  cbn [stack] in Hf. rewrite Hwalk in Hf.
  destruct (walk _ _ _ _ _ _ _ _ _ _) as [[found [c stk]]| |];
    simpl in Hf; [|done..].
  injection Hf as -> ->. by exists endpoints, c.
Qed.

(** [_extract_rust_endpoints] returns the endpoints reached from [mod.rs]
    under the empty prefix. *)
Lemma extract_rust_endpoints_returns fuel :
  (length files + 1 < fuel)%nat →
  ∃ endpoints,
    _extract_rust_endpoints parent joinpath path_exists routes_root
      extract health_prefixes fuel = Returns endpoints ∧
    ∀ e, e ∈ endpoints ↔
         reaches parent joinpath path_exists routes_root
                 (parsed_of joinpath routes_root extract health_prefixes)
                 (mod_rs joinpath routes_root) (lit "") [] e.
Proof.
  intros Hfuel. unfold _extract_rust_endpoints.
  destruct (walk_returns_reaches (mod_rs joinpath routes_root) (lit "") fuel Hfuel)
    as (endpoints & c & -> & Hreach).
  by exists endpoints.
Qed.
End walker_returns.

(** C4. Whatever the delegation edges are, cycles included, the walk over a
    finite set of files returns: a file on the active stack is not re-entered
    and yields the empty set, and the result holds exactly the endpoints
    reached along edges that resolve without re-entering a file being
    visited. *)
Theorem walk_terminates {Path : Type} `{Countable Path}
    (parent : Path → Path) (joinpath : Path → list str → Path)
    (path_exists : Path → bool) (routes_root : Path)
    (extract : Path → ParsedRouterFile.t) (health_prefixes : list str)
    (files : list Path) (start : Path) (prefix : str) (fuel : nat) :
  (∀ p, path_exists p = true → p ∈ files) →
  (length files + 1 < fuel)%nat →
  (∀ n path child_prefix (st : walk_state),
     path ∈ stack st →
     walk parent joinpath path_exists routes_root extract health_prefixes
          (S n) path child_prefix st = Returns (∅, st)) ∧
  ∃ endpoints c,
    walk parent joinpath path_exists routes_root extract health_prefixes
         fuel start prefix (WalkState ∅ [])
      = Returns (endpoints, WalkState c []) ∧
    ∀ e, e ∈ endpoints ↔
         reaches parent joinpath path_exists routes_root
                 (parsed_of joinpath routes_root extract health_prefixes)
                 start prefix [] e.
Proof.
  intros Hfiles Hfuel. split.
  - intros n path child_prefix st Hin. cbn [walk].
    by rewrite bool_decide_eq_true_2.
  - by apply (walk_returns_reaches parent joinpath path_exists routes_root
                extract health_prefixes files).
Qed.

Lemma walk_terminates_witness :
  (∀ n path child_prefix (st : walk_state),
     path ∈ stack st →
     Demo.walk Demo.extract (S n) path child_prefix st = Returns (∅, st)) ∧
  ∃ endpoints c,
    Demo.walk Demo.extract 6 Demo.mod_rs (lit "") (WalkState ∅ [])
      = Returns (endpoints, WalkState c []) ∧
    ∀ e, e ∈ endpoints ↔
         reaches PurePath.parent PurePath.joinpath Demo.path_exists
                 Demo.routes_root (Demo.parsed_of Demo.extract)
                 Demo.mod_rs (lit "") [] e.
Proof.
  apply (walk_terminates PurePath.parent PurePath.joinpath Demo.path_exists
           Demo.routes_root Demo.extract Demo.health_prefixes Demo.files
           Demo.mod_rs (lit "") 6).
  - intros p Hp. by apply bool_decide_eq_true in Hp.
  - simpl. lia.
Defined.

(** The walk of the example tree, which has the cycle [a → b → a]. *)
Example walk_example :
  match Demo.walk Demo.extract 6 Demo.mod_rs (lit "") Demo.fresh with
  | Returns (endpoints, st) => Some (elements endpoints, stack st)
  | _ => None
  end
  = Some ([ Demo.ep "POST" "/a/b/y"; Demo.ep "GET" "/a/x";
            Demo.ep "GET" "/about"; Demo.ep "GET" "/health" ], []).
Proof. vm_compute. reflexivity. Qed.

(** C6. A delegation edge whose module does not resolve to a file adds no
    endpoint and raises nothing, and the edges around it are walked as
    before: the walk has the same outcome as on the tree without that
    edge. *)
Theorem walk_skips_unresolved {Path : Type} `{Countable Path}
    (parent : Path → Path) (joinpath : Path → list str → Path)
    (path_exists : Path → bool) (routes_root : Path)
    (extract extract' : Path → ParsedRouterFile.t) (health_prefixes : list str)
    (file : Path) (before after : list NestCall.t) (edge : NestCall.t)
    (fuel : nat) (path : Path) (prefix : str) (stack0 : list Path) :
  let parsed := parsed_of joinpath routes_root extract health_prefixes in
  let parsed' := parsed_of joinpath routes_root extract' health_prefixes in
  _resolve_module_file parent joinpath path_exists routes_root file
    (NestCall.module edge) = None →
  ParsedRouterFile.nests (parsed file) = before ++ edge :: after →
  ParsedRouterFile.nests (parsed' file) = before ++ after →
  ParsedRouterFile.endpoints (parsed' file)
    = ParsedRouterFile.endpoints (parsed file) →
  (∀ p, p ≠ file → parsed' p = parsed p) →
  forget (walk parent joinpath path_exists routes_root extract health_prefixes
            fuel path prefix (WalkState ∅ stack0))
  = forget (walk parent joinpath path_exists routes_root extract' health_prefixes
              fuel path prefix (WalkState ∅ stack0)).
Proof.
  intros parsed parsed' Hnone Hnests Hnests' Heps Hother.
  destruct (walk_refines parent joinpath path_exists routes_root
              extract health_prefixes fuel path prefix (WalkState ∅ stack0))
    as [-> _]; [apply cache_ok_empty|].
  destruct (walk_refines parent joinpath path_exists routes_root
              extract' health_prefixes fuel path prefix (WalkState ∅ stack0))
    as [-> _]; [apply cache_ok_empty|].
  by apply (walk_uncached_skip parent joinpath path_exists routes_root
              parsed parsed' file before after edge).
Qed.

Lemma walk_skips_unresolved_witness :
  forget (Demo.walk Demo.extract 6 Demo.mod_rs (lit "") (WalkState ∅ []))
  = forget (Demo.walk Demo.extract_pruned 6 Demo.mod_rs (lit "") (WalkState ∅ [])).
Proof.
  apply (walk_skips_unresolved PurePath.parent PurePath.joinpath
           Demo.path_exists Demo.routes_root
           Demo.extract Demo.extract_pruned Demo.health_prefixes
           Demo.mod_rs [Demo.nest "/a" "a"] [Demo.nest "/health" "health"]
           (Demo.nest "/ghost" "ghost")).
  - reflexivity.
  - reflexivity.
  - reflexivity.
  - reflexivity.
  - intros p Hp. unfold parsed_of, parse_file, Demo.extract_pruned. simpl.
    rewrite !(bool_decide_eq_false_2 (p = _)); done.
Defined.

(** ** Coverage arithmetic *)

Lemma f100_literal : f100 = float_of_int 100.
Proof. reflexivity. Qed.

(** C8. The coverage is [100.0] for an empty contract set, whatever the
    router set, and otherwise the float quotient of the number of covered
    endpoints by the size of the contract set, times [100.0]. *)
Theorem coverage_percent :
  (∀ contract rust : gset Endpoint.t,
     coverage contract rust =
       if bool_decide (contract = ∅) then f100
       else float_mul
              (float_div (float_of_int (Z.of_nat (size (contract ∩ rust))))
                         (float_of_int (Z.of_nat (size contract))))
              f100) ∧
  (∀ rust : gset Endpoint.t, coverage ∅ rust = f100) ∧
  coverage contract_example router_example = f50.
Proof.
  split_and!.
  - intros contract rust. unfold coverage, _percent.
    case_bool_decide as Hc.
    + subst contract. by rewrite size_empty.
    + assert (size contract ≠ 0%nat).
      { apply size_non_empty_iff. by intros ?%leibniz_equiv. }
      by rewrite (proj2 (Z.eqb_neq _ 0)) by lia.
  - intros rust. unfold coverage, _percent. by rewrite size_empty.
  - by vm_compute.
Qed.

(** * Further properties *)

(** ** String literals *)

Section literal_facts.

Implicit Types s acc rest ws : str.

Lemma replace_pair_cons_other a b by_ c s :
  c ≠ a → replace_pair a b by_ (c :: s) = c :: replace_pair a b by_ s.
Proof.
  intros Hc. destruct s as [|d s]; [done|].
  cbn [replace_pair]. by rewrite (proj2 (chr_eqb_false c a)).
Qed.

Lemma replace_pair_cons_miss a b by_ d s :
  d ≠ b → replace_pair a b by_ (a :: d :: s) = a :: replace_pair a b by_ (d :: s).
Proof.
  intros Hd. cbn [replace_pair].
  by rewrite (proj2 (chr_eqb_false d b)), andb_false_r.
Qed.

Lemma replace_pair_cons_hit a b by_ s :
  replace_pair a b by_ (a :: b :: s) = by_ ++ replace_pair a b by_ s.
Proof.
  cbn [replace_pair].
  by rewrite (proj2 (chr_eqb_true a a)), (proj2 (chr_eqb_true b b)).
Qed.

(** The text with its quotes escaped and its backslashes as they are: what the
    first [replace] leaves of an escaped text. *)
Lemma unescape_first_pass s :
  replace_pair bslash bslash [bslash] (rust_escape s)
  = flat_map (λ c, if chr_eqb c dquote then [bslash; c] else [c]) s.
Proof.
  induction s as [|c s IH]; [done|]. cbn [rust_escape flat_map].
  destruct (chr_eqb c bslash) eqn:Hb; cbn [orb].
  - apply chr_eqb_true in Hb as ->.
    rewrite replace_pair_cons_hit, IH. done.
  - apply chr_eqb_false in Hb. destruct (chr_eqb c dquote) eqn:Hq.
    + apply chr_eqb_true in Hq as ->.
      rewrite replace_pair_cons_miss by done.
      rewrite replace_pair_cons_other by done. by rewrite IH.
    + rewrite replace_pair_cons_other by done. by rewrite IH.
Qed.

Lemma unescape_second_pass s :
  replace_pair bslash dquote [dquote]
    (flat_map (λ c, if chr_eqb c dquote then [bslash; c] else [c]) s) = s.
Proof.
  induction s as [|c s IH]; [done|]. cbn [flat_map].
  destruct (chr_eqb c dquote) eqn:Hq.
  - apply chr_eqb_true in Hq as ->. cbn [app].
    rewrite replace_pair_cons_hit, IH. done.
  - apply chr_eqb_false in Hq. cbn [app].
    destruct (decide (c = bslash)) as [->|Hb].
    + destruct s as [|d s]; [done|]. cbn [flat_map] in IH |- *.
      destruct (chr_eqb d dquote) eqn:Hd; cbn [app] in IH |- *.
      * rewrite replace_pair_cons_miss by done. by rewrite IH.
      * apply chr_eqb_false in Hd.
        rewrite replace_pair_cons_miss by done. by rewrite IH.
    + rewrite replace_pair_cons_other by done. by rewrite IH.
Qed.

Lemma unescape_rust_escape s : _unescape_rust_string (rust_escape s) = s.
Proof.
  unfold _unescape_rust_string.
  by rewrite unescape_first_pass, unescape_second_pass.
Qed.

Lemma literal_body_escape s acc rest :
  literal_body (rust_escape s ++ dquote :: rest) acc = Some (acc ++ rust_escape s).
Proof.
  revert acc. induction s as [|c s IH]; intros acc.
  - cbn. by rewrite app_nil_r.
  - cbn [rust_escape].
    destruct (chr_eqb c bslash) eqn:Hb; cbn [orb].
    + apply chr_eqb_true in Hb as ->. cbn. rewrite IH.
      by rewrite <- app_assoc.
    + destruct (chr_eqb c dquote) eqn:Hq.
      * apply chr_eqb_true in Hq as ->. cbn. rewrite IH.
        by rewrite <- app_assoc.
      * cbn. rewrite Hq, Hb, IH. by rewrite <- app_assoc.
Qed.

Lemma lstrip_spaces ws s :
  Forall (λ c, is_space c = true) ws → lstrip_if is_space (ws ++ s) = lstrip_if is_space s.
Proof.
  induction 1 as [|c ws Hc _ IH]; [done|]. cbn. by rewrite Hc.
Qed.

Lemma literal_body_no_quote_aux s :
  (∀ acc, dquote ∉ s → literal_body s acc = None) ∧
  (∀ c acc, dquote ∉ c :: s → literal_body (c :: s) acc = None).
Proof.
  induction s as [|d s [IH1 IH2]].
  - split; [done|]. intros c acc Hq. cbn [literal_body].
    rewrite (proj2 (chr_eqb_false c dquote))
      by (intros ->; apply Hq; by left).
    by destruct (chr_eqb c bslash).
  - split; [intros acc; apply IH2|]. intros c acc Hq. cbn [literal_body].
    rewrite (proj2 (chr_eqb_false c dquote))
      by (intros ->; apply Hq; by left).
    destruct (chr_eqb c bslash).
    + destruct (chr_eqb d newline); [done|]. apply IH1.
      intros Hin. apply Hq. by do 2 right.
    + apply IH2. intros Hin. apply Hq. by right.
Qed.

Lemma literal_body_no_quote s acc : dquote ∉ s → literal_body s acc = None.
Proof. apply literal_body_no_quote_aux. Qed.

End literal_facts.

(** X1. A literal written with Rust's escapes for backslash and quote is
    extracted and decoded to the text it stands for, whatever whitespace
    precedes it and whatever follows its closing quote. *)
Theorem extract_string_literal_decodes (ws s rest : str) :
  Forall (λ c, is_space c = true) ws →
  _extract_string_literal (ws ++ quoted (rust_escape s) ++ rest) = Some s.
Proof.
  intros Hws. unfold _extract_string_literal, quoted.
  rewrite lstrip_spaces by done. cbn [app lstrip_if].
  change (is_space dquote) with false. cbn iota.
  rewrite (proj2 (chr_eqb_true dquote dquote)) by done.
  rewrite <- app_assoc. cbn [app].
  rewrite literal_body_escape. cbn [app fmap option_fmap option_map].
  by rewrite unescape_rust_escape.
Qed.

Lemma extract_string_literal_decodes_witness :
  _extract_string_literal
    (lit "  " ++ quoted (rust_escape (lit "/a\b" ++ [dquote])) ++ lit ", get(h)")
  = Some (lit "/a\b" ++ [dquote]).
Proof.
  apply (extract_string_literal_decodes
           (lit "  ") (lit "/a\b" ++ [dquote]) (lit ", get(h)")).
  repeat constructor.
Defined.

(** From the inside of a literal, [literal_body] finds a group only when
    some prefix of the text leaves the literal. *)
Lemma literal_body_closes n : ∀ s acc r d, (length s ≤ n)%nat →
  literal_body s acc = Some r →
  ∃ k, lex_in_str (foldl lex_step (Lex d true false) (take k s)) = false.
Proof.
  induction n as [|n IH]; intros s acc r d Hn.
  { destruct s; [done|cbn in Hn; lia]. }
  destruct s as [|c s']; [done|]. cbn [literal_body]. cbn [length] in Hn.
  destruct (chr_eqb c dquote) eqn:Eq.
  { intros _. exists 1%nat. cbn [take foldl lex_step].
    destruct (chr_eqb c bslash) eqn:Eb; [|by rewrite Eq].
    apply chr_eqb_true in Eq, Eb. by rewrite Eq in Eb. }
  destruct (chr_eqb c bslash) eqn:Eb.
  - destruct s' as [|e s'']; [done|].
    destruct (chr_eqb e newline); [done|]. cbn [length] in Hn.
    intros [k Hk]%(IH _ _ _ d); [|lia].
    exists (S (S k)). cbn [take foldl lex_step]. by rewrite Eb.
  - intros [k Hk]%(IH _ _ _ d); [|lia].
    exists (S k). cbn [take foldl lex_step]. by rewrite Eb, Eq.
Qed.

(** X2. An expression whose opening quote is never closed has no literal:
    when every prefix of the text after the quote leaves the scan inside the
    literal, whether the text has no further quote or only escaped ones. *)
Theorem extract_string_literal_unterminated (ws s : str) :
  Forall (λ c, is_space c = true) ws →
  (∀ k, lex_in_str (lex_after (dquote :: take k s)) = true) →
  _extract_string_literal (ws ++ dquote :: s) = None.
Proof.
  intros Hws Hopen. unfold _extract_string_literal.
  rewrite lstrip_spaces by done. cbn [lstrip_if].
  change (is_space dquote) with false. cbn iota.
  rewrite (proj2 (chr_eqb_true dquote dquote)) by done.
  destruct (literal_body s []) as [r|] eqn:E; [|done].
  destruct (literal_body_closes _ _ _ _ 0 (le_n _) E) as [k Hk].
  specialize (Hopen k). unfold lex_after in Hopen. cbn [foldl] in Hopen.
  change (lex_step lex_init dquote) with (Lex 0 true false) in Hopen. congruence.
Qed.

Lemma extract_string_literal_unterminated_witness :
  _extract_string_literal
    (lit " " ++ dquote :: lit "a\" ++ dquote :: lit ", b") = None.
Proof.
  apply (extract_string_literal_unterminated
           (lit " ") (lit "a\" ++ dquote :: lit ", b")).
  - repeat constructor.
  - intros k. do 6 (destruct k as [|k]; [reflexivity|]). by destruct k.
Defined.

(** ** The call scanner on well-formed calls *)

Section well_formed_calls.

Implicit Types w a b pre post text needle : str.

Lemma nested_app w1 w2 st :
  nested (w1 ++ w2) st = nested w1 st ≫= nested w2.
Proof.
  revert st. induction w1 as [|ch w1 IH]; intros st; [done|].
  cbn [app nested]. by destruct (_ && _).
Qed.

Lemma nested_lex_after w st st' :
  nested w st = Some st' → st' = foldl lex_step st w.
Proof.
  revert st. induction w as [|ch w IH]; intros st; cbn [nested foldl].
  - by intros [= <-].
  - destruct (_ && _); [done|]. apply IH.
Qed.

Lemma well_nested_top_level w :
  well_nested w = true →
  nested w lex_init = Some (lex_after w) ∧ top_level (lex_after w) = true.
Proof.
  unfold well_nested. destruct (nested w lex_init) as [st|] eqn:E; [|done].
  intros Htop. pose proof (nested_lex_after _ _ _ E) as ->. done.
Qed.

(** Outside a literal the escape flag is down. *)
Lemma lex_after_esc w :
  lex_in_str (lex_after w) = false → lex_esc (lex_after w) = false.
Proof.
  induction w as [|ch w IH] using rev_ind; [done|].
  rewrite lex_after_snoc.
  destruct (lex_after w) as [d [] []]; cbn in *; repeat case_match; cbn; auto.
Qed.

Lemma top_level_inv st :
  top_level st = true → lex_depth st = 0 ∧ lex_in_str st = false.
Proof.
  unfold top_level. intros [Hs Hd]%andb_true_iff.
  apply negb_true_iff in Hs. by apply Z.eqb_eq in Hd.
Qed.

Lemma well_nested_init w :
  well_nested w = true → nested w lex_init = Some lex_init.
Proof.
  intros Hw. destruct (well_nested_top_level w Hw) as [Hn Ht].
  rewrite Hn. f_equal. apply top_level_inv in Ht as [Hd Hs].
  pose proof (lex_after_esc w Hs) as He.
  destruct (lex_after w); cbn in *; by subst.
Qed.

Lemma lex_step_depth_nonneg st ch :
  0 ≤ lex_depth st → 0 ≤ lex_depth (lex_step st ch).
Proof.
  destruct st as [d [] []]; cbn; intros Hd; repeat case_match; cbn; lia.
Qed.

(** On well-nested text the inner loop of the scanner runs through: it
    reaches the end of the text with the context [nested] computes. *)
Lemma args_end_nested w tail j st st' :
  nested w st = Some st' → 0 ≤ lex_depth st →
  Calls.args_end (w ++ tail) j (lex_depth st + 1) (lex_in_str st) (lex_esc st)
  = Calls.args_end tail (j + length w) (lex_depth st' + 1)
      (lex_in_str st') (lex_esc st').
Proof.
  revert j st. induction w as [|ch w IH]; intros j st; cbn [nested].
  - intros [= <-] _. cbn. by rewrite Nat.add_0_r.
  - destruct (negb (lex_in_str st) && chr_eqb ch rparen && (lex_depth st =? 0))
      eqn:Hstop; [done|].
    intros Hn Hd.
    pose proof (lex_step_depth_nonneg st ch Hd) as Hd'.
    cbn [app length].
    replace (j + S (length w))%nat with (S j + length w)%nat by lia.
    rewrite <- (IH (S j) (lex_step st ch) Hn Hd').
    cbn [Calls.args_end].
    replace (lex_depth st + 1 >? 0) with true by (symmetry; apply Z.gtb_lt; lia).
    cbn [negb].
    destruct st as [d [] []]; cbn in *; repeat case_match; cbn in *;
      try reflexivity; try discriminate.
    all: try (replace (d + 1 - 1) with (Z.max 0 (d - 1) + 1); [done|]).
    all: try (replace (d + 1 + 1) with (d + 1 + 1) by done; done).
    all: apply Z.eqb_neq in Hstop; lia.
Qed.

Lemma args_end_close post j :
  fst (Calls.args_end (rparen :: post) j 1 false false) = S j.
Proof.
  cbn [Calls.args_end].
  change (chr_eqb rparen dquote) with false.
  change (chr_eqb rparen lparen) with false.
  change (chr_eqb rparen rparen) with true.
  cbn. by destruct post.
Qed.

Lemma startswith_app p s : startswith (p ++ s) p = true.
Proof.
  induction p as [|c p IH]; cbn; [apply startswith_nil|].
  by rewrite (proj2 (chr_eqb_true c c)).
Qed.

Lemma startswith_inv s p : startswith s p = true → s = p ++ drop (length p) s.
Proof.
  revert s. induction p as [|c p IH]; intros [|d s]; cbn; try done.
  intros [->%chr_eqb_true Hp]%andb_true_iff. f_equal. by apply IH.
Qed.

Lemma find_from_inv needle s i0 idx :
  Calls.find_from needle s i0 = Some idx →
  (i0 ≤ idx)%nat ∧ startswith (drop (idx - i0) s) needle = true.
Proof.
  revert i0. induction s as [|d s IH]; intros i0; cbn [Calls.find_from].
  - destruct (startswith [] needle) eqn:E; [|done].
    intros [= <-]. by rewrite Nat.sub_diag.
  - destruct (startswith (d :: s) needle) eqn:E.
    + intros [= <-]. by rewrite Nat.sub_diag.
    + intros [Hle Hs]%IH. split; [lia|].
      by replace (idx - i0)%nat with (S (idx - S i0)) by lia.
Qed.

(** Where [find] finds the token, the token is. *)
Lemma find_inv text needle i idx :
  Calls.find text needle i = Some idx →
  text = take idx text ++ needle ++ drop (idx + length needle) text.
Proof.
  unfold Calls.find. case_decide as Hi; [|done].
  intros [Hle Hs]%find_from_inv. rewrite drop_drop in Hs.
  replace (i + (idx - i))%nat with idx in Hs by lia.
  apply startswith_inv in Hs. rewrite drop_drop in Hs.
  rewrite <- Hs. by rewrite take_drop.
Qed.

(** One round of the outer loop at a well-formed call: its two arguments are
    appended and the scan resumes after its closing parenthesis. *)
Lemma loop_well_formed fuel needle pre a b post i calls :
  let text := pre ++ needle ++ a ++ comma :: b ++ rparen :: post in
  Calls.find text needle i = Some (length pre) →
  well_nested a = true → (∀ j, ¬ top_level_comma_at a j) →
  well_nested b = true →
  Calls.loop (S fuel) text needle i calls
  = Calls.loop fuel text needle (length text - length post) (calls ++ [(a, b)]).
Proof.
  intros text Hfind Ha Hnone Hb.
  destruct (well_nested_top_level a Ha) as [_ Hta].
  pose proof (well_nested_init a Ha) as Hna.
  pose proof (well_nested_init b Hb) as Hnb.
  set (args := a ++ comma :: b).
  assert (Hnargs : nested args lex_init = Some lex_init).
  { unfold args. rewrite nested_app, Hna. exact Hnb. }
  assert (Hdrop : drop (length pre + length needle) text
                  = args ++ rparen :: post).
  { unfold text, args. rewrite (app_assoc pre needle).
    rewrite drop_app_length'; [|by rewrite length_app].
    by rewrite <- app_assoc. }
  assert (Hend : fst (Calls.args_end (drop (length pre + length needle) text)
                        (length pre + length needle) 1 false false)
                 = (length pre + length needle + length args + 1)%nat).
  { rewrite Hdrop.
    rewrite (args_end_nested args (rparen :: post) _ lex_init _ Hnargs)
      by done.
    change (lex_depth lex_init + 1) with 1. cbn [lex_init lex_in_str lex_esc].
    rewrite args_end_close. lia. }
  cbn [Calls.loop]. rewrite Hfind. cbv zeta. rewrite Hend.
  assert (Hslice : slice text (length pre + length needle)
                     (length pre + length needle + length args + 1 - 1) = args).
  { unfold slice. rewrite Hdrop.
    replace (length pre + length needle + length args + 1 - 1
             - (length pre + length needle))%nat with (length args) by lia.
    by rewrite take_app_length. }
  rewrite Hslice. unfold args.
  rewrite split_top_level_comma_join by done.
  f_equal. unfold text. rewrite !length_app. cbn [length].
  rewrite !length_app. cbn [length]. lia.
Qed.

(** Every pair kept by the loop is the split of text that follows an
    occurrence of the token. *)
Lemma loop_sound text needle (P : str * str → Prop) fuel i calls result :
  (∀ a b pre rest,
     text = pre ++ needle ++ a ++ comma :: b ++ rest →
     (∀ j, ¬ top_level_comma_at a j) → P (a, b)) →
  Forall P calls →
  Calls.loop fuel text needle i calls = Returns result →
  Forall P result.
Proof.
  intros HP. revert i calls.
  induction fuel as [|fuel IH]; intros i calls Hcalls; [done|].
  cbn [Calls.loop].
  destruct (Calls.find text needle i) as [idx|] eqn:Hfind;
    [|by intros [= <-]].
  cbv zeta. apply IH.
  pose proof (split_top_level_comma_cases
                (slice text (idx + length needle)
                   (fst (Calls.args_end (drop (idx + length needle) text)
                           (idx + length needle) 1 false false) - 1))) as Hs.
  destruct (_split_top_level_comma _) as [[a b]|]; [|done].
  apply Forall_app. split; [done|]. apply Forall_singleton.
  destruct Hs as (k & [Hk Htop] & Hfirst & -> & ->).
  apply take_drop_middle in Hk. unfold slice in Hk.
  apply (HP _ _ (take idx text)
            (drop (fst (Calls.args_end (drop (idx + length needle) text)
                          (idx + length needle) 1 false false) - 1
                   - (idx + length needle))
               (drop (idx + length needle) text))).
  - rewrite (find_inv _ _ _ _ Hfind) at 1. f_equal. f_equal.
    rewrite app_comm_cons, app_assoc.
    unfold slice. rewrite Hk. by rewrite take_drop.
  - intros j [Hj1 Hj2].
    assert (Hlt : (j < k)%nat).
    { apply lookup_lt_Some in Hj1. rewrite length_take in Hj1. lia. }
    apply (Hfirst j Hlt). split.
    + by rewrite lookup_take_lt in Hj1.
    + rewrite take_take in Hj2.
      by replace (j `min` k)%nat with j in Hj2 by lia.
Qed.

End well_formed_calls.

(** X3. A well-formed two-argument call is returned with exactly its two
    arguments: when the first occurrence of the token is followed by
    well-nested text without a top-level comma, a comma, well-nested text and
    the closing parenthesis, and the token does not occur after that, the
    scanner returns the one pair of the two texts. *)
Theorem extract_two_arg_calls_well_formed (needle pre a b post : str) :
  let text := pre ++ needle ++ a ++ comma :: b ++ rparen :: post in
  Calls.find text needle 0 = Some (length pre) →
  Calls.find text needle (length text - length post) = None →
  well_nested a = true → (∀ j, ¬ top_level_comma_at a j) →
  well_nested b = true →
  _extract_two_arg_calls text needle = Returns [(a, b)].
Proof.
  intros text Hfind Hnomore Ha Hnone Hb. unfold _extract_two_arg_calls.
  rewrite (loop_well_formed _ needle pre a b post 0 [] Hfind Ha Hnone Hb).
  fold text. cbn [Calls.loop]. by rewrite Hnomore.
Qed.

Lemma extract_two_arg_calls_well_formed_witness :
  _extract_two_arg_calls
    (lit "Router::new()" ++ lit ".route(" ++ quoted (lit "/a,b)") ++
     comma :: lit " get(list).post(add)" ++ rparen :: lit ";")
    (lit ".route(")
  = Returns [(quoted (lit "/a,b)"), lit " get(list).post(add)")].
Proof.
  apply (extract_two_arg_calls_well_formed (lit ".route(") (lit "Router::new()")
           (quoted (lit "/a,b)")) (lit " get(list).post(add)") (lit ";")).
  - reflexivity.
  - reflexivity.
  - reflexivity.
  - exact (split_top_level_comma_cases (quoted (lit "/a,b)"))).
  - reflexivity.
Defined.

(** X4. Every pair the scanner returns stands in the text: right after an
    occurrence of the token come the first part, a comma and the second part;
    and the first part has no top-level comma. *)
Theorem extract_two_arg_calls_sound (text needle : str)
    (calls : list (str * str)) (a b : str) :
  _extract_two_arg_calls text needle = Returns calls →
  (a, b) ∈ calls →
  (∀ j, ¬ top_level_comma_at a j) ∧
  ∃ pre rest, text = pre ++ needle ++ a ++ comma :: b ++ rest.
Proof.
  intros Hret Hin.
  assert (Hall : Forall (λ p : str * str,
                   (∀ j, ¬ top_level_comma_at p.1 j) ∧
                   ∃ pre rest, text = pre ++ needle ++ p.1 ++ comma :: p.2 ++ rest)
                 calls).
  { apply (loop_sound text needle _ (S (S (length text))) 0 []);
      [|constructor|exact Hret].
    intros a' b' pre rest Htext Hnone. split; [done|]. by exists pre, rest. }
  rewrite Forall_forall in Hall. exact (Hall (a, b) Hin).
Qed.

Lemma extract_two_arg_calls_sound_witness :
  (∀ j, ¬ top_level_comma_at (quoted (lit "/a,b)")) j) ∧
  ∃ pre rest,
    route_call_text
    = pre ++ lit ".route(" ++ quoted (lit "/a,b)") ++
      comma :: lit " handler(x, y)" ++ rest.
Proof.
  apply (extract_two_arg_calls_sound route_call_text (lit ".route(")
           [(quoted (lit "/a,b)"), lit " handler(x, y)")]).
  - reflexivity.
  - by left.
Defined.

(** X5. Text followed by a comma is split off whole exactly when it ends at
    top level and has no top-level comma of its own. *)
Theorem split_top_level_comma_whole (l r : str) :
  _split_top_level_comma (l ++ comma :: r) = Some (l, r) ↔
  top_level (lex_after l) = true ∧ ∀ j, ¬ top_level_comma_at l j.
Proof.
  split; [|intros [Htop Hnone]; by apply split_top_level_comma_join].
  intros Hs. pose proof (split_top_level_comma_cases (l ++ comma :: r)) as Hc.
  rewrite Hs in Hc. destruct Hc as (i & [Hi Htop] & Hfirst & Hl & _).
  assert (i = length l) as ->.
  { apply lookup_lt_Some in Hi. apply (f_equal length) in Hl.
    rewrite length_take in Hl. lia. }
  rewrite take_app_length in Htop. split; [done|].
  intros j Hj.
  assert (j < length l)%nat.
  { destruct Hj as [Hj _]. by apply lookup_lt_Some in Hj. }
  apply (Hfirst j); [done|]. by apply top_level_comma_at_app_l.
Qed.

(** ** The path composer on canonical paths *)

Section join_more.

Implicit Types s p l : str.

Lemma ts_rstrip s : endswith (rstrip s slash) (lit "/") = false.
Proof.
  induction s as [|d s IH]; [done|]. cbn [rstrip].
  destruct (rstrip s slash) as [|c r] eqn:E.
  - destruct (chr_eqb d slash) eqn:Hd; [done|].
    change [d] with ([] ++ [d]). by rewrite ts_snoc.
  - change (d :: c :: r) with ([d] ++ c :: r). by rewrite ts_app.
Qed.

Lemma startswith_refl s : startswith s s = true.
Proof. rewrite <- (app_nil_r s) at 1. apply startswith_app. Qed.

End join_more.

(** X6. Canonical paths are closed under composition, with the root as unit
    on both sides; and composing a canonical path under the empty prefix
    leaves it as it is. *)
Theorem join_paths_canonical (p l : str) :
  canonical p = true → canonical l = true →
  canonical (_join_paths p l) = true ∧
  _join_paths p (lit "/") = p ∧
  _join_paths (lit "/") l = l ∧
  _join_paths (lit "") l = l.
Proof.
  intros Hp Hl.
  pose proof (canonical_leaf_ok l Hl) as Hlo.
  assert (Hnl : nl l = l) by (apply nl_hs; by apply canonical_spec in Hl as [? _]).
  split_and!.
  - rewrite join_paths_glue, np_of_canonical, Hnl by done.
    by apply glue_canonical.
  - rewrite join_paths_glue, np_of_canonical by done. apply glue_root_r.
  - rewrite join_paths_glue, Hnl by done. apply glue_root_l.
  - rewrite join_paths_glue, Hnl by done. apply glue_root_l.
Qed.

Lemma join_paths_canonical_witness :
  canonical (_join_paths (lit "/api/v1") (lit "/users")) = true ∧
  _join_paths (lit "/api/v1") (lit "/") = lit "/api/v1" ∧
  _join_paths (lit "/") (lit "/users") = lit "/users" ∧
  _join_paths (lit "") (lit "/users") = lit "/users".
Proof.
  apply (join_paths_canonical (lit "/api/v1") (lit "/users")); reflexivity.
Defined.

Lemma rstrip_slashes s : Forall (λ c, c = slash) s → rstrip s slash = [].
Proof.
  induction 1 as [|c s -> _ IH]; [done|]. cbn [rstrip]. rewrite IH.
  by rewrite (proj2 (chr_eqb_true slash slash)).
Qed.

(** X7. Under the empty prefix a path of two or more slashes comes out
    empty, and every other path comes out in canonical form (a leading
    slash, no trailing slash unless it is the root). *)
Theorem join_paths_empty_prefix_canonical (path : str) :
  ((2 ≤ length path)%nat ∧ Forall (λ c, c = slash) path →
   _join_paths (lit "") path = []) ∧
  (¬ ((2 ≤ length path)%nat ∧ Forall (λ c, c = slash) path) →
   canonical (_join_paths (lit "") path) = true).
Proof.
  split.
  - intros [Hlen Hall]. change (lit "") with (@nil char).
    rewrite join_paths_empty.
    destruct path as [|c path]; [cbn in Hlen; lia|].
    rewrite bool_decide_eq_false_2 by done.
    pose proof Hall as Hall'. apply Forall_cons in Hall' as [-> Htail].
    assert (nl (slash :: path) = slash :: path) as ->.
    { unfold nl. by rewrite hs_cons, (proj2 (chr_eqb_true slash slash)). }
    rewrite bool_decide_eq_true_2.
    2:{ destruct path; [cbn in Hlen; lia|done]. }
    assert (endswith (slash :: path) (lit "/") = true) as ->.
    { destruct (snoc_case (slash :: path)) as [?|(q & c & E)]; [done|].
      rewrite E, ts_snoc. apply chr_eqb_true.
      rewrite E in Hall. by apply Forall_app in Hall as [_ [-> _]%Forall_cons]. }
    cbn [andb]. by apply rstrip_slashes.
  - intros Hnot.
    destruct (join_paths_head [] path) as [(_ & Hlen & Hall & Hnil)|Hh].
    { by destruct Hnot. }
    apply canonical_spec. split; [done|].
    change (lit "") with (@nil char) in *.
    rewrite join_paths_empty in Hh |- *.
    case_bool_decide; [by left|].
    destruct (bool_decide (nl path ≠ lit "/")) eqn:Hr; cbn [andb] in *.
    + destruct (endswith (nl path) (lit "/")) eqn:Ht.
      * right. apply ts_rstrip.
      * by right.
    + left. apply bool_decide_eq_false in Hr. by apply dec_stable in Hr.
Qed.

(** X8. Under a non-empty prefix the composed path begins with the prefix in
    its normal form: with a leading slash and without one trailing slash. *)
Theorem join_paths_under_prefix (prefix path : str) :
  prefix ≠ [] → startswith (_join_paths prefix path) (np prefix) = true.
Proof.
  intros Hp. rewrite join_paths_nonempty by done.
  case_bool_decide; [apply startswith_refl|].
  case_bool_decide as Hr; [|apply startswith_app].
  rewrite Hr. apply hs_nl.
Qed.

Lemma join_paths_under_prefix_witness :
  startswith (_join_paths (lit "api/") (lit "users/")) (np (lit "api/")) = true.
Proof.
  apply (join_paths_under_prefix (lit "api/") (lit "users/")). discriminate.
Defined.

(** ** More on the module resolver *)

Section resolver_more.
Context {Path : Type} `{EqDecision Path}.
Variable parent : Path → Path.
Variable joinpath : Path → list str → Path.
Variable path_exists : Path → bool.

Local Abbreviation resolve :=
  (_resolve_module_file parent joinpath path_exists).

Lemma strip_super_suffix parts base_dir :
  (strip_super parent parts base_dir).1 `suffix_of` parts.
Proof.
  revert base_dir. induction parts as [|part parts IH]; intros base_dir;
    cbn [strip_super]; [done|].
  case_bool_decide; [|done]. by apply suffix_cons_r.
Qed.

Lemma strip_self_suffix parts : strip_self parts `suffix_of` parts.
Proof.
  induction parts as [|part parts IH]; cbn [strip_self]; [done|].
  case_bool_decide; [|done]. by apply suffix_cons_r.
Qed.

Lemma resolve_parts_candidate routes_root base_dir parts0 found :
  resolve_parts parent joinpath path_exists routes_root base_dir parts0
    = Some found →
  ∃ dir parts,
    parts ≠ [] ∧ parts `suffix_of` parts0 ∧
    found ∈ add_candidates joinpath parts dir.
Proof.
  unfold resolve_parts.
  pose proof (strip_super_suffix parts0 base_dir) as Hsuf.
  destruct (strip_super parent parts0 base_dir) as [parts1 base1].
  cbn [fst] in Hsuf.
  pose proof (strip_self_suffix parts1) as Hsuf'.
  case_bool_decide as Hne; [done|].
  destruct (list_find _ _) as [[k c]|] eqn:Hfind; [|done].
  intros [= <-]. apply list_find_Some in Hfind as (Hk & _ & _).
  apply list_elem_of_lookup_2 in Hk.
  apply elem_of_app in Hk as [Hk|Hk].
  - exists base1, (strip_self parts1). split_and!; [done|by etrans|done].
  - case_bool_decide; [|by apply elem_of_nil in Hk].
    exists routes_root, (strip_self parts1). split_and!; [done|by etrans|done].
Qed.

Lemma strip_super_replicate n parts base_dir :
  (strip_super parent (replicate n (lit "super") ++ parts) base_dir).1
  = (strip_super parent parts (Nat.iter n parent base_dir)).1.
Proof.
  revert base_dir. induction n as [|n IH]; intros base_dir; [done|].
  cbn [replicate app strip_super].
  rewrite bool_decide_eq_true_2 by done. rewrite IH.
  by rewrite Nat.iter_succ_r.
Qed.

Lemma strip_self_replicate k : strip_self (replicate k (lit "self")) = [].
Proof.
  induction k as [|k IH]; [done|]. cbn [replicate strip_self].
  by rewrite bool_decide_eq_true_2.
Qed.

Lemma strip_super_selfs k base_dir :
  (strip_super parent (replicate k (lit "self")) base_dir).1
  = replicate k (lit "self").
Proof. by destruct k. Qed.

Lemma lstrip_app_spaces (m ws : str) :
  Forall (λ c, is_space c = true) ws →
  lstrip_if is_space (m ++ ws) =
    match lstrip_if is_space m with
    | [] => []
    | r => r ++ ws
    end.
Proof.
  intros Hws. induction m as [|c m IH]; cbn [app lstrip_if].
  - rewrite <- (app_nil_r ws). by rewrite lstrip_spaces.
  - destruct (is_space c); [done|]. done.
Qed.

Lemma strip_spaces (ws1 m ws2 : str) :
  Forall (λ c, is_space c = true) ws1 → Forall (λ c, is_space c = true) ws2 →
  strip (ws1 ++ m ++ ws2) = strip m.
Proof.
  intros H1 H2. unfold strip. rewrite lstrip_spaces by done.
  rewrite lstrip_app_spaces by done.
  destruct (lstrip_if is_space m) as [|c r] eqn:E; [done|].
  rewrite reverse_app, lstrip_spaces; [done|].
  by apply Forall_reverse.
Qed.

End resolver_more.

(** X9. Whatever the resolver returns exists on disk and is one of the two
    candidates, [<last>.rs] or [<last>/mod.rs], built in some directory from a
    non-empty tail of the reference's segments. *)
Theorem resolve_module_file_sound {Path : Type} `{EqDecision Path}
    (parent : Path → Path) (joinpath : Path → list str → Path)
    (path_exists : Path → bool) (routes_root current_file found : Path)
    (module : str) :
  _resolve_module_file parent joinpath path_exists routes_root current_file module
    = Some found →
  path_exists found = true ∧
  ∃ dir parts,
    parts ≠ [] ∧ parts `suffix_of` module_parts (strip module) ∧
    found ∈ add_candidates joinpath parts dir.
Proof.
  intros Hres. split; [by eapply resolve_module_file_exists|].
  revert Hres. unfold _resolve_module_file.
  case_bool_decide; [done|]. case_bool_decide.
  - intros (dir & parts & Hne & Hsuf & Hin)%resolve_parts_candidate.
    exists dir, parts. split_and!; [done| |done].
    etrans; [exact Hsuf|]. apply suffix_drop.
  - case_bool_decide; [done|].
    intros (dir & parts & Hne & Hsuf & Hin)%resolve_parts_candidate.
    by exists dir, parts.
Qed.

Lemma resolve_module_file_sound_witness :
  Demo.path_exists Demo.a_rs = true ∧
  ∃ dir parts,
    parts ≠ [] ∧
    parts `suffix_of` module_parts (strip (lit "crate::routes::a")) ∧
    Demo.a_rs ∈ add_candidates PurePath.joinpath parts dir.
Proof.
  apply (resolve_module_file_sound PurePath.parent PurePath.joinpath
           Demo.path_exists Demo.routes_root Demo.b_rs Demo.a_rs
           (lit "crate::routes::a")).
  reflexivity.
Defined.

(** X10. A reference that names no module is unresolved whatever is on disk:
    a blank reference, one of separators only, or one made of [super]
    segments followed by [self] segments. *)
Theorem resolve_module_file_no_segment {Path : Type} `{EqDecision Path}
    (parent : Path → Path) (joinpath : Path → list str → Path)
    (path_exists : Path → bool) (routes_root current_file : Path)
    (module : str) (n k : nat) :
  module_parts (strip module)
    = replicate n (lit "super") ++ replicate k (lit "self") →
  _resolve_module_file parent joinpath path_exists routes_root current_file module
    = None.
Proof.
  intros Hparts. unfold _resolve_module_file. rewrite Hparts.
  case_bool_decide; [done|].
  rewrite (bool_decide_eq_false_2 (take 2 _ = _)); last first.
  { destruct n as [|n]; [destruct k as [|[|k]]|destruct n]; cbn; try done;
      destruct k; done. }
  rewrite (bool_decide_eq_false_2 (head _ = _)); last first.
  { destruct n; [destruct k|]; done. }
  unfold resolve_parts.
  pose proof (strip_super_replicate parent n (replicate k (lit "self"))
                (parent current_file)) as Hs.
  rewrite strip_super_selfs in Hs.
  destruct (strip_super parent _ _) as [parts1 base1]. cbn [fst] in Hs.
  subst parts1. rewrite strip_self_replicate. done.
Qed.

Lemma resolve_module_file_no_segment_witness :
  Demo.resolve Demo.a_rs (lit " super::super::self ") = None.
Proof.
  apply (resolve_module_file_no_segment PurePath.parent PurePath.joinpath
           Demo.path_exists Demo.routes_root Demo.a_rs
           (lit " super::super::self ") 2 1).
  reflexivity.
Defined.

(** X11. Nearest scope first: for a reference that does not begin with
    [crate], [super] or [self], the file [<last>.rs] beside the current file
    is the answer whenever it exists, whatever else exists. *)
Theorem resolve_module_file_nearest {Path : Type} `{EqDecision Path}
    (parent : Path → Path) (joinpath : Path → list str → Path)
    (path_exists : Path → bool) (routes_root current_file : Path)
    (module first : str) (others : list str) :
  let parts := module_parts (strip module) in
  let beside :=
    joinpath (parent current_file)
      (take (length parts - 1)%nat parts ++ [default [] (last parts) ++ lit ".rs"]) in
  parts = first :: others →
  first ≠ lit "crate" → first ≠ lit "super" → first ≠ lit "self" →
  path_exists beside = true →
  _resolve_module_file parent joinpath path_exists routes_root current_file module
    = Some beside.
Proof.
  intros parts beside Hparts Hc Hsu Hse Hex.
  unfold _resolve_module_file. fold parts.
  assert (strip module ≠ []).
  { intros Hnil. subst parts. by rewrite Hnil in Hparts. }
  rewrite (bool_decide_eq_false_2 (strip module = [])) by done.
  subst beside. clearbody parts. subst parts.
  rewrite (bool_decide_eq_false_2 (take 2 _ = _)); last first.
  { destruct others; cbn [take]; by intros [= ? ?]. }
  rewrite (bool_decide_eq_false_2 (head _ = _)) by (by intros [= ?]).
  unfold resolve_parts. cbn [strip_super].
  rewrite (bool_decide_eq_false_2 (first = lit "super")) by done.
  cbn [strip_self].
  rewrite (bool_decide_eq_false_2 (first = lit "self")) by done.
  rewrite (bool_decide_eq_false_2 (first :: others = [])) by done.
  unfold add_candidates at 1. cbn [app list_find].
  rewrite decide_True by done. done.
Qed.

Lemma resolve_module_file_nearest_witness :
  Demo.resolve Demo.a_rs (lit "b")
  = Some (PurePath.joinpath (PurePath.parent Demo.a_rs)
            (take (length (module_parts (strip (lit "b"))) - 1)%nat
               (module_parts (strip (lit "b")))
             ++ [default [] (last (module_parts (strip (lit "b")))) ++ lit ".rs"])).
Proof.
  apply (resolve_module_file_nearest PurePath.parent PurePath.joinpath
           Demo.path_exists Demo.routes_root Demo.a_rs (lit "b") (lit "b") []);
    by vm_compute.
Defined.

(** X12. Whitespace around a module reference does not change how it
    resolves. *)
Theorem resolve_module_file_spaces {Path : Type} `{EqDecision Path}
    (parent : Path → Path) (joinpath : Path → list str → Path)
    (path_exists : Path → bool) (routes_root current_file : Path)
    (before module after : str) :
  Forall (λ c, is_space c = true) before →
  Forall (λ c, is_space c = true) after →
  _resolve_module_file parent joinpath path_exists routes_root current_file
    (before ++ module ++ after)
  = _resolve_module_file parent joinpath path_exists routes_root current_file
      module.
Proof.
  intros Hb Ha. unfold _resolve_module_file. by rewrite strip_spaces.
Qed.

Lemma resolve_module_file_spaces_witness :
  Demo.resolve Demo.a_rs (lit "  " ++ lit "b" ++ lit " ")
  = Demo.resolve Demo.a_rs (lit "b").
Proof.
  apply (resolve_module_file_spaces PurePath.parent PurePath.joinpath
           Demo.path_exists Demo.routes_root Demo.a_rs
           (lit "  ") (lit "b") (lit " "));
    repeat constructor.
Defined.

(** ** More on the router tree walker *)

Section walker_uncached_more.
Context {Path : Type} `{EqDecision Path}.
Variable parent : Path → Path.
Variable joinpath : Path → list str → Path.
Variable path_exists : Path → bool.
Variable routes_root : Path.
Variable parse : Path → ParsedRouterFile.t.

Local Abbreviation resolve :=
  (_resolve_module_file parent joinpath path_exists routes_root).
Local Abbreviation nests_loop :=
  (walk_nests_uncached parent joinpath path_exists routes_root).
Local Abbreviation walk_from :=
  (walk_uncached parent joinpath path_exists routes_root parse).
Local Abbreviation reach :=
  (reaches parent joinpath path_exists routes_root parse).

(** What the loop returns was there before or was found by a recursive call
    on a file an edge resolves to; the stack comes back as it was. *)
Lemma walk_nests_sound rec (R : Path → str → Endpoint.t → Prop)
    path prefix stack nests endpoints result stk :
  (∀ file child_prefix found s',
     rec file child_prefix stack = Returns (found, s') →
     s' = stack ∧ ∀ e, e ∈ found → R file child_prefix e) →
  nests_loop rec path prefix nests endpoints stack = Returns (result, stk) →
  stk = stack ∧
  ∀ e, e ∈ result →
       e ∈ endpoints ∨
       ∃ nest file,
         nest ∈ nests ∧ resolve path (NestCall.module nest) = Some file ∧
         R file (_join_paths prefix (NestCall.prefix nest)) e.
Proof.
  intros Hrec. revert endpoints.
  induction nests as [|nest nests IH]; intros endpoints; cbn [walk_nests_uncached].
  - intros [= <- <-]. auto.
  - destruct (resolve path (NestCall.module nest)) as [file|] eqn:Hres.
    + destruct (rec file _ stack) as [[found s']| |] eqn:Hcall; cbn [obind];
        [|done..].
      destruct (Hrec _ _ _ _ Hcall) as [-> Hfound].
      intros [-> Hresult]%IH. split; [done|].
      intros e [[?|?]%elem_of_union|(n & f & Hn & Hf & Hr)]%Hresult.
      * by left.
      * right. exists nest, file. split_and!; [by left|done|by apply Hfound].
      * right. exists n, f. split_and!; [by right|done..].
    + intros [-> Hresult]%IH. split; [done|].
      intros e [?|(n & f & Hn & Hf & Hr)]%Hresult; [by left|right].
      exists n, f. split_and!; [by right|done..].
Qed.

(** Whenever the walk returns, the stack is as before and every endpoint
    returned is one that [reaches] describes. *)
Lemma walk_uncached_sound fuel path prefix stack result stk :
  walk_from fuel path prefix stack = Returns (result, stk) →
  stk = stack ∧ ∀ e, e ∈ result → reach path prefix stack e.
Proof.
  revert path prefix stack result stk.
  induction fuel as [|fuel IH]; intros path prefix stack result stk; [done|].
  cbn [walk_uncached]. case_bool_decide as Hin.
  { intros [= <- <-]. split; [done|]. set_solver. }
  destruct (nests_loop _ _ _ _ _ _) as [[found s']| |] eqn:Hloop; cbn [obind];
    [|done..].
  apply (walk_nests_sound _ (λ file child_prefix e,
                               reach file child_prefix (stack ++ [path]) e))
    in Hloop as [-> Hfound]; [|by intros ???? ?%IH].
  rewrite list_pop_snoc. cbn [obind]. intros [= <- <-]. split; [done|].
  intros e [(ep & -> & Hep)%elem_of_map|(nest & file & Hn & Hf & Hr)]%Hfound.
  - by constructor.
  - by eapply reaches_nest.
Qed.

(** What is reached comes from an endpoint declared in the file the walk
    started from or in a file that exists. *)
Lemma reaches_provenance path prefix stack e :
  reach path prefix stack e →
  ∃ file ep child_prefix,
    (file = path ∨ path_exists file = true) ∧
    ep ∈ ParsedRouterFile.endpoints (parse file) ∧
    e = Endpoint.Build (Endpoint.method ep)
          (_join_paths child_prefix (Endpoint.path ep)).
Proof.
  induction 1 as [path prefix stack ep Hnot Hep
                 |path prefix stack nest file e Hnot Hn Hres Hr IH].
  - exists path, ep, prefix. auto.
  - destruct IH as (f & ep & cp & Hf & Hep & ->).
    exists f, ep, cp. split_and!; [|done..]. right.
    destruct Hf as [->|?]; [|done].
    by eapply resolve_module_file_exists.
Qed.

End walker_uncached_more.

Section walker_more.
Context {Path : Type} `{Countable Path}.
Variable parent : Path → Path.
Variable joinpath : Path → list str → Path.
Variable path_exists : Path → bool.
Variable routes_root : Path.
Variable extract : Path → ParsedRouterFile.t.
Variable health_prefixes : list str.

Local Abbreviation walk_c :=
  (walk parent joinpath path_exists routes_root extract health_prefixes).

(** [parse_file] keeps the stack and only adds to the cache. *)
Lemma parse_file_grows path (st : walk_state) :
  let st' := (parse_file joinpath routes_root extract health_prefixes path st).2 in
  stack st' = stack st ∧ cache st ⊆ cache st'.
Proof.
  unfold parse_file. destruct (cache st !! path) eqn:E; cbn; [done|].
  split; [done|]. by apply insert_subseteq.
Qed.

Lemma walk_nests_grows rec path prefix nests endpoints (st st' : walk_state) result :
  (∀ file child_prefix (s s' : walk_state) found,
     rec file child_prefix s = Returns (found, s') →
     stack s' = stack s ∧ cache s ⊆ cache s') →
  walk_nests parent joinpath path_exists routes_root
    rec path prefix nests endpoints st = Returns (result, st') →
  stack st' = stack st ∧ cache st ⊆ cache st'.
Proof.
  intros Hrec. revert endpoints st.
  induction nests as [|nest nests IH]; intros endpoints st; cbn [walk_nests].
  - by intros [= _ <-].
  - destruct (_resolve_module_file _ _ _ _ _ _) as [file|]; [|apply IH].
    destruct (rec file _ st) as [[found s1]| |] eqn:Hcall; cbn [obind];
      [|done..].
    destruct (Hrec _ _ _ _ _ Hcall) as [Hs Hc].
    intros [Hs' Hc']%IH. split; [congruence|by etrans].
Qed.

Lemma walk_grows fuel path prefix (st st' : walk_state) result :
  walk_c fuel path prefix st = Returns (result, st') →
  stack st' = stack st ∧ cache st ⊆ cache st'.
Proof.
  revert path prefix st st' result.
  induction fuel as [|fuel IH]; intros path prefix st st' result; [done|].
  cbn [walk]. case_bool_decide as Hin; [by intros [= _ <-]|].
  pose proof (parse_file_grows path (WalkState (cache st) (stack st ++ [path])))
    as Hparse.
  destruct (parse_file _ _ _ _ _ _) as [parsed st1]. cbn in Hparse.
  destruct Hparse as [Hs1 Hc1].
  destruct (walk_nests _ _ _ _ _ _ _ _ _ _) as [[found st2]| |] eqn:Hloop;
    cbn [obind]; [|done..].
  apply walk_nests_grows in Hloop as [Hs2 Hc2]; [|by intros ????? ?%IH].
  unfold stack_pop. rewrite Hs2, Hs1.
  destruct (stack st ++ [path]) as [|p l] eqn:E; [by destruct (stack st)|].
  cbn [obind]. intros [= _ <-]. cbn [stack cache]. rewrite <- E.
  split; [|by etrans].
  apply (f_equal length) in E. rewrite length_app in E. cbn [length] in E.
  replace (length l - 0)%nat with (length (stack st)) by lia.
  by rewrite take_app_length.
Qed.

End walker_more.

(** X13. The parse cache is transparent: from any cache whose entries are
    what [parse_file] computes, the walk has the outcome it has from an
    empty cache, and the cache it returns is again such a cache. *)
Theorem walk_cache_transparent {Path : Type} `{Countable Path}
    (parent : Path → Path) (joinpath : Path → list str → Path)
    (path_exists : Path → bool) (routes_root : Path)
    (extract : Path → ParsedRouterFile.t) (health_prefixes : list str)
    (fuel : nat) (path : Path) (prefix : str)
    (c : gmap Path ParsedRouterFile.t) (stack0 : list Path) :
  cache_ok joinpath routes_root extract health_prefixes c →
  forget (walk parent joinpath path_exists routes_root extract health_prefixes
            fuel path prefix (WalkState c stack0))
  = forget (walk parent joinpath path_exists routes_root extract health_prefixes
              fuel path prefix (WalkState ∅ stack0)) ∧
  ∀ found st',
    walk parent joinpath path_exists routes_root extract health_prefixes
         fuel path prefix (WalkState c stack0) = Returns (found, st') →
    cache_ok joinpath routes_root extract health_prefixes (cache st').
Proof.
  intros Hok.
  destruct (walk_refines parent joinpath path_exists routes_root
              extract health_prefixes fuel path prefix (WalkState c stack0) Hok)
    as [-> Hok'].
  destruct (walk_refines parent joinpath path_exists routes_root
              extract health_prefixes fuel path prefix (WalkState ∅ stack0))
    as [-> _]; [apply cache_ok_empty|].
  done.
Qed.

Lemma walk_cache_transparent_witness :
  forget (Demo.walk Demo.extract 6 Demo.mod_rs (lit "")
            (WalkState {[ Demo.a_rs := Demo.parsed_of Demo.extract Demo.a_rs ]} []))
  = forget (Demo.walk Demo.extract 6 Demo.mod_rs (lit "") (WalkState ∅ [])) ∧
  ∀ found st',
    Demo.walk Demo.extract 6 Demo.mod_rs (lit "")
      (WalkState {[ Demo.a_rs := Demo.parsed_of Demo.extract Demo.a_rs ]} [])
    = Returns (found, st') →
    cache_ok PurePath.joinpath Demo.routes_root Demo.extract
      Demo.health_prefixes (cache st').
Proof.
  apply (walk_cache_transparent PurePath.parent PurePath.joinpath
           Demo.path_exists Demo.routes_root Demo.extract Demo.health_prefixes
           6 Demo.mod_rs (lit "")
           {[ Demo.a_rs := Demo.parsed_of Demo.extract Demo.a_rs ]} []).
  intros p parsed [<- <-]%lookup_singleton_Some. reflexivity.
Defined.

(** X14. The walker invents nothing: every endpoint it returns has the method
    of an endpoint declared in the start file or in a file that exists, and
    its path is a composition of some prefix with that endpoint's path, so it
    is empty or begins with a slash. *)
Theorem walk_provenance {Path : Type} `{Countable Path}
    (parent : Path → Path) (joinpath : Path → list str → Path)
    (path_exists : Path → bool) (routes_root : Path)
    (extract : Path → ParsedRouterFile.t) (health_prefixes : list str)
    (fuel : nat) (start : Path) (prefix : str)
    (endpoints : gset Endpoint.t) (st : walk_state) (e : Endpoint.t) :
  walk parent joinpath path_exists routes_root extract health_prefixes
       fuel start prefix (WalkState ∅ []) = Returns (endpoints, st) →
  e ∈ endpoints →
  (∃ file ep child_prefix,
     (file = start ∨ path_exists file = true) ∧
     ep ∈ ParsedRouterFile.endpoints
            (parsed_of joinpath routes_root extract health_prefixes file) ∧
     e = Endpoint.Build (Endpoint.method ep)
           (_join_paths child_prefix (Endpoint.path ep))) ∧
  (Endpoint.path e = [] ∨ startswith (Endpoint.path e) (lit "/") = true).
Proof.
  intros Hwalk Hin.
  destruct (walk_refines parent joinpath path_exists routes_root
              extract health_prefixes fuel start prefix (WalkState ∅ []))
    as [Hf _]; [apply cache_ok_empty|].
  rewrite Hwalk in Hf. cbn [forget obind stack] in Hf. symmetry in Hf.
  apply walk_uncached_sound in Hf as [_ Hreach].
  destruct (reaches_provenance _ _ _ _ _ _ _ _ _ (Hreach e Hin))
    as (file & ep & cp & Hfile & Hep & ->).
  split; [by exists file, ep, cp|]. cbn [Endpoint.path].
  destruct (join_paths_head cp (Endpoint.path ep)) as [(_ & _ & _ & ->)|?]; auto.
Qed.

Lemma walk_provenance_witness :
  (∃ file ep child_prefix,
     (file = Demo.mod_rs ∨ Demo.path_exists file = true) ∧
     ep ∈ ParsedRouterFile.endpoints (Demo.parsed_of Demo.extract file) ∧
     Demo.ep "POST" "/a/b/y"
     = Endpoint.Build (Endpoint.method ep)
         (_join_paths child_prefix (Endpoint.path ep))) ∧
  (Endpoint.path (Demo.ep "POST" "/a/b/y") = [] ∨
   startswith (Endpoint.path (Demo.ep "POST" "/a/b/y")) (lit "/") = true).
Proof.
  pose proof walk_example as Hex. unfold Demo.fresh in Hex.
  destruct (Demo.walk Demo.extract 6 Demo.mod_rs (lit "") (WalkState ∅ []))
    as [[endpoints st]| |] eqn:Hwalk; [|discriminate Hex..].
  apply (walk_provenance PurePath.parent PurePath.joinpath
           Demo.path_exists Demo.routes_root Demo.extract Demo.health_prefixes
           6 Demo.mod_rs (lit "") endpoints st); [exact Hwalk|].
  apply elem_of_elements. injection Hex as -> _. by left.
Defined.

(** X15. Whenever the walk returns, the stack is as it was before the call
    and the cache has kept every entry it had. *)
Theorem walk_keeps_state {Path : Type} `{Countable Path}
    (parent : Path → Path) (joinpath : Path → list str → Path)
    (path_exists : Path → bool) (routes_root : Path)
    (extract : Path → ParsedRouterFile.t) (health_prefixes : list str)
    (fuel : nat) (path : Path) (prefix : str)
    (st st' : walk_state) (endpoints : gset Endpoint.t) :
  walk parent joinpath path_exists routes_root extract health_prefixes
       fuel path prefix st = Returns (endpoints, st') →
  stack st' = stack st ∧ cache st ⊆ cache st'.
Proof. apply walk_grows. Qed.

Lemma walk_keeps_state_witness :
  ∃ endpoints st',
    Demo.walk Demo.extract 6 Demo.mod_rs (lit "") (WalkState ∅ [])
    = Returns (endpoints, st') ∧
    stack st' = stack (WalkState ∅ []) ∧
    cache (WalkState ∅ []) ⊆ cache st'.
Proof.
  pose proof walk_example as Hex. unfold Demo.fresh in Hex.
  destruct (Demo.walk Demo.extract 6 Demo.mod_rs (lit "") (WalkState ∅ []))
    as [[endpoints st]| |] eqn:Hwalk; [|discriminate Hex..].
  exists endpoints, st. split; [reflexivity|].
  exact (walk_keeps_state PurePath.parent PurePath.joinpath
           Demo.path_exists Demo.routes_root Demo.extract Demo.health_prefixes
           6 Demo.mod_rs (lit "") (WalkState ∅ []) st endpoints Hwalk).
Defined.

(** ** Coverage arithmetic on exact cases *)

Section float_facts.

Lemma digits2_pos_iter_xO p k :
  digits2_pos (Pos.iter xO p k) = (digits2_pos p + k)%positive.
Proof.
  induction k as [|k IH] using Pos.peano_ind.
  - cbn. by rewrite Pos.add_1_r.
  - rewrite Pos.iter_succ. cbn [digits2_pos]. rewrite IH.
    by rewrite Pos.add_succ_r.
Qed.

Lemma digits2_pos_lower p : 2 ^ (Z.pos (digits2_pos p) - 1) ≤ Z.pos p.
Proof.
  induction p as [p IH|p IH|]; cbn [digits2_pos]; [| |done].
  - rewrite Pos2Z.inj_succ.
    replace (Z.succ (Z.pos (digits2_pos p)) - 1)
      with (Z.succ (Z.pos (digits2_pos p) - 1)) by lia.
    rewrite Z.pow_succ_r by lia. lia.
  - rewrite Pos2Z.inj_succ.
    replace (Z.succ (Z.pos (digits2_pos p)) - 1)
      with (Z.succ (Z.pos (digits2_pos p) - 1)) by lia.
    rewrite Z.pow_succ_r by lia. lia.
Qed.

Lemma digits2_pos_small p : Z.pos p < 2 ^ 53 → Z.pos (digits2_pos p) ≤ 53.
Proof.
  intros Hp. destruct (decide (Z.pos (digits2_pos p) ≤ 53)) as [|Hd]; [done|].
  pose proof (digits2_pos_lower p) as Hlow.
  assert (2 ^ 53 ≤ 2 ^ (Z.pos (digits2_pos p) - 1))
    by (apply Z.pow_le_mono_r; lia).
  lia.
Qed.

(** A mantissa of 53 digits with an exponent in range is its own rounding. *)
Lemma binary_round_aux_normal s m e :
  Z.pos (digits2_pos m) = 53 → -1074 ≤ e ≤ 971 →
  binary_round_aux 53 1024 s (Z.pos m) e loc_Exact = S754_finite s m e.
Proof.
  intros Hd He. unfold binary_round_aux, shr_fexp, fexp, emin.
  cbn [Zdigits2 shr_record_of_loc]. rewrite Hd.
  replace (Z.max (53 + e - 53) (3 - 1024 - 53) - e) with 0 by lia.
  cbn [shr shr_m loc_of_shr_record round_nearest_even Zdigits2 shr_record_of_loc].
  rewrite Hd.
  replace (Z.max (53 + e - 53) (3 - 1024 - 53) - e) with 0 by lia.
  cbn [shr shr_m].
  by rewrite (proj2 (Z.leb_le e (1024 - 53))) by lia.
Qed.

(** Below [2^53] an integer is a float exactly, with a mantissa shifted to 53
    digits. *)
Lemma float_of_int_finite n :
  0 < n < 2 ^ 53 → ∃ m e, float_of_int n = S754_finite false m e.
Proof.
  intros [Hpos Hlt]. destruct n as [|p|p]; [lia| |lia].
  pose proof (digits2_pos_small p Hlt) as Hd.
  unfold float_of_int, binary_normalize, binary_round, shl_align, fexp, emin.
  replace (Z.max (Z.pos (digits2_pos p) + 0 - 53) (3 - 1024 - 53) - 0)
    with (Z.pos (digits2_pos p) - 53) by lia.
  destruct (Z.pos (digits2_pos p) - 53) as [|q|q] eqn:Hq; [|lia|].
  - replace (Z.max (Z.pos (digits2_pos p) + 0 - 53) (3 - 1024 - 53)) with 0
      by lia.
    eexists _, _. apply binary_round_aux_normal; lia.
  - eexists _, _. apply binary_round_aux_normal.
    + rewrite digits2_pos_iter_xO. lia.
    + lia.
Qed.

(** A finite float divided by itself is [1.0]. *)
Lemma float_div_self s m e :
  float_div (S754_finite s m e) (S754_finite s m e) = f1.
Proof.
  unfold float_div, SFdiv, SFdiv_core_binary. cbn [Zdigits2].
  rewrite !Z.sub_diag. unfold fexp, emin.
  change (Z.min (Z.max (0 - 53) (3 - 1024 - 53)) 0) with (-53).
  change (0 - -53) with 53.
  rewrite Z.shiftl_mul_pow2 by lia.
  destruct (Z.div_eucl (Z.pos m * 2 ^ 53) (Z.pos m)) as [q r] eqn:Hdiv.
  assert (q = Z.pos m * 2 ^ 53 / Z.pos m) as ->
    by (unfold Z.div; by rewrite Hdiv).
  assert (r = (Z.pos m * 2 ^ 53) mod Z.pos m) as ->
    by (unfold Z.modulo; by rewrite Hdiv).
  rewrite (Z.mul_comm (Z.pos m)), Z.div_mul, Z.mod_mul by done.
  assert (Hloc : new_location (Z.pos m) 0 = loc_Exact).
  { unfold new_location. by destruct (Z.even (Z.pos m)). }
  rewrite Hloc. by destruct s.
Qed.

End float_facts.

Lemma coverage_full_value (contract rust : gset Endpoint.t) :
  contract ⊆ rust → Z.of_nat (size contract) < 2 ^ 53 →
  coverage contract rust = f100.
Proof.
  intros Hsub Hsize. unfold coverage, _percent.
  rewrite (subseteq_intersection_1_L _ _ Hsub).
  destruct (Z.of_nat (size contract) =? 0) eqn:Hz; [done|].
  apply Z.eqb_neq in Hz.
  destruct (float_of_int_finite (Z.of_nat (size contract))) as (m & e & ->);
    [lia|].
  by rewrite float_div_self.
Qed.

(** X16. A contract whose every endpoint is implemented has a coverage of
    exactly [100.0]. *)
Theorem coverage_full (contract rust : gset Endpoint.t) :
  contract ⊆ rust → Z.of_nat (size contract) < 2 ^ 53 →
  coverage contract rust = f100.
Proof. apply coverage_full_value. Qed.

Lemma coverage_full_witness :
  coverage contract_example (contract_example ∪ router_example) = f100.
Proof.
  apply (coverage_full contract_example (contract_example ∪ router_example)).
  - apply union_subseteq_l.
  - by vm_compute.
Defined.

(** X17. A non-empty contract of which no endpoint is implemented has a
    coverage of exactly [0.0]. *)
Theorem coverage_none (contract rust : gset Endpoint.t) :
  contract ≠ ∅ → contract ∩ rust = ∅ → Z.of_nat (size contract) < 2 ^ 53 →
  coverage contract rust = f0.
Proof.
  intros Hne Hdisj Hsize. unfold coverage, _percent.
  rewrite Hdisj, size_empty.
  assert (size contract ≠ 0%nat).
  { apply size_non_empty_iff. by intros ?%leibniz_equiv. }
  rewrite (proj2 (Z.eqb_neq _ 0)) by lia.
  destruct (float_of_int_finite (Z.of_nat (size contract))) as (m & e & ->);
    [lia|].
  reflexivity.
Qed.

Lemma coverage_none_witness : coverage contract_example ∅ = f0.
Proof.
  apply (coverage_none contract_example ∅).
  - apply (bool_decide_unpack _). by vm_compute.
  - apply intersection_empty_r_L.
  - by vm_compute.
Defined.

(** ** The report *)

Section order_facts.

Implicit Types a b c : str.

Lemma str_leb_refl a : str_leb a a = true.
Proof.
  induction a as [|x a IH]; [done|]. cbn [str_leb].
  rewrite (proj2 (N.ltb_ge _ _)) by lia.
  by rewrite (proj2 (chr_eqb_true x x)).
Qed.

Lemma str_leb_cons x a y b :
  str_leb (x :: a) (y :: b) = true ↔
  (x < y)%N ∨ (x = y ∧ str_leb a b = true).
Proof.
  cbn [str_leb]. destruct (x <? y)%N eqn:Hlt.
  - apply N.ltb_lt in Hlt. split; [by left|done].
  - apply N.ltb_ge in Hlt. destruct (chr_eqb x y) eqn:Heq.
    + apply chr_eqb_true in Heq as ->. split; [by right|].
      by intros [?|[_ ?]]; [lia|].
    + apply chr_eqb_false in Heq. split; [done|].
      intros [?|[? _]]; [lia|done].
Qed.

Lemma str_leb_total a b : str_leb a b = true ∨ str_leb b a = true.
Proof.
  revert b. induction a as [|x a IH]; intros [|y b]; [by left..|by right|].
  rewrite !str_leb_cons.
  destruct (N.lt_trichotomy x y) as [?|[?|?]]; [by left; left| |by right; left].
  subst y. destruct (IH b); [left|right]; by right.
Qed.

Lemma str_leb_antisym a b : str_leb a b = true → str_leb b a = true → a = b.
Proof.
  revert b. induction a as [|x a IH]; intros [|y b]; try done.
  rewrite !str_leb_cons.
  intros [?|[? Hab]] [?|[? Hba]]; subst; try lia.
  f_equal. by apply IH.
Qed.

Lemma str_leb_trans a b c :
  str_leb a b = true → str_leb b c = true → str_leb a c = true.
Proof.
  revert b c. induction a as [|x a IH]; intros [|y b] [|z c]; try done.
  rewrite !str_leb_cons.
  intros [?|[-> Hab]] [?|[-> Hbc]]; [left; lia|by left|by left|right].
  split; [done|]. by eapply IH.
Qed.

Global Instance key_le_total : Total key_le.
Proof.
  intros [m1 p1] [m2 p2]. unfold key_le. cbn.
  destruct (decide (p1 = p2)) as [->|Hne].
  - rewrite !bool_decide_eq_true_2 by done. apply str_leb_total.
  - rewrite !bool_decide_eq_false_2 by done. apply str_leb_total.
Qed.

Global Instance key_le_antisym : AntiSymm (=) key_le.
Proof.
  intros [m1 p1] [m2 p2]. unfold key_le. cbn.
  destruct (decide (p1 = p2)) as [->|Hne].
  - rewrite !bool_decide_eq_true_2 by done.
    intros H1 H2. f_equal. by apply str_leb_antisym.
  - rewrite !bool_decide_eq_false_2 by done.
    intros H1 H2. by destruct Hne; apply str_leb_antisym.
Qed.

Global Instance key_le_trans : Transitive key_le.
Proof.
  intros [m1 p1] [m2 p2] [m3 p3]. unfold key_le. cbn.
  destruct (decide (p1 = p2)) as [->|H12].
  - rewrite (bool_decide_eq_true_2 (p2 = p2)) by done.
    destruct (decide (p2 = p3)) as [->|H23].
    + rewrite !bool_decide_eq_true_2 by done. apply str_leb_trans.
    + by rewrite !bool_decide_eq_false_2 by done.
  - rewrite (bool_decide_eq_false_2 (p1 = p2)) by done.
    destruct (decide (p2 = p3)) as [->|H23].
    + rewrite (bool_decide_eq_true_2 (p3 = p3)) by done.
      by rewrite bool_decide_eq_false_2 by done.
    + rewrite (bool_decide_eq_false_2 (p2 = p3)) by done.
      intros H1 H2. destruct (decide (p1 = p3)) as [->|H13].
      * by destruct H12; apply str_leb_antisym.
      * rewrite bool_decide_eq_false_2 by done. by eapply str_leb_trans.
Qed.

Lemma format_ep_parts (m1 m2 p1 p2 : str) :
  space ∉ m1 → space ∉ m2 →
  m1 ++ [space] ++ p1 = m2 ++ [space] ++ p2 → m1 = m2 ∧ p1 = p2.
Proof.
  revert m2. induction m1 as [|x m1 IH]; intros [|y m2] H1 H2; cbn.
  - by intros [= ->].
  - intros [= <- _]. destruct H2. by left.
  - intros [= -> _]. destruct H1. by left.
  - intros [= -> Heq]. destruct (IH m2) as [-> ->]; try done.
    + intros ?. apply H1. by right.
    + intros ?. apply H2. by right.
Qed.

End order_facts.

(** X18. The list [_iter_sorted] returns holds every endpoint of the set
    once, in ascending order of [(path, method)]; and it is the same list
    whatever order the set is enumerated in. *)
Theorem iter_sorted_ordered (eps : gset Endpoint.t) :
  StronglySorted key_le (_iter_sorted eps) ∧
  NoDup (_iter_sorted eps) ∧
  (∀ e, e ∈ _iter_sorted eps ↔ e ∈ eps) ∧
  ∀ enumeration, enumeration ≡ₚ elements eps →
                 merge_sort key_le enumeration = _iter_sorted eps.
Proof.
  unfold _iter_sorted.
  pose proof (merge_sort_Permutation key_le (elements eps)) as Hperm.
  split_and!.
  - apply StronglySorted_merge_sort; apply _.
  - rewrite Hperm. apply NoDup_elements.
  - intros e. by rewrite Hperm, elem_of_elements.
  - intros l Hl. apply (StronglySorted_unique key_le).
    + apply StronglySorted_merge_sort; apply _.
    + apply StronglySorted_merge_sort; apply _.
    + by rewrite !merge_sort_Permutation.
Qed.

(** X19. Two endpoints whose methods contain no space are printed as the same
    line only if they are the same endpoint. *)
Theorem format_ep_injective (e1 e2 : Endpoint.t) :
  space ∉ Endpoint.method e1 → space ∉ Endpoint.method e2 →
  _format_ep e1 = _format_ep e2 → e1 = e2.
Proof.
  destruct e1 as [m1 p1], e2 as [m2 p2]. unfold _format_ep. cbn.
  intros H1 H2 Heq. by destruct (format_ep_parts m1 m2 p1 p2) as [-> ->].
Qed.

Lemma format_ep_injective_witness :
  Endpoint.Build (lit "GET") (lit "/a b") = Endpoint.Build (lit "GET") (lit "/a b").
Proof.
  apply (format_ep_injective (Endpoint.Build (lit "GET") (lit "/a b"))
           (Endpoint.Build (lit "GET") (lit "/a b"))).
  - apply (bool_decide_unpack _). by vm_compute.
  - apply (bool_decide_unpack _). by vm_compute.
  - reflexivity.
Defined.

(** X20. The numbers of the report add up: covered and missing endpoints
    together are the contract's, no more endpoints are covered than the router
    has, nothing is missing exactly when the router has every contract
    endpoint, and with [--show-missing] one line is printed per missing
    endpoint. *)
Theorem main_report_counts (fail_under : option spec_float) (show_missing : bool)
    (contract rust : gset Endpoint.t) :
  let r := main fail_under show_missing contract rust in
  (report_covered r + report_missing r = report_contract r)%nat ∧
  (report_covered r ≤ report_rust r)%nat ∧
  (report_missing r = 0%nat ↔ contract ⊆ rust) ∧
  length (report_missing_lines r)
  = (if show_missing then report_missing r else 0%nat).
Proof.
  cbn. split_and!.
  - rewrite <- size_union.
    + f_equal. apply set_eq. intros e.
      rewrite elem_of_union, elem_of_intersection, elem_of_difference.
      destruct (decide (e ∈ rust)); tauto.
    + apply elem_of_disjoint.
      intros e [_ ?]%elem_of_intersection [_ ?]%elem_of_difference. done.
  - apply subseteq_size. apply intersection_subseteq_r.
  - rewrite size_empty_iff. split.
    + intros Hempty e He. destruct (decide (e ∈ rust)) as [|Hn]; [done|].
      exfalso. apply (not_elem_of_empty (C := gset Endpoint.t) e).
      apply Hempty. by apply elem_of_difference.
    + intros Hsub e. split; [|by intros ?%not_elem_of_empty].
      intros [He Hn]%elem_of_difference. destruct Hn. by apply Hsub.
  - destruct show_missing; cbn [andb]; [|done].
    case_bool_decide as Hm; cbn [negb].
    + by rewrite Hm, size_empty.
    + rewrite length_fmap. unfold _iter_sorted.
      by rewrite merge_sort_Permutation.
Qed.

(** X21. A contract whose every endpoint is implemented never fails the
    threshold check, for any threshold that [100.0] is not below; without a
    threshold the exit status is always zero. *)
Theorem main_exit_covered (threshold : spec_float) (show_missing : bool)
    (contract rust : gset Endpoint.t) :
  contract ⊆ rust → Z.of_nat (size contract) < 2 ^ 53 →
  SFltb f100 threshold = false →
  report_exit (main (Some threshold) show_missing contract rust) = 0 ∧
  report_exit (main None show_missing contract rust) = 0.
Proof.
  intros Hsub Hsize Hthr. split; [|done]. cbn [main report_exit].
  fold (coverage contract rust). rewrite coverage_full_value; [|done..].
  by rewrite Hthr.
Qed.

Lemma main_exit_covered_witness :
  report_exit (main (Some f100) true contract_example
                 (contract_example ∪ router_example)) = 0 ∧
  report_exit (main None true contract_example
                 (contract_example ∪ router_example)) = 0.
Proof.
  apply (main_exit_covered f100 true contract_example
           (contract_example ∪ router_example)).
  - apply union_subseteq_l.
  - by vm_compute.
  - reflexivity.
Defined.

(** ** The patterns *)

Section regex_facts.
Context (text : str).
Implicit Types (k : nat → capture → option (nat * capture)).

Lemma matches_bounds r i cap j cap' :
  matches text r i cap j cap' →
  (i ≤ j)%nat ∧ ((i ≤ length text)%nat → (j ≤ length text)%nat).
Proof.
  induction 1 as [f i cap c Hc _| | | | | | |  | ]; try lia.
  apply lookup_lt_Some in Hc. lia.
Qed.

Lemma star_loop_sound body r k :
  (∀ i cap k' res, body i cap k' = Some res →
     ∃ j cap', matches text r i cap j cap' ∧ k' j cap' = Some res) →
  ∀ fuel i cap res, star_loop body k fuel i cap = Some res →
  ∃ j cap', matches text (Star r) i cap j cap' ∧ k j cap' = Some res.
Proof.
  intros Hbody. induction fuel as [|fuel IH]; intros i cap res; cbn [star_loop].
  - intros Hk. exists i, cap. split; [constructor|done].
  - destruct (body i cap _) as [res'|] eqn:E.
    + intros [= ->]. apply Hbody in E as (j & cap' & Hm & Hk).
      cbn beta in Hk. revert Hk. destruct (i <? j)%nat; [|done]. intros Hk. apply IH in Hk as (l & cap'' & Hm' & Hk).
      exists l, cap''. split; [|done]. by eapply matches_star_cons.
    + intros Hk. exists i, cap. split; [constructor|done].
Qed.

Lemma rmatch_sound r i cap k res :
  rmatch r text i cap k = Some res →
  ∃ j cap', matches text r i cap j cap' ∧ k j cap' = Some res.
Proof.
  revert i cap k res.
  induction r as [f| |r1 IH1 r2 IH2|r1 IH1 r2 IH2|r IH|r IH|f]; intros i cap k res; cbn [rmatch].
  - destruct (text !! i) as [c|] eqn:Hc; [|done].
    destruct (f c) eqn:Hf; [|done]. intros Hk.
    exists (S i), cap. split; [by econstructor|done].
  - intros Hk. exists i, cap. split; [constructor|done].
  - intros (j & cap' & Hm1 & (l & cap'' & Hm2 & Hk)%IH2)%IH1.
    exists l, cap''. split; [by econstructor|done].
  - destruct (rmatch r1 text i cap k) as [res'|] eqn:E.
    + intros [= ->]. apply IH1 in E as (j & cap' & Hm & Hk).
      exists j, cap'. split; [by apply matches_alt_l|done].
    + intros (j & cap' & Hm & Hk)%IH2.
      exists j, cap'. split; [by apply matches_alt_r|done].
  - apply star_loop_sound. intros ????. apply IH.
  - intros (j & cap' & Hm & Hk)%IH.
    exists j, (Some (i, j)). split; [by econstructor|done].
  - destruct i as [|i'].
    + intros Hk. exists 0%nat, cap. split; [|done]. constructor. lia.
    + destruct (text !! i') as [c|] eqn:Hc.
      * destruct (f c) eqn:Hf; [done|]. intros Hk.
        exists (S i'), cap. split; [|done]. constructor.
        intros c'. replace (S i' - 1)%nat with i' by lia. congruence.
      * intros Hk. exists (S i'), cap. split; [|done]. constructor.
        intros c'. replace (S i' - 1)%nat with i' by lia. congruence.
Qed.

Lemma star_loop_complete body r k :
  (∀ i j cap cap', matches text r i cap j cap' → (i ≤ length text)%nat →
     ∀ c k', (∀ c', is_Some (k' j c')) → is_Some (body i c k')) →
  ∀ i cap l cap'', matches text (Star r) i cap l cap'' →
  ∀ fuel c, (length text - i < fuel)%nat → (i ≤ length text)%nat →
    (∀ c', is_Some (k l c')) → is_Some (star_loop body k fuel i c).
Proof.
  intros Hbody i cap l cap'' Hm. remember (Star r) as sr eqn:Hsr.
  induction Hm as [| | | | |r' i cap|r' i cap j cap' l cap'' Hm1 _ Hm2 IH| |];
    try discriminate; injection Hsr as ->; intros fuel c Hfuel Hi Hk.
  - destruct fuel as [|fuel]; [lia|]. cbn [star_loop].
    destruct (body i c _); [done|]. apply Hk.
  - destruct fuel as [|fuel]; [lia|].
    destruct (matches_bounds _ _ _ _ _ Hm1) as [Hij Hj].
    destruct (decide (i = j)) as [<-|Hne].
    { by apply IH. }
    cbn [star_loop]. destruct (body i c _) as [res|] eqn:E; [done|].
    exfalso. apply eq_None_not_Some in E. apply E.
    apply (Hbody _ _ _ _ Hm1 Hi). intros c'.
    destruct (Nat.ltb_spec i j); [|lia]. apply IH; [done|lia|lia|done].
Qed.

Lemma rmatch_complete r i cap j cap' :
  matches text r i cap j cap' → (i ≤ length text)%nat →
  ∀ c k, (∀ c', is_Some (k j c')) → is_Some (rmatch r text i c k).
Proof.
  revert i cap j cap'.
  induction r as [f| |r1 IH1 r2 IH2|r1 IH1 r2 IH2|r IH|r IH|f];
    intros i cap j cap' Hm Hi c k Hk.
  - inversion Hm as [? ? ? ch Hc Hf| | | | | | | |]; subst. cbn [rmatch]. by rewrite Hc, Hf.
  - inversion Hm; subst. apply Hk.
  - inversion Hm as [| |? ? ? ? m ? ? ? Hm1 Hm2| | | | | |]; subst. cbn [rmatch].
    apply (IH1 _ _ _ _ Hm1 Hi). intros c'.
    apply (IH2 _ _ _ _ Hm2); [|done].
    by apply (matches_bounds _ _ _ _ _ Hm1).
  - cbn [rmatch]. destruct (rmatch r1 text i c k) as [res|] eqn:E; [done|].
    inversion Hm as [| | |? ? ? ? ? ? Hm1|? ? ? ? ? ? Hm2| | | |]; subst.
    + exfalso. apply eq_None_not_Some in E. apply E. by apply (IH1 _ _ _ _ Hm1).
    + by apply (IH2 _ _ _ _ Hm2).
  - cbn [rmatch]. eapply star_loop_complete; [|exact Hm|lia|done|done].
    intros i0 j0 ? ? Hm0 Hi0 c0 k' Hk'. by apply (IH _ _ _ _ Hm0).
  - inversion Hm as [| | | | | | |? ? ? ? ? Hm1|]; subst. cbn [rmatch].
    apply (IH _ _ _ _ Hm1 Hi). intros _. apply Hk.
  - inversion Hm as [| | | | | | | |? ? ? Hf]; subst. cbn [rmatch].
    destruct j as [|i']; [apply Hk|].
    destruct (text !! i') as [ch|] eqn:Hc; [|apply Hk].
    rewrite (Hf ch); [apply Hk| |lia]. by replace (S i' - 1)%nat with i' by lia.
Qed.

Lemma match_at_sound r i j c :
  match_at r text i = Some (j, c) → matches text r i None j c.
Proof.
  unfold match_at. intros (j' & c' & Hm & Hk)%rmatch_sound. by simplify_eq.
Qed.

Lemma match_at_complete r i cap j cap' :
  matches text r i cap j cap' → (i ≤ length text)%nat → is_Some (match_at r text i).
Proof. intros Hm Hi. by apply (rmatch_complete _ _ _ _ _ Hm Hi). Qed.

Lemma search_from_spec r fuel pos s e c :
  search_from r text pos fuel = Some (s, e, c) →
  (pos ≤ s < pos + fuel)%nat ∧ match_at r text s = Some (e, c).
Proof.
  revert pos. induction fuel as [|fuel IH]; intros pos; cbn [search_from]; [done|].
  destruct (match_at r text pos) as [[j c']|] eqn:E.
  - intros [= -> -> ->]. split; [lia|done].
  - intros [??]%IH. split; [lia|done].
Qed.

Lemma search_from_finds r fuel pos i :
  (pos ≤ i < pos + fuel)%nat → is_Some (match_at r text i) →
  ∃ s e c, search_from r text pos fuel = Some (s, e, c) ∧ (s ≤ i)%nat.
Proof.
  revert pos. induction fuel as [|fuel IH]; intros pos Hi Hm; [lia|].
  cbn [search_from]. destruct (match_at r text pos) as [[j c']|] eqn:E.
  - exists pos, j, c'. split; [done|lia].
  - destruct (decide (i = pos)) as [->|Hne].
    + rewrite E in Hm. by destruct Hm.
    + apply IH; [lia|done].
Qed.

Lemma finditer_from_sound r fuel pos s e c :
  (s, e, c) ∈ finditer_from r text pos fuel →
  (pos ≤ s)%nat ∧ match_at r text s = Some (e, c).
Proof.
  revert pos. induction fuel as [|fuel IH]; intros pos; cbn [finditer_from].
  { by intros ?%elem_of_nil. }
  destruct (search_from r text pos _) as [[[s' e'] c']|] eqn:E.
  2:{ by intros ?%elem_of_nil. }
  apply search_from_spec in E as [Hs Hm].
  intros [[= -> -> ->]|Hin]%elem_of_cons; [split; [lia|done]|].
  apply IH in Hin as [Hle ?]. split; [|done].
  apply match_at_sound, matches_bounds in Hm as [? _].
  destruct (Nat.ltb_spec s' e'); lia.
Qed.

(** Every position of [P] where a match starts is found, when no match
    runs over a position of [P]. *)
Lemma finditer_from_complete r (P : nat → Prop) :
  (∀ i, P i → (i ≤ length text)%nat ∧ is_Some (match_at r text i)) →
  (∀ s e c i, match_at r text s = Some (e, c) → P i → (s < i)%nat → (e ≤ i)%nat) →
  ∀ fuel pos i, P i → (pos ≤ i)%nat → (length text - pos < fuel)%nat →
    ∃ e c, (i, e, c) ∈ finditer_from r text pos fuel.
Proof.
  intros HP Hover. induction fuel as [|fuel IH]; intros pos i Hi Hpos Hfuel; [lia|].
  destruct (HP i Hi) as [Hlen Hm]. cbn [finditer_from].
  destruct (search_from_finds r (S (length text) - pos) pos i) as (s & e & c & E & Hs);
    [lia|done|].
  rewrite E. apply search_from_spec in E as [Hps Hms].
  destruct (decide (s = i)) as [->|Hne].
  { exists e, c. by left. }
  pose proof (Hover _ _ _ _ Hms Hi ltac:(lia)) as He.
  apply match_at_sound, matches_bounds in Hms as [Hse _].
  destruct (IH (if (s <? e)%nat then e else S e) i Hi) as (e' & c' & Hin).
  - destruct (Nat.ltb_spec s e); lia.
  - destruct (Nat.ltb_spec s e); lia.
  - exists e', c'. by right.
Qed.
End regex_facts.

Section pattern_facts.
Context (text : str).

Lemma drop_cons_inv (i : nat) (c : char) (t : str) :
  drop i text = c :: t → text !! i = Some c ∧ drop (S i) text = t.
Proof.
  intros Hd. assert (text !! i = Some c) as Hc.
  { pose proof (lookup_drop text i 0) as Hl.
    rewrite Hd, Nat.add_0_r in Hl. by rewrite <- Hl. }
  split; [done|]. rewrite (drop_S _ _ _ Hc) in Hd. congruence.
Qed.

Lemma drop_app_inv (i : nat) (w t : str) :
  drop i text = w ++ t → drop (i + length w) text = t.
Proof.
  intros Hd. rewrite <- drop_drop, Hd. by rewrite drop_app_length.
Qed.

Lemma drop_lookup_l (i q : nat) (w t : str) :
  drop i text = w ++ t → (q < length w)%nat → text !! (i + q)%nat = w !! q.
Proof.
  intros Hd Hq. by rewrite <- lookup_drop, Hd, lookup_app_l.
Qed.

Lemma matches_chr_inv f i cap j cap' :
  matches text (Chr f) i cap j cap' →
  j = S i ∧ cap' = cap ∧ ∃ c, text !! i = Some c ∧ f c = true.
Proof. intros Hm. inversion Hm; subst. eauto. Qed.

Lemma matches_seq_inv r1 r2 i cap l cap'' :
  matches text (Seq r1 r2) i cap l cap'' →
  ∃ j cap', matches text r1 i cap j cap' ∧ matches text r2 j cap' l cap''.
Proof. intros Hm. inversion Hm; subst. eauto. Qed.

Lemma matches_alt_inv r1 r2 i cap j cap' :
  matches text (Alt r1 r2) i cap j cap' →
  matches text r1 i cap j cap' ∨ matches text r2 i cap j cap'.
Proof. intros Hm. inversion Hm; subst; eauto. Qed.

Lemma matches_group_inv r i cap j cap' :
  matches text (Group r) i cap j cap' →
  cap' = Some (i, j) ∧ ∃ c, matches text r i cap j c.
Proof. intros Hm. inversion Hm; subst. eauto. Qed.

Lemma matches_not_behind_inv f i cap j cap' :
  matches text (NotBehind f) i cap j cap' →
  j = i ∧ cap' = cap ∧
  ∀ c, text !! (i - 1)%nat = Some c → (0 < i)%nat → f c = false.
Proof. intros Hm. inversion Hm; subst. eauto. Qed.

Lemma matches_lit_inv w i cap j cap' :
  matches text (lit_re w) i cap j cap' →
  j = (i + length w)%nat ∧ cap' = cap ∧ drop i text = w ++ drop j text.
Proof.
  revert i. induction w as [|c w IH]; intros i Hm; cbn [lit_re] in Hm.
  - inversion Hm; subst. cbn. split; [lia|done].
  - apply matches_seq_inv in Hm as (m & cap1 & Hm1 & Hm2).
    apply matches_chr_inv in Hm1 as (-> & -> & ch & Hc & Hf).
    apply chr_eqb_true in Hf as <-.
    apply IH in Hm2 as (-> & -> & Hd).
    split; [cbn; lia|]. split; [done|].
    rewrite (drop_S _ _ _ Hc), Hd. done.
Qed.

Lemma matches_lit_intro w rest i cap :
  drop i text = w ++ rest → matches text (lit_re w) i cap (i + length w)%nat cap.
Proof.
  revert i. induction w as [|c w IH]; intros i Hd; cbn [lit_re length].
  - rewrite Nat.add_0_r. constructor.
  - apply drop_cons_inv in Hd as [Hc Hd].
    replace (i + S (length w))%nat with (S i + length w)%nat by lia.
    eapply matches_seq; [|by apply IH].
    econstructor; [done|]. by apply chr_eqb_true.
Qed.

Lemma matches_star_chr_inv f i cap j cap' :
  matches text (Star (Chr f)) i cap j cap' →
  cap' = cap ∧ ∃ ws, Forall (λ c, f c = true) ws ∧
    drop i text = ws ++ drop j text ∧ j = (i + length ws)%nat.
Proof.
  intros Hm. remember (Star (Chr f)) as sr eqn:Hsr.
  induction Hm as [| | | | |r' i cap|r' i cap j cap' l cap'' Hm1 _ Hm2 IH| |];
    try discriminate; injection Hsr as ->.
  - split; [done|]. exists []. cbn. split; [constructor|]. split; [done|lia].
  - inversion Hm1 as [? ? ? ch Hc Hf| | | | | | | |]; subst.
    destruct (IH eq_refl) as (-> & ws & Hws & Hd & ->).
    split; [done|]. exists (ch :: ws). split; [by constructor|].
    split; [|cbn; lia]. rewrite (drop_S _ _ _ Hc), Hd. done.
Qed.

Lemma matches_star_chr_intro f ws rest i cap :
  Forall (λ c, f c = true) ws → drop i text = ws ++ rest →
  matches text (Star (Chr f)) i cap (i + length ws)%nat cap.
Proof.
  intros Hws. revert i. induction Hws as [|c ws Hc _ IH]; intros i Hd; cbn [length].
  - rewrite Nat.add_0_r. constructor.
  - apply drop_cons_inv in Hd as [Hi Hd].
    replace (i + S (length ws))%nat with (S i + length ws)%nat by lia.
    eapply matches_star_cons; [|by apply IH]. by econstructor.
Qed.

Lemma matches_spaces_paren_inv i cap j cap' :
  matches text spaces_paren i cap j cap' →
  cap' = cap ∧ ∃ ws, Forall (λ c, is_space c = true) ws ∧
    drop i text = ws ++ lparen :: drop j text ∧ j = S (i + length ws).
Proof.
  intros (m & cap1 & Hm1 & Hm2)%matches_seq_inv.
  apply matches_star_chr_inv in Hm1 as (-> & ws & Hws & Hd & ->).
  apply matches_chr_inv in Hm2 as (-> & -> & ch & Hc & Hf).
  apply chr_eqb_true in Hf as <-.
  split; [done|]. exists ws. split; [done|]. split; [|done].
  by rewrite Hd, (drop_S _ _ _ Hc).
Qed.

Lemma matches_spaces_paren_intro ws rest i cap :
  Forall (λ c, is_space c = true) ws → drop i text = ws ++ lparen :: rest →
  matches text spaces_paren i cap (S (i + length ws)) cap.
Proof.
  intros Hws Hd. eapply matches_seq; [by eapply matches_star_chr_intro|].
  apply drop_app_inv, drop_cons_inv in Hd as [Hc _].
  econstructor; [done|]. by apply chr_eqb_true.
Qed.

Lemma matches_alts_inv rs i cap j cap' :
  matches text (alts rs) i cap j cap' → ∃ r, r ∈ rs ∧ matches text r i cap j cap'.
Proof.
  induction rs as [|r rs IH]; cbn [alts].
  - intros Hm. by inversion Hm.
  - destruct rs as [|r' rs].
    + intros Hm. exists r. split; [by left|done].
    + intros [Hm1|Hm2]%matches_alt_inv.
      * exists r. split; [by left|done].
      * destruct (IH Hm2) as (r0 & Hin & Hm0). exists r0. split; [by right|done].
Qed.

Lemma matches_alts_intro rs r i cap j cap' :
  r ∈ rs → matches text r i cap j cap' → matches text (alts rs) i cap j cap'.
Proof.
  intros Hin Hm. induction Hin as [r rs|r r' rs Hin IH]; cbn [alts].
  - destruct rs; [done|]. by apply matches_alt_l.
  - destruct rs as [|r'' rs]; [by apply elem_of_nil in Hin|]. by apply matches_alt_r, IH.
Qed.
End pattern_facts.

Section methods_facts.

Lemma space_not_ident c : is_space c = true → ident_char c = false.
Proof.
  intros Hs. apply not_true_is_false. intros Hi. revert Hs Hi.
  unfold is_space, ident_char, ident_start, in_range, chr_eqb.
  rewrite !orb_true_iff, !andb_true_iff, !N.leb_le, !N.eqb_eq, bool_decide_eq_true.
  lia.
Qed.

Lemma lparen_not_ident : ident_char lparen = false.
Proof. by vm_compute. Qed.

Lemma keyword_chars kw :
  kw ∈ method_keywords → kw ≠ [] ∧ Forall (λ c, ident_char c = true) kw.
Proof.
  unfold method_keywords. rewrite !elem_of_cons, elem_of_nil.
  intros [->|[->|[->|[->|[->|[->|[->|[]]]]]]]];
    (split; [done|]); unfold lit; cbn [list_ascii_of_string];
    repeat (constructor; [by vm_compute|]); constructor.
Qed.

Lemma method_names_keys kw m : METHOD_NAMES !! kw = Some m → kw ∈ method_keywords.
Proof.
  unfold METHOD_NAMES, method_keywords. intros Hin%elem_of_list_to_map_2.
  revert Hin. rewrite !elem_of_cons, elem_of_nil.
  intros [[= -> _]|[[= -> _]|[[= -> _]|[[= -> _]|[[= -> _]|[[= -> _]|[[= -> _]|[]]]]]]]];
    repeat first [by left | right].
Qed.

Lemma method_names_total kw : kw ∈ method_keywords → is_Some (METHOD_NAMES !! kw).
Proof.
  unfold method_keywords. rewrite !elem_of_cons, elem_of_nil.
  intros [->|[->|[->|[->|[->|[->|[->|[]]]]]]]]; vm_compute; by eexists.
Qed.

Lemma spaces_paren_head ws rest :
  Forall (λ c, is_space c = true) ws →
  ∃ x r, ident_char x = false ∧ ws ++ lparen :: rest = x :: r.
Proof.
  intros Hws. destruct Hws as [|c ws Hc _]; cbn.
  - eexists _, _. split; [apply lparen_not_ident|done].
  - eexists _, _. split; [by apply space_not_ident|done].
Qed.

Lemma ident_prefix_unique a b x y r r' :
  Forall (λ c, ident_char c = true) a → Forall (λ c, ident_char c = true) b →
  ident_char x = false → ident_char y = false →
  a ++ x :: r = b ++ y :: r' → a = b.
Proof.
  intros Ha. revert b. induction Ha as [|c a Hc _ IH]; intros b Hb Hx Hy E.
  - destruct Hb as [|d b Hd _]; [done|]. cbn in E. injection E as -> _. congruence.
  - destruct Hb as [|d b Hd Hb]; cbn in E.
    + injection E as -> _. congruence.
    + injection E as -> E. f_equal. by apply IH.
Qed.

Context (expr : str).

Lemma call_at_lt kw i : kw ≠ [] → call_at kw expr i → (i < length expr)%nat.
Proof.
  intros Hkw (_ & ws & rest & Hd & _).
  destruct (decide (i < length expr)%nat) as [|Hge]; [done|].
  rewrite drop_ge in Hd by lia. by destruct kw.
Qed.

Lemma call_of_at kw : kw ≠ [] → call_of kw expr ↔ ∃ i, call_at kw expr i.
Proof.
  intros Hkw. split.
  - intros (pre & ws & rest & -> & Hws & Hpre). exists (length pre). split.
    + intros c Hc Hpos. apply Hpre. rewrite last_lookup.
      rewrite lookup_app_l in Hc by lia.
      by replace (Init.Nat.pred (length pre)) with (length pre - 1)%nat by lia.
    + exists ws, rest. by rewrite drop_app_length.
  - intros (i & Hcall). pose proof (call_at_lt _ _ Hkw Hcall) as Hlt.
    destruct Hcall as (Hbehind & ws & rest & Hd & Hws).
    exists (take i expr), ws, rest. split; [by rewrite <- Hd, take_drop|].
    split; [done|]. intros c. rewrite last_lookup, length_take, Nat.min_l by lia.
    destruct i as [|i]; [done|]. cbn [Init.Nat.pred]. rewrite lookup_take_lt by lia.
    intros Hc. apply Hbehind; [|lia]. by replace (S i - 1)%nat with i by lia.
Qed.

Lemma methods_match_inv i e c :
  match_at methods_re expr i = Some (e, c) →
  ∃ kw ws, kw ∈ method_keywords ∧ c = Some (i, (i + length kw)%nat) ∧
    (∀ ch, expr !! (i - 1)%nat = Some ch → (0 < i)%nat → ident_char ch = false) ∧
    Forall (λ ch, is_space ch = true) ws ∧
    drop i expr = kw ++ ws ++ lparen :: drop e expr ∧
    e = S (i + length kw + length ws).
Proof.
  intros Hm%match_at_sound. unfold methods_re in Hm.
  apply matches_seq_inv in Hm as (m1 & cap1 & Hm1 & Hm2).
  apply matches_not_behind_inv in Hm1 as (-> & -> & Hbehind).
  apply matches_seq_inv in Hm2 as (m2 & cap2 & Hm3 & Hm4).
  apply matches_group_inv in Hm3 as (-> & c0 & Hm5).
  apply matches_alts_inv in Hm5 as (r & (kw & -> & Hkw)%list_elem_of_fmap & Hm5).
  apply matches_lit_inv in Hm5 as (-> & _ & Hd).
  apply matches_spaces_paren_inv in Hm4 as (-> & ws & Hws & Hd' & ->).
  exists kw, ws. repeat split; try done. by rewrite Hd, Hd'.
Qed.

Lemma methods_match_intro i kw :
  kw ∈ method_keywords → call_at kw expr i → is_Some (match_at methods_re expr i).
Proof.
  intros Hkw Hcall. pose proof (call_at_lt _ _ (proj1 (keyword_chars _ Hkw)) Hcall).
  destruct Hcall as (Hbehind & ws & rest & Hd & Hws).
  eapply (match_at_complete _ _ _ None); [|lia].
  eapply matches_seq; [by constructor|].
  eapply matches_seq.
  - eapply matches_group, matches_alts_intro; [|by eapply matches_lit_intro].
    apply list_elem_of_fmap. by exists kw.
  - eapply matches_spaces_paren_intro; [done|]. by eapply drop_app_inv.
Qed.

Lemma methods_no_overlap s e c i kw :
  match_at methods_re expr s = Some (e, c) → kw ∈ method_keywords →
  call_at kw expr i → (s < i)%nat → (e ≤ i)%nat.
Proof.
  intros (kws & wss & Hkws & _ & _ & Hwss & Hd & ->)%methods_match_inv Hkw Hcall Hsi.
  destruct (keyword_chars _ Hkws) as [_ Hids].
  destruct (keyword_chars _ Hkw) as [Hne Hidk].
  destruct Hcall as (Hbehind & ws & rest & Hdi & _).
  destruct kw as [|k0 kw]; [done|]. apply Forall_cons in Hidk as [Hk0 _].
  cbn in Hdi. apply drop_cons_inv in Hdi as [Hi _].
  destruct (decide (S (s + length kws + length wss) ≤ i)%nat) as [|Hin]; [done|].
  exfalso. destruct (decide (i - s < length kws)%nat) as [Hlt|Hge].
  - (* the character before [i] belongs to the keyword at [s] *)
    pose proof (drop_lookup_l expr s (i - 1 - s) _ _ Hd ltac:(lia)) as Hl.
    replace (s + (i - 1 - s))%nat with (i - 1)%nat in Hl by lia.
    destruct (lookup_lt_is_Some_2 kws (i - 1 - s)%nat ltac:(lia)) as [ch Hch].
    rewrite Hch in Hl. pose proof (Hbehind ch Hl ltac:(lia)) as Hf.
    rewrite Forall_forall in Hids.
    by rewrite (Hids ch (list_elem_of_lookup_2 _ _ _ Hch)) in Hf.
  - (* the character at [i] is a space or the parenthesis *)
    apply drop_app_inv in Hd.
    pose proof (drop_lookup_l expr (s + length kws) (i - (s + length kws)) (wss ++ [lparen])
                  (drop (S (s + length kws + length wss)) expr)) as Hl.
    rewrite <- app_assoc in Hl. specialize (Hl Hd).
    rewrite length_app in Hl. cbn in Hl. specialize (Hl ltac:(lia)).
    replace (s + length kws + (i - (s + length kws)))%nat with i in Hl by lia.
    rewrite Hi in Hl. symmetry in Hl.
    apply list_elem_of_lookup_2, elem_of_app in Hl as [Hsp|Hlp].
    + rewrite Forall_forall in Hwss. apply Hwss, space_not_ident in Hsp. congruence.
    + apply list_elem_of_singleton in Hlp as ->. by rewrite lparen_not_ident in Hk0.
Qed.

Lemma add_methods_spec ms : ∀ acc,
  (∀ m, m ∈ ms → is_Some (METHOD_NAMES !! group1 expr m)) →
  ∃ methods, add_methods expr ms acc = Returns methods ∧
    ∀ x, x ∈ methods ↔ x ∈ acc ∨ ∃ m, m ∈ ms ∧ METHOD_NAMES !! group1 expr m = Some x.
Proof.
  induction ms as [|m ms IH]; intros acc Hms; cbn [add_methods].
  - exists acc. split; [done|]. intros x. split; [by left|].
    intros [?|(m & ?%elem_of_nil & _)]; done.
  - destruct (Hms m ltac:(by left)) as [name Hname]. rewrite Hname.
    destruct (IH (acc ∪ {[name]}) ltac:(intros; apply Hms; by right))
      as (methods & -> & Hspec).
    exists methods. split; [done|]. intros x. rewrite Hspec, elem_of_union, elem_of_singleton.
    split.
    + intros [[?| ->]|(m' & ? & ?)]; [by left|right; exists m|right; exists m'];
        (split; [|done]); [by left|by right].
    + intros [?|(m' & [-> | ?]%elem_of_cons & Hx)]; [by left; left| |].
      * left; right. congruence.
      * right. by exists m'.
Qed.
End methods_facts.

Lemma extract_methods_returns (router_expr : str) :
  ∃ methods, _extract_methods router_expr = Returns methods ∧
    ∀ m, m ∈ methods ↔ ∃ kw, METHOD_NAMES !! kw = Some m ∧ call_of kw router_expr.
Proof.
  unfold _extract_methods, re_finditer.
  assert (∀ m, m ∈ finditer_from methods_re router_expr 0 (S (length router_expr)) →
            ∃ kw, kw ∈ method_keywords ∧ group1 router_expr m = kw ∧
                  call_at kw router_expr m.1.1) as Hsound.
  { intros [[s e] c] [_ Hm]%finditer_from_sound.
    apply methods_match_inv in Hm as (kw & ws & Hkw & -> & Hbehind & Hws & Hd & ->).
    exists kw. split; [done|]. split.
    - unfold group1, slice. cbn. replace (s + length kw - s)%nat with (length kw) by lia.
      by rewrite Hd, take_app_length.
    - split; [done|]. by exists ws, (drop (S (s + length kw + length ws)) router_expr). }
  destruct (add_methods_spec router_expr
              (finditer_from methods_re router_expr 0 (S (length router_expr))) ∅)
    as (methods & Hret & Hspec).
  { intros m (kw & Hkw & -> & _)%Hsound. by apply method_names_total. }
  exists methods. split; [exact Hret|]. intros x. rewrite Hspec. split.
  - intros [?%not_elem_of_empty|(m & Hin & Hx)]; [done|].
    destruct (Hsound m Hin) as (kw & Hkw & Hg & Hcall). rewrite Hg in Hx.
    exists kw. split; [done|]. apply call_of_at; [by apply keyword_chars|]. by exists m.1.1.
  - intros (kw & Hx & Hcall). right. pose proof (method_names_keys _ _ Hx) as Hkw.
    apply call_of_at in Hcall as [i Hcall]; [|by apply keyword_chars].
    destruct (finditer_from_complete router_expr methods_re
                (λ i, ∃ kw, kw ∈ method_keywords ∧ call_at kw router_expr i))
      with (fuel := S (length router_expr)) (pos := 0%nat) (i := i) as (e & c & Hin).
    + intros j (kw' & Hkw' & Hcall'). split.
      * apply Nat.lt_le_incl. eapply call_at_lt; [|done]. by apply keyword_chars.
      * by eapply methods_match_intro.
    + intros s e c j Hm (kw' & Hkw' & Hcall'). by eapply methods_no_overlap.
    + by exists kw.
    + lia.
    + lia.
    + exists (i, e, c). split; [done|].
      destruct (Hsound _ Hin) as (kw' & Hkw' & -> & Hcall'). cbn in Hcall'.
      assert (kw' = kw) as ->; [|done].
      destruct Hcall as (_ & ws & rest & Hd & Hws).
      destruct Hcall' as (_ & ws' & rest' & Hd' & Hws'). rewrite Hd in Hd'.
      destruct (spaces_paren_head ws rest Hws) as (a & r & Ha & Ex).
      destruct (spaces_paren_head ws' rest' Hws') as (b & r' & Hb & Ey).
      rewrite Ex, Ey in Hd'. symmetry.
      eapply ident_prefix_unique; [..|exact Hd']; try done; by apply keyword_chars.
Qed.

(** X22. [_extract_methods] never raises, and the methods it returns are
    exactly those whose keyword is called in the expression: the keyword
    stands there not glued to an identifier character before it, followed by
    optional spaces and an opening parenthesis. *)
Theorem extract_methods_spec (router_expr : str) :
  ∃ methods, _extract_methods router_expr = Returns methods ∧
    ∀ m, m ∈ methods ↔ ∃ kw, METHOD_NAMES !! kw = Some m ∧ call_of kw router_expr.
Proof. apply extract_methods_returns. Qed.

Section router_facts.

Lemma ident_start_char c : ident_start c = true → ident_char c = true.
Proof. unfold ident_char. by intros ->. Qed.

Lemma is_ident_chars s : is_ident s → Forall (λ c, ident_char c = true) s.
Proof. intros (c & s' & -> & Hc & Hs). constructor; [by apply ident_start_char|done]. Qed.

Lemma join_colons_cons seg segs :
  join_colons (seg :: segs) = seg ++ concat ((λ s, lit "::" ++ s) <$> segs).
Proof.
  revert seg. induction segs as [|s segs IH]; intros seg.
  - cbn. by rewrite app_nil_r.
  - cbn [join_colons fmap list_fmap concat] in *. rewrite IH. by rewrite <- !app_assoc.
Qed.

Context (text : str).

Lemma matches_ident_inv i cap j cap' :
  matches text ident_re i cap j cap' →
  cap' = cap ∧ ∃ s, is_ident s ∧ drop i text = s ++ drop j text ∧ j = (i + length s)%nat.
Proof.
  intros (m & cap1 & Hm1 & Hm2)%matches_seq_inv.
  apply matches_chr_inv in Hm1 as (-> & -> & c & Hc & Hf).
  apply matches_star_chr_inv in Hm2 as (-> & s' & Hs' & Hd & ->).
  split; [done|]. exists (c :: s'). split; [by exists c, s'|].
  split; [|cbn; lia]. by rewrite (drop_S _ _ _ Hc), Hd.
Qed.

Lemma matches_ident_intro s rest i cap :
  is_ident s → drop i text = s ++ rest →
  matches text ident_re i cap (i + length s)%nat cap.
Proof.
  intros (c & s' & -> & Hc & Hs') Hd. cbn in Hd.
  apply drop_cons_inv in Hd as [Hi Hd].
  eapply matches_seq; [by econstructor|].
  replace (i + length (c :: s'))%nat with (S i + length s')%nat by (cbn; lia).
  by eapply matches_star_chr_intro.
Qed.

Lemma matches_more_idents_inv i cap j cap' :
  matches text (Star (Seq (lit_re (lit "::")) ident_re)) i cap j cap' →
  cap' = cap ∧ ∃ segs, Forall is_ident segs ∧
    drop i text = concat ((λ s, lit "::" ++ s) <$> segs) ++ drop j text ∧
    j = (i + length (concat ((λ s, lit "::" ++ s) <$> segs)))%nat.
Proof.
  intros Hm. remember (Star (Seq (lit_re (lit "::")) ident_re)) as sr eqn:Hsr.
  induction Hm as [| | | | |r' i cap|r' i cap j cap' l cap'' Hm1 _ Hm2 IH| |];
    try discriminate; injection Hsr as ->.
  - split; [done|]. exists []. cbn. split; [constructor|]. split; [done|lia].
  - apply matches_seq_inv in Hm1 as (m & cap1 & Hm1 & Hm3).
    apply (matches_lit_inv _ (lit "::")) in Hm1 as (-> & -> & Hd1).
    apply matches_ident_inv in Hm3 as (-> & s & Hs & Hd2 & ->).
    destruct (IH eq_refl) as (-> & segs & Hsegs & Hd3 & ->).
    split; [done|]. exists (s :: segs). split; [by constructor|].
    cbn [fmap list_fmap concat]. rewrite !length_app. split; [|lia].
    rewrite Hd1, Hd2, Hd3. by rewrite <- !app_assoc.
Qed.

Lemma matches_more_idents_intro segs rest i cap :
  Forall is_ident segs →
  drop i text = concat ((λ s, lit "::" ++ s) <$> segs) ++ rest →
  matches text (Star (Seq (lit_re (lit "::")) ident_re)) i cap
    (i + length (concat ((λ s, lit "::" ++ s) <$> segs)))%nat cap.
Proof.
  intros Hsegs. revert i. induction Hsegs as [|s segs Hs _ IH]; intros i Hd.
  - cbn. rewrite Nat.add_0_r. constructor.
  - cbn [fmap list_fmap concat] in *. rewrite <- !app_assoc in Hd.
    rewrite !length_app.
    replace (i + (length (lit "::") + length s + length (concat ((λ s0, lit "::" ++ s0) <$> segs))))%nat
      with (i + length (lit "::") + length s + length (concat ((λ s0, lit "::" ++ s0) <$> segs)))%nat by lia.
    eapply matches_star_cons.
    + eapply matches_seq; [by eapply matches_lit_intro|].
      eapply matches_ident_intro; [done|]. by eapply drop_app_inv.
    + apply IH. by do 2 eapply drop_app_inv.
Qed.

Lemma router_match_inv i e c :
  match_at router_re text i = Some (e, c) →
  ∃ segs ws, segs ≠ [] ∧ Forall is_ident segs ∧
    c = Some (i, (i + length (join_colons segs))%nat) ∧
    (∀ ch, text !! (i - 1)%nat = Some ch → (0 < i)%nat → ident_char ch = false) ∧
    Forall (λ ch, is_space ch = true) ws ∧
    drop i text = join_colons segs ++ lit "::router" ++ ws ++ lparen :: drop e text.
Proof.
  intros Hm%match_at_sound. unfold router_re in Hm.
  apply matches_seq_inv in Hm as (m1 & cap1 & Hm1 & Hm2).
  apply matches_not_behind_inv in Hm1 as (-> & -> & Hbehind).
  apply matches_seq_inv in Hm2 as (m2 & cap2 & Hm3 & Hm4).
  apply matches_group_inv in Hm3 as (-> & c0 & Hm5).
  apply matches_seq_inv in Hm5 as (m3 & cap3 & Hm5 & Hm6).
  apply matches_ident_inv in Hm5 as (-> & s & Hs & Hd1 & ->).
  apply matches_more_idents_inv in Hm6 as (-> & segs & Hsegs & Hd2 & ->).
  apply matches_seq_inv in Hm4 as (m4 & cap4 & Hm7 & Hm8).
  apply matches_lit_inv in Hm7 as (-> & -> & Hd3).
  apply matches_spaces_paren_inv in Hm8 as (-> & ws & Hws & Hd4 & ->).
  exists (s :: segs), ws. rewrite join_colons_cons, length_app.
  split; [done|]. split; [by constructor|]. split; [by rewrite Nat.add_assoc|].
  split; [done|]. split; [done|].
  rewrite Hd1, Hd2, Hd3, Hd4. by rewrite <- !app_assoc.
Qed.

Lemma router_match_intro i segs :
  segs ≠ [] → Forall is_ident segs →
  call_at (join_colons segs ++ lit "::router") text i →
  is_Some (match_at router_re text i).
Proof.
  intros Hne Hsegs Hcall.
  assert (i < length text)%nat as Hlt.
  { eapply call_at_lt; [|done]. by destruct (join_colons segs). }
  destruct Hcall as (Hbehind & ws & rest & Hd & Hws).
  destruct segs as [|s segs]; [done|]. apply Forall_cons in Hsegs as [Hs Hsegs].
  rewrite join_colons_cons in Hd. rewrite <- !app_assoc in Hd.
  eapply (match_at_complete _ _ _ None); [|lia].
  eapply matches_seq; [by constructor|].
  eapply matches_seq.
  - eapply matches_group, matches_seq; [by eapply matches_ident_intro|].
    eapply matches_more_idents_intro; [done|]. by eapply drop_app_inv.
  - eapply matches_seq.
    + eapply matches_lit_intro. by do 2 eapply drop_app_inv.
    + eapply matches_spaces_paren_intro; [done|]. by do 3 eapply drop_app_inv.
Qed.
End router_facts.

Lemma extract_router_module_shape (router_expr module : str) :
  _extract_router_module router_expr = Some module →
  ∃ segs, (segs ≠ [] ∧ Forall is_ident segs ∧ module = join_colons segs) ∧
    call_of (join_colons segs ++ lit "::router") router_expr.
Proof.
  unfold _extract_router_module, re_search.
  destruct (search_from _ _ _ _) as [[[s e] c]|] eqn:E; [|done].
  apply search_from_spec in E as [_ Hm]. cbn [fmap option_fmap option_map].
  apply router_match_inv in Hm as (segs & ws & Hne & Hsegs & -> & Hbehind & Hws & Hd).
  unfold group1, slice. cbn [snd].
  replace (s + length (join_colons segs) - s)%nat with (length (join_colons segs)) by lia.
  rewrite Hd, take_app_length. intros [= <-]. exists segs. split; [done|].
  apply call_of_at; [by destruct (join_colons segs)|]. exists s. split; [done|].
  exists ws, (drop e router_expr). by rewrite <- app_assoc.
Qed.

Section module_parts_facts.

Lemma colon_not_ident : ident_char colon = false.
Proof. by vm_compute. Qed.

Lemma ident_not_colon s :
  Forall (λ c, ident_char c = true) s → Forall (λ c, c ≠ colon) s.
Proof.
  intros Hs. eapply Forall_impl; [exact Hs|].
  intros c Hc ->. by rewrite colon_not_ident in Hc.
Qed.

Lemma split_colons_plain s cur :
  Forall (λ c, c ≠ colon) s → split_colons s cur = [cur ++ s].
Proof.
  intros Hs. revert cur. induction Hs as [|c s Hc Hs IH]; intros cur.
  - cbn. by rewrite app_nil_r.
  - cbn [split_colons]. destruct s as [|c' s''] eqn:Es; [done|].
    apply chr_eqb_false in Hc. rewrite Hc. cbn [andb].
    rewrite IH. by rewrite <- app_assoc.
Qed.

Lemma split_colons_seg s t cur :
  Forall (λ c, c ≠ colon) s →
  split_colons (s ++ lit "::" ++ t) cur = (cur ++ s) :: split_colons t [].
Proof.
  intros Hs. revert cur. induction Hs as [|c s Hc Hs IH]; intros cur.
  - cbn. by rewrite app_nil_r.
  - cbn [app split_colons]. destruct (s ++ lit "::" ++ t) as [|c' s''] eqn:Es.
    { by destruct s. }
    apply chr_eqb_false in Hc. rewrite Hc. cbn [andb].
    rewrite IH. by rewrite <- app_assoc.
Qed.

Lemma split_colons_join segs :
  segs ≠ [] → Forall is_ident segs → split_colons (join_colons segs) [] = segs.
Proof.
  intros Hne Hsegs. induction Hsegs as [|s segs Hs Hsegs IH]; [done|].
  apply is_ident_chars, ident_not_colon in Hs.
  cbn [join_colons]. destruct segs as [|s' segs'].
  - by rewrite split_colons_plain.
  - rewrite split_colons_seg by done. by rewrite IH.
Qed.

Lemma join_colons_no_space segs :
  Forall is_ident segs → Forall (λ c, is_space c = false) (join_colons segs).
Proof.
  assert (∀ c, ident_char c = true → is_space c = false) as Hid.
  { intros c Hc. destruct (is_space c) eqn:E; [|done].
    apply space_not_ident in E. congruence. }
  induction 1 as [|s segs Hs Hsegs IH]; [constructor|].
  apply is_ident_chars in Hs. cbn [join_colons]. destruct segs as [|s' segs'].
  - eapply Forall_impl; [exact Hs|done].
  - rewrite !Forall_app. split; [eapply Forall_impl; [exact Hs|done]|]. split; [|done].
    repeat (constructor; [by vm_compute|]). constructor.
Qed.

Lemma lstrip_no_space s : Forall (λ c, is_space c = false) s → lstrip_if is_space s = s.
Proof. intros [|c s' Hc _]; [done|]. cbn. by rewrite Hc. Qed.

Lemma strip_no_space s : Forall (λ c, is_space c = false) s → strip s = s.
Proof.
  intros Hs. unfold strip. rewrite (lstrip_no_space s Hs).
  rewrite lstrip_no_space by by apply Forall_reverse. apply reverse_involutive.
Qed.
End module_parts_facts.

(** X23. A module returned by [_extract_router_module] is a path of
    identifiers joined by two colons, and the expression calls its [router]:
    the path, then [::router], optional spaces and an opening parenthesis,
    not glued to an identifier character before it. *)
Theorem extract_router_module_sound (router_expr module : str) :
  _extract_router_module router_expr = Some module →
  (∃ segs, segs ≠ [] ∧ Forall is_ident segs ∧ module = join_colons segs) ∧
  call_of (module ++ lit "::router") router_expr.
Proof.
  intros (segs & (Hne & Hsegs & ->) & Hcall)%extract_router_module_shape.
  split; [by exists segs|done].
Qed.

Lemma extract_router_module_sound_witness :
  _extract_router_module (lit "v1::api::router()") = Some (lit "v1::api") ∧
  (∃ segs, segs ≠ [] ∧ Forall is_ident segs ∧ lit "v1::api" = join_colons segs) ∧
  call_of (lit "v1::api" ++ lit "::router") (lit "v1::api::router()").
Proof.
  assert (_extract_router_module (lit "v1::api::router()") = Some (lit "v1::api")) as E
    by (by vm_compute).
  split; [exact E|]. exact (extract_router_module_sound _ _ E).
Defined.

(** X24. Conversely, an expression that calls the [router] of some path of
    identifiers has a module extracted from it. *)
Theorem extract_router_module_found (router_expr : str) (segs : list str) :
  segs ≠ [] → Forall is_ident segs →
  call_of (join_colons segs ++ lit "::router") router_expr →
  is_Some (_extract_router_module router_expr).
Proof.
  intros Hne Hsegs Hcall.
  apply call_of_at in Hcall as [i Hcall]; [|by destruct (join_colons segs)].
  assert (i < length router_expr)%nat as Hlt.
  { eapply call_at_lt; [|done]. by destruct (join_colons segs). }
  unfold _extract_router_module, re_search.
  destruct (search_from_finds router_expr router_re (S (length router_expr)) 0 i)
    as (s & e & c & -> & _); [lia|by eapply router_match_intro|].
  by eexists.
Qed.

Lemma extract_router_module_found_witness :
  is_Some (_extract_router_module (lit "nest(v1::api::router ())")).
Proof.
  apply (extract_router_module_found _ [lit "v1"; lit "api"]).
  - done.
  - repeat constructor; eexists _, _; (split; [reflexivity|]);
      (split; [by vm_compute|]); repeat (constructor; [by vm_compute|]); constructor.
  - exists (lit "nest("), (lit " "), (lit "))"). split; [reflexivity|].
    split; [by repeat constructor|]. by intros c [= <-].
Defined.

(** X25. What [_extract_router_module] returns is what
    [_resolve_module_file] expects: stripping spaces leaves it unchanged, and
    its split on two colons gives identifiers, none of them empty, that join
    back to the module. *)
Theorem extract_router_module_parts (router_expr module : str) :
  _extract_router_module router_expr = Some module →
  strip module = module ∧
  module_parts module ≠ [] ∧
  Forall is_ident (module_parts module) ∧
  join_colons (module_parts module) = module.
Proof.
  intros (segs & (Hne & Hsegs & ->) & _)%extract_router_module_shape.
  split; [by apply strip_no_space, join_colons_no_space|].
  unfold module_parts. rewrite split_colons_join by done.
  assert (filter (λ part : str, part ≠ []) segs = segs) as ->; [|done].
  clear Hne. induction Hsegs as [|s segs Hs _ IH]; [done|].
  rewrite filter_cons_True; [by rewrite IH|]. by destruct Hs as (? & ? & -> & _).
Qed.

Lemma extract_router_module_parts_witness :
  _extract_router_module (lit "v1::api::router()") = Some (lit "v1::api") ∧
  strip (lit "v1::api") = lit "v1::api" ∧
  module_parts (lit "v1::api") ≠ [] ∧
  Forall is_ident (module_parts (lit "v1::api")) ∧
  join_colons (module_parts (lit "v1::api")) = lit "v1::api".
Proof.
  assert (_extract_router_module (lit "v1::api::router()") = Some (lit "v1::api")) as E
    by (by vm_compute).
  split; [exact E|]. exact (extract_router_module_parts _ _ E).
Defined.

Section literal_re_facts.

Lemma literal_body_complete b : body b →
  ∀ rest acc, literal_body (b ++ dquote :: rest) acc = Some (acc ++ b).
Proof.
  induction 1 as [|d b Hd _ IH|c b Hq Hb _ IH]; intros rest acc.
  - cbn. rewrite (proj2 (chr_eqb_true dquote dquote) eq_refl). by rewrite app_nil_r.
  - cbn [app literal_body].
    change (chr_eqb bslash dquote) with false.
    rewrite (proj2 (chr_eqb_true bslash bslash) eq_refl).
    rewrite (proj2 (chr_eqb_false d newline) Hd). cbn match.
    rewrite IH. by rewrite <- app_assoc.
  - cbn [app literal_body].
    rewrite (proj2 (chr_eqb_false c dquote) Hq), (proj2 (chr_eqb_false c bslash) Hb).
    rewrite IH. by rewrite <- app_assoc.
Qed.

Lemma literal_body_sound_aux n : ∀ s acc r, (length s ≤ n)%nat →
  literal_body s acc = Some r →
  ∃ b rest, body b ∧ s = b ++ dquote :: rest ∧ r = acc ++ b.
Proof.
  induction n as [|n IH]; intros s acc r Hn.
  { destruct s; [done|cbn in Hn; lia]. }
  destruct s as [|c s']; [done|]. cbn [literal_body]. cbn in Hn.
  destruct (chr_eqb c dquote) eqn:Eq.
  { apply chr_eqb_true in Eq as ->. intros [= <-].
    exists [], s'. split; [constructor|]. by rewrite app_nil_r. }
  apply chr_eqb_false in Eq.
  destruct (chr_eqb c bslash) eqn:Eb.
  - apply chr_eqb_true in Eb as ->. destruct s' as [|d s'']; [done|].
    destruct (chr_eqb d newline) eqn:En; [done|]. apply chr_eqb_false in En.
    cbn in Hn. intros (b & rest & Hb & -> & ->)%IH; [|lia].
    exists (bslash :: d :: b), rest. split; [by constructor|].
    split; [done|]. by rewrite <- app_assoc.
  - apply chr_eqb_false in Eb.
    intros (b & rest & Hb & -> & ->)%IH; [|lia].
    exists (c :: b), rest. split; [by constructor|].
    split; [done|]. by rewrite <- app_assoc.
Qed.

Lemma body_unique b : body b →
  ∀ b' r r', body b' → b ++ dquote :: r = b' ++ dquote :: r' → b = b'.
Proof.
  induction 1 as [|d b Hd _ IH|c b Hq Hb _ IH]; intros b' r r' Hb' E.
  - destruct Hb' as [|d' b' _ _|c' b' Hq' _ _]; [done|..]; cbn in E.
    + by injection E.
    + injection E as <- _. done.
  - destruct Hb' as [|d' b' _ Hb'|c' b' _ Hb'' Hb']; cbn in E.
    + by injection E.
    + injection E as <- E. f_equal. f_equal. by eapply IH.
    + injection E as <- _. done.
  - destruct Hb' as [|d' b' _ Hb'|c' b' _ _ Hb']; cbn in E.
    + injection E as -> _. done.
    + injection E as -> _. done.
    + injection E as <- E. f_equal. by eapply IH.
Qed.

Lemma spaces_unique ws : Forall (λ c, is_space c = true) ws →
  ∀ ws' t t', Forall (λ c, is_space c = true) ws' →
  ws ++ dquote :: t = ws' ++ dquote :: t' → ws = ws' ∧ t = t'.
Proof.
  induction 1 as [|c ws Hc _ IH]; intros ws' t t' Hws' E.
  - destruct Hws' as [|c' ws' Hc' _]; cbn in E; [by injection E|].
    injection E as <- _. by vm_compute in Hc'.
  - destruct Hws' as [|c' ws' Hc' Hws']; cbn in E.
    + injection E as -> _. by vm_compute in Hc.
    + injection E as <- E. destruct (IH _ _ _ Hws' E) as [-> ->]. done.
Qed.

Lemma lstrip_split s :
  ∃ ws, Forall (λ c, is_space c = true) ws ∧ s = ws ++ lstrip_if is_space s.
Proof.
  induction s as [|c s (ws & Hws & E)]; [by exists []|].
  cbn [lstrip_if]. destruct (is_space c) eqn:Ec.
  - exists (c :: ws). split; [by constructor|]. cbn. by rewrite <- E.
  - by exists [].
Qed.

Lemma extract_string_literal_spec expr r :
  _extract_string_literal expr = Some r ↔
  ∃ ws b rest, Forall (λ c, is_space c = true) ws ∧ body b ∧
    expr = ws ++ dquote :: b ++ dquote :: rest ∧ r = _unescape_rust_string b.
Proof.
  unfold _extract_string_literal. split.
  - destruct (lstrip_split expr) as (ws & Hws & E).
    destruct (lstrip_if is_space expr) as [|c s]; [done|].
    destruct (chr_eqb c dquote) eqn:Ec; [|done]. apply chr_eqb_true in Ec as ->.
    destruct (literal_body s []) as [g|] eqn:Eg; [|done]. intros [= <-].
    apply (literal_body_sound_aux _ _ _ _ (le_n _)) in Eg as (b & rest & Hb & -> & ->).
    by exists ws, b, rest.
  - intros (ws & b & rest & Hws & Hb & -> & ->).
    rewrite lstrip_spaces by done. cbn [lstrip_if].
    change (is_space dquote) with false. cbn match.
    rewrite (proj2 (chr_eqb_true dquote dquote) eq_refl).
    by rewrite literal_body_complete.
Qed.

Context (text : str).

Lemma matches_body_inv i cap j cap' :
  matches text literal_body_re i cap j cap' →
  cap' = cap ∧ ∃ b, body b ∧ drop i text = b ++ drop j text ∧ j = (i + length b)%nat.
Proof.
  intros Hm. unfold literal_body_re in Hm.
  remember (Star _) as sr eqn:Hsr.
  induction Hm as [| | | | |r' i cap|r' i cap j cap' l cap'' Hm1 _ Hm2 IH| |];
    try discriminate; injection Hsr as ->.
  - split; [done|]. exists []. split; [constructor|]. cbn. split; [done|lia].
  - destruct (IH eq_refl) as (-> & b & Hb & Hd & ->).
    apply matches_alt_inv in Hm1 as [Hm1|Hm1].
    + apply matches_seq_inv in Hm1 as (m & cap1 & Hm1 & Hm3).
      apply matches_chr_inv in Hm1 as (-> & -> & c & Hc & Hf).
      apply matches_chr_inv in Hm3 as (-> & -> & d & Hd' & Hf').
      apply chr_eqb_true in Hf as <-.
      apply negb_true_iff, chr_eqb_false in Hf'.
      split; [done|]. exists (bslash :: d :: b). split; [by constructor|].
      split; [|cbn; lia]. by rewrite (drop_S _ _ _ Hc), (drop_S _ _ _ Hd'), Hd.
    + apply matches_chr_inv in Hm1 as (-> & -> & c & Hc & Hf).
      apply andb_true_iff in Hf as [Hq%negb_true_iff%chr_eqb_false Hs%negb_true_iff%chr_eqb_false].
      split; [done|]. exists (c :: b). split; [by constructor|].
      split; [|cbn; lia]. by rewrite (drop_S _ _ _ Hc), Hd.
Qed.

Lemma matches_body_intro b : body b → ∀ rest i cap,
  drop i text = b ++ rest →
  matches text literal_body_re i cap (i + length b)%nat cap.
Proof.
  induction 1 as [|d b Hd _ IH|c b Hq Hb _ IH]; intros rest i cap E.
  - cbn. rewrite Nat.add_0_r. constructor.
  - cbn in E. apply drop_cons_inv in E as [Hc E]. apply drop_cons_inv in E as [Hd' E].
    replace (i + length (bslash :: d :: b))%nat with (S (S i) + length b)%nat by (cbn; lia).
    eapply matches_star_cons; [|by eapply IH].
    apply matches_alt_l. eapply matches_seq.
    + econstructor; [done|]. by apply chr_eqb_true.
    + econstructor; [done|]. by apply negb_true_iff, chr_eqb_false.
  - cbn in E. apply drop_cons_inv in E as [Hc E].
    replace (i + length (c :: b))%nat with (S i + length b)%nat by (cbn; lia).
    eapply matches_star_cons; [|by eapply IH].
    apply matches_alt_r. econstructor; [done|].
    apply andb_true_iff. split; by apply negb_true_iff, chr_eqb_false.
Qed.

Lemma matches_quoted_inv i cap j cap' :
  matches text (Seq (Chr (chr_eqb dquote))
                  (Seq (Group literal_body_re) (Chr (chr_eqb dquote)))) i cap j cap' →
  ∃ b, body b ∧ cap' = Some (S i, (S i + length b)%nat) ∧
    drop i text = dquote :: b ++ dquote :: drop j text ∧ j = S (S (i + length b)).
Proof.
  intros (m1 & cap1 & Hm1 & Hm2)%matches_seq_inv.
  apply matches_chr_inv in Hm1 as (-> & -> & c & Hc & <-%chr_eqb_true).
  apply matches_seq_inv in Hm2 as (m2 & cap2 & Hm2 & Hm3).
  apply matches_group_inv in Hm2 as (-> & c0 & Hm2).
  apply matches_body_inv in Hm2 as (_ & b & Hb & Hd & ->).
  apply matches_chr_inv in Hm3 as (-> & -> & c' & Hc' & <-%chr_eqb_true).
  exists b. split; [done|]. split; [done|]. split; [|done].
  by rewrite (drop_S _ _ _ Hc), Hd, (drop_S _ _ _ Hc').
Qed.

Lemma matches_quoted_intro b rest i cap :
  body b → drop i text = dquote :: b ++ dquote :: rest →
  matches text (Seq (Chr (chr_eqb dquote))
                  (Seq (Group literal_body_re) (Chr (chr_eqb dquote))))
    i cap (S (S (i + length b))) (Some (S i, (S i + length b)%nat)).
Proof.
  intros Hb E. apply drop_cons_inv in E as [Hc E].
  eapply matches_seq.
  { econstructor; [done|]. by apply chr_eqb_true. }
  eapply matches_seq.
  { eapply matches_group. by eapply matches_body_intro. }
  apply drop_app_inv, drop_cons_inv in E as [Hc' _].
  econstructor; [done|]. by apply chr_eqb_true.
Qed.
End literal_re_facts.

(** X26. The scanner that embeds [_extract_string_literal] returns what
    [re.match] with the pattern of the source returns, run by the
    backtracking matcher: the same literal decoded, or none in both. *)
Theorem extract_string_literal_regex (expr : str) :
  _extract_string_literal expr = extract_string_literal_re expr.
Proof.
  assert (∀ j c, match_at string_literal_re expr 0 = Some (j, c) →
            ∃ ws b rest, Forall (λ c, is_space c = true) ws ∧ body b ∧
              expr = ws ++ dquote :: b ++ dquote :: rest ∧
              group1 expr (0%nat, j, c) = b) as Hinv.
  { intros j c Hm%match_at_sound.
    apply matches_seq_inv in Hm as (m1 & cap1 & Hm1 & Hm2).
    apply matches_star_chr_inv in Hm1 as (-> & ws & Hws & Hd1 & ->).
    apply matches_quoted_inv in Hm2 as (b & Hb & -> & Hd2 & ->).
    rewrite drop_0 in Hd1. exists ws, b, (drop (S (S (0 + length ws + length b))) expr).
    split; [done|]. split; [done|]. split; [by rewrite <- Hd2|].
    unfold group1, slice. cbn [snd].
    replace (S (0 + length ws) + length b - S (0 + length ws))%nat with (length b) by lia.
    apply drop_cons_inv in Hd2 as [_ ->]. by rewrite take_app_length. }
  unfold extract_string_literal_re.
  destruct (_extract_string_literal expr) as [r|] eqn:E.
  - apply extract_string_literal_spec in E as (ws & b & rest & Hws & Hb & -> & ->).
    destruct (match_at_complete (ws ++ dquote :: b ++ dquote :: rest) string_literal_re
                0 None (S (S (0 + length ws + length b)))
                (Some (S (0 + length ws), (S (0 + length ws) + length b)%nat)))
      as [[j c] Hm]; [|lia|].
    { eapply matches_seq; [by eapply matches_star_chr_intro|].
      eapply matches_quoted_intro; [done|]. cbn. by rewrite drop_app_length. }
    rewrite Hm. cbn [fmap option_fmap option_map fst snd].
    destruct (Hinv _ _ Hm) as (ws' & b' & rest' & Hws' & Hb' & E & ->).
    destruct (spaces_unique _ Hws _ _ _ Hws' E) as [_ E'].
    by rewrite (body_unique _ Hb _ _ _ Hb' E').
  - destruct (match_at string_literal_re expr 0) as [[j c]|] eqn:Hm; [|done].
    destruct (Hinv _ _ eq_refl) as (ws & b & rest & Hws & Hb & Hexpr & _).
    assert (_extract_string_literal expr = Some (_unescape_rust_string b)) as E'.
    { apply extract_string_literal_spec. by exists ws, b, rest. }
    congruence.
Qed.

Section health_facts.
Context (text : str).

Lemma health_match_inv i e c :
  match_at health_re text i = Some (e, c) →
  ∃ b ws1 ws2 ws3, body b ∧
    Forall (λ c, is_space c = true) ws1 ∧
    Forall (λ c, is_space c = true) ws2 ∧
    Forall (λ c, is_space c = true) ws3 ∧
    drop i text = lit "health_paths.push(" ++ ws1 ++ quoted b ++ ws2 ++
                  lit ".to_string()" ++ ws3 ++ rparen :: drop e text ∧
    group1 text (i, e, c) = b.
Proof.
  intros Hm%match_at_sound. unfold health_re in Hm.
  apply matches_seq_inv in Hm as (m1 & cap1 & Hm1 & Hm).
  apply matches_lit_inv in Hm1 as (-> & -> & Hd1).
  apply matches_seq_inv in Hm as (m2 & cap2 & Hm2 & Hm).
  apply matches_star_chr_inv in Hm2 as (-> & ws1 & Hws1 & Hd2 & ->).
  apply matches_seq_inv in Hm as (m3 & cap3 & Hm3 & Hm).
  apply matches_chr_inv in Hm3 as (-> & -> & q1 & Hq1 & <-%chr_eqb_true).
  apply matches_seq_inv in Hm as (m4 & cap4 & Hm4 & Hm).
  apply matches_group_inv in Hm4 as (-> & c0 & Hm4).
  apply matches_body_inv in Hm4 as (_ & b & Hb & Hd3 & ->).
  apply matches_seq_inv in Hm as (m5 & cap5 & Hm5 & Hm).
  apply matches_chr_inv in Hm5 as (-> & -> & q2 & Hq2 & <-%chr_eqb_true).
  apply matches_seq_inv in Hm as (m6 & cap6 & Hm6 & Hm).
  apply matches_star_chr_inv in Hm6 as (-> & ws2 & Hws2 & Hd4 & ->).
  apply matches_seq_inv in Hm as (m7 & cap7 & Hm7 & Hm).
  apply matches_lit_inv in Hm7 as (-> & -> & Hd5).
  apply matches_seq_inv in Hm as (m8 & cap8 & Hm8 & Hm).
  apply matches_star_chr_inv in Hm8 as (-> & ws3 & Hws3 & Hd6 & ->).
  apply matches_chr_inv in Hm as (-> & -> & p & Hp & <-%chr_eqb_true).
  exists b, ws1, ws2, ws3. repeat (split; [done|]). split.
  - rewrite Hd1, Hd2, (drop_S _ _ _ Hq1), Hd3, (drop_S _ _ _ Hq2), Hd4, Hd5, Hd6,
      (drop_S _ _ _ Hp).
    unfold quoted. cbn [app]. by rewrite <- !app_assoc.
  - unfold group1, slice. cbn [snd].
    match goal with |- take ?n _ = _ => replace n with (length b) by lia end.
    by rewrite Hd3, take_app_length.
Qed.

Lemma health_match_intro i b ws1 ws2 ws3 rest :
  body b →
  Forall (λ c, is_space c = true) ws1 →
  Forall (λ c, is_space c = true) ws2 →
  Forall (λ c, is_space c = true) ws3 →
  drop i text = lit "health_paths.push(" ++ ws1 ++ quoted b ++ ws2 ++
                lit ".to_string()" ++ ws3 ++ rparen :: rest →
  is_Some (match_at health_re text i).
Proof.
  intros Hb Hws1 Hws2 Hws3 Hd.
  assert (i < length text)%nat as Hlt.
  { destruct (decide (i < length text)%nat) as [|Hge]; [done|].
    by rewrite drop_ge in Hd by lia. }
  unfold quoted in Hd. cbn [app] in Hd. rewrite <- app_assoc in Hd. cbn [app] in Hd.
  pose proof (drop_app_inv _ _ _ _ Hd) as Hd1.
  pose proof (drop_app_inv _ _ _ _ Hd1) as Hd2.
  pose proof (drop_cons_inv _ _ _ _ Hd2) as [Hq1 Hd3].
  pose proof (drop_app_inv _ _ _ _ Hd3) as Hd4.
  pose proof (drop_cons_inv _ _ _ _ Hd4) as [Hq2 Hd5].
  pose proof (drop_app_inv _ _ _ _ Hd5) as Hd6.
  pose proof (drop_app_inv _ _ _ _ Hd6) as Hd7.
  pose proof (drop_app_inv _ _ _ _ Hd7) as Hd8.
  pose proof (drop_cons_inv _ _ _ _ Hd8) as [Hp _].
  eapply (match_at_complete _ _ _ None); [|lia].
  eapply matches_seq;
    [eapply (matches_lit_intro _ (lit "health_paths.push(")); exact Hd|].
  eapply matches_seq; [eapply matches_star_chr_intro; [exact Hws1|exact Hd1]|].
  eapply matches_seq; [econstructor; [exact Hq1|by apply chr_eqb_true]|].
  eapply matches_seq; [eapply matches_group, matches_body_intro; [exact Hb|exact Hd3]|].
  eapply matches_seq; [econstructor; [exact Hq2|by apply chr_eqb_true]|].
  eapply matches_seq; [eapply matches_star_chr_intro; [exact Hws2|exact Hd5]|].
  eapply matches_seq; [eapply (matches_lit_intro _ (lit ".to_string()")); exact Hd6|].
  eapply matches_seq; [eapply matches_star_chr_intro; [exact Hws3|exact Hd7]|].
  econstructor; [exact Hp|by apply chr_eqb_true].
Qed.
End health_facts.

(** X27. Every prefix returned by [_extract_health_prefixes] is the decoded
    body of a string literal pushed on [health_paths] in the text. *)
Theorem extract_health_prefixes_sound (mod_text p : str) :
  p ∈ _extract_health_prefixes mod_text →
  ∃ b, body b ∧ p = _unescape_rust_string b ∧ health_push_of b mod_text.
Proof.
  unfold _extract_health_prefixes, re_finditer.
  intros ([[s e] c] & -> & [_ Hm]%finditer_from_sound)%list_elem_of_fmap.
  apply health_match_inv in Hm as (b & ws1 & ws2 & ws3 & Hb & Hws1 & Hws2 & Hws3 & Hd & ->).
  exists b. split; [done|]. split; [done|].
  exists (take s mod_text), ws1, ws2, ws3, (drop e mod_text).
  split; [|done]. by rewrite <- Hd, take_drop.
Qed.

Lemma extract_health_prefixes_sound_witness :
  lit "/health" ∈ _extract_health_prefixes health_text ∧
  ∃ b, body b ∧ lit "/health" = _unescape_rust_string b ∧ health_push_of b health_text.
Proof.
  assert (lit "/health" ∈ _extract_health_prefixes health_text) as Hin.
  { replace (_extract_health_prefixes health_text) with [lit "/health"]
      by (by vm_compute). by left. }
  split; [exact Hin|]. exact (extract_health_prefixes_sound _ _ Hin).
Defined.

(** X28. A text that pushes a string literal on [health_paths] yields at
    least one health prefix. *)
Theorem extract_health_prefixes_found (mod_text b : str) :
  body b → health_push_of b mod_text → _extract_health_prefixes mod_text ≠ [].
Proof.
  intros Hb (pre & ws1 & ws2 & ws3 & rest & -> & Hws1 & Hws2 & Hws3).
  set (text := pre ++ _).
  assert (is_Some (match_at health_re text (length pre))) as Hm.
  { eapply health_match_intro; [exact Hb|exact Hws1|exact Hws2|exact Hws3|].
    unfold text. by rewrite drop_app_length. }
  assert (length pre < length text)%nat as Hlt.
  { unfold text. rewrite length_app. cbn. lia. }
  unfold _extract_health_prefixes, re_finditer. cbn [finditer_from].
  destruct (search_from_finds text health_re (S (length text) - 0) 0 (length pre))
    as (s & e & c & -> & _); [lia|done|]. done.
Qed.

Lemma extract_health_prefixes_found_witness :
  _extract_health_prefixes health_text ≠ [].
Proof.
  apply (extract_health_prefixes_found health_text (lit "/health")).
  - unfold lit. cbn [list_ascii_of_string].
    repeat (apply body_chr; [by vm_compute|by vm_compute|]). apply body_nil.
  - exists [], (lit " "), (lit " "), (lit " "), (lit ";").
    split; [reflexivity|]. by repeat constructor.
Defined.

Section file_facts.

Lemma add_routes_spec calls : ∀ acc,
  ∃ endpoints, add_routes calls acc = Returns endpoints ∧
    ∀ e, e ∈ endpoints ↔
      e ∈ acc ∨ ∃ a b kw, (a, b) ∈ calls ∧
        _extract_string_literal a = Some (Endpoint.path e) ∧
        METHOD_NAMES !! kw = Some (Endpoint.method e) ∧ call_of kw b.
Proof.
  induction calls as [|[a b] calls IH]; intros acc; cbn [add_routes].
  - exists acc. split; [done|]. intros e. split; [by left|].
    intros [?|(a & b & kw & ?%elem_of_nil & _)]; done.
  - destruct (_extract_string_literal a) as [p|] eqn:Ea.
    + destruct (extract_methods_returns b) as (methods & -> & Hm). cbn [obind].
      destruct (IH (acc ∪ set_map (λ method, Endpoint.Build method p) methods))
        as (endpoints & -> & Hspec).
      exists endpoints. split; [done|]. intros e.
      rewrite Hspec, elem_of_union, elem_of_map. split.
      * intros [[?|(m & -> & (kw & Hkw & Hcall)%Hm)]|(a' & b' & kw & Hin & ?)].
        -- by left.
        -- right. exists a, b, kw. split; [by left|done].
        -- right. exists a', b', kw. split; [by right|done].
      * intros [?|(a' & b' & kw & [[= -> ->]|Hin]%elem_of_cons & Hl & Hkw & Hcall)].
        -- by left; left.
        -- left; right. exists (Endpoint.method e). split.
           ++ destruct e as [m p']. cbn in *. congruence.
           ++ apply Hm. by exists kw.
        -- right. by exists a', b', kw.
    + destruct (IH acc) as (endpoints & -> & Hspec).
      exists endpoints. split; [done|]. intros e. rewrite Hspec. split.
      * intros [?|(a' & b' & kw & Hin & ?)]; [by left|].
        right. exists a', b', kw. split; [by right|done].
      * intros [?|(a' & b' & kw & [[= -> ->]|Hin]%elem_of_cons & Hl & Hkw & Hcall)].
        -- by left.
        -- congruence.
        -- right. by exists a', b', kw.
Qed.

Lemma add_nests_spec calls : ∀ acc, add_nests calls acc = acc ++ omap nest_of calls.
Proof.
  induction calls as [|[a b] calls IH]; intros acc; cbn [add_nests omap list_omap].
  - by rewrite app_nil_r.
  - unfold nest_of at 1. cbn [fst snd].
    destruct (_extract_string_literal a) as [p|]; [|apply IH].
    destruct (_extract_router_module b) as [m|]; [|apply IH].
    rewrite IH. by rewrite <- app_assoc.
Qed.
End file_facts.

(** X29. On a file that can be read, [_extract_endpoints_from_file] returns:
    both scans for calls return, the nests are, in order, what the [.nest(]
    calls give (those without a literal prefix or without a router call are
    skipped), and an endpoint is reported exactly when some [.route(] call
    has a string literal decoding to its path as first argument and calls
    the keyword of its method in the second. *)
Theorem extract_endpoints_from_file_spec {Path : Type} (read_text : Path → option str)
    (path : Path) (text : str) :
  read_text path = Some text →
  ∃ routes nest_calls endpoints,
    _extract_two_arg_calls text (lit ".route(") = Returns routes ∧
    _extract_two_arg_calls text (lit ".nest(") = Returns nest_calls ∧
    _extract_endpoints_from_file read_text path =
      Returns (ParsedRouterFile.Build endpoints (omap nest_of nest_calls)) ∧
    ∀ e, e ∈ endpoints ↔
      ∃ a b kw, (a, b) ∈ routes ∧
        _extract_string_literal a = Some (Endpoint.path e) ∧
        METHOD_NAMES !! kw = Some (Endpoint.method e) ∧ call_of kw b.
Proof.
  intros Hread. unfold _extract_endpoints_from_file. rewrite Hread.
  destruct (loop_returns text (lit ".route(") (S (S (length text))) 0 [])
    as [routes Hroutes]; [done|lia..|].
  destruct (loop_returns text (lit ".nest(") (S (S (length text))) 0 [])
    as [nest_calls Hnests]; [done|lia..|].
  unfold _extract_two_arg_calls. rewrite Hroutes, Hnests. cbn [obind].
  destruct (add_routes_spec routes ∅) as (endpoints & -> & Hspec). cbn [obind].
  exists routes, nest_calls, endpoints. split; [done|]. split; [done|].
  split; [by rewrite add_nests_spec|].
  intros e. rewrite Hspec. split; [|by right].
  by intros [?%not_elem_of_empty|?].
Qed.

Lemma extract_endpoints_from_file_spec_witness :
  ∃ routes nest_calls endpoints,
    _extract_two_arg_calls router_text (lit ".route(") = Returns routes ∧
    _extract_two_arg_calls router_text (lit ".nest(") = Returns nest_calls ∧
    _extract_endpoints_from_file (λ _ : unit, Some router_text) () =
      Returns (ParsedRouterFile.Build endpoints (omap nest_of nest_calls)) ∧
    ∀ e, e ∈ endpoints ↔
      ∃ a b kw, (a, b) ∈ routes ∧
        _extract_string_literal a = Some (Endpoint.path e) ∧
        METHOD_NAMES !! kw = Some (Endpoint.method e) ∧ call_of kw b.
Proof.
  apply (extract_endpoints_from_file_spec (λ _ : unit, Some router_text) () router_text).
  reflexivity.
Defined.
